(** * Table column resizing: width post-fixer and resize controller

    A shallow embedding of [TableColumnResizeEditing]
    (module table/tablecolumnresize/tablecolumnresizeediting, the second
    document of src/packages/ckeditor5-link/src/anchorediting.ts):

    - the width post-fixer registered by [_registerPostFixer];
    - the pointer handlers [_onMouseDownHandler], [_onMouseMoveHandler],
      [_onMouseUpHandler] together with [_getResizingData];
    - the listeners of [_registerResizingListeners] and
      [_registerResizerInserter] with [_draggingState];

    and of [AnchorEditing.getAnchors], the first document of that file.

    Numbers.  JavaScript numbers are idealised as exact rationals plus one
    absorbing non-number [NaN]; rounding of IEEE doubles is not modelled, and
    the infinities a division by zero would give are folded into [NaN].

    Strings.  A width attribute is a comma separated text of tokens
    [<number>%].  It is represented by the list of its tokens; two texts are
    the same text exactly when their tokens print the same numbers. *)

From Stdlib Require Import QArith Qround Lqa.
From Stdlib Require String.
From stdpp Require Import gmap list.

Local Open Scope Q_scope.

(** ** JavaScript numbers *)

Inductive number : Type :=
  | Num (q : Q)
  | NaN.

Definition lift2 (f : Q -> Q -> Q) (a b : number) : number :=
  match a, b with
  | Num x, Num y => Num (f x y)
  | _, _ => NaN
  end.

Definition jadd : number -> number -> number := lift2 Qplus.
Definition jsub : number -> number -> number := lift2 Qminus.
Definition jmul : number -> number -> number := lift2 Qmult.

Definition jneg (a : number) : number :=
  match a with Num x => Num (- x) | NaN => NaN end.

(** [a / b]; a zero divisor gives a non-finite value, folded into [NaN]. *)
Definition jdiv (a b : number) : number :=
  match a, b with
  | Num x, Num y => if Qeq_bool y 0 then NaN else Num (x / y)
  | _, _ => NaN
  end.

Definition Qlt_bool (x y : Q) : bool := negb (Qle_bool y x).

(** Every comparison with [NaN] is false. *)
Definition jle (a b : number) : bool :=
  match a, b with Num x, Num y => Qle_bool x y | _, _ => false end.
Definition jlt (a b : number) : bool :=
  match a, b with Num x, Num y => Qlt_bool x y | _, _ => false end.
Definition jge (a b : number) : bool := jle b a.

(** [a === b] on numbers. *)
Definition jeq (a b : number) : bool :=
  match a, b with Num x, Num y => Qeq_bool x y | _, _ => false end.

(** [Math.min] and [Math.max]. *)
Definition jmin (a b : number) : number :=
  match a, b with
  | Num x, Num y => Num (if Qle_bool x y then x else y)
  | _, _ => NaN
  end.
Definition jmax (a b : number) : number :=
  match a, b with
  | Num x, Num y => Num (if Qle_bool x y then y else x)
  | _, _ => NaN
  end.

(** [!x] is true for 0 and NaN (and for [undefined], see [elem]). *)
Definition falsy (a : number) : bool :=
  match a with Num x => Qeq_bool x 0 | NaN => true end.

(** The number printed by two tokens is the same text. *)
Definition same_number (a b : number) : bool :=
  match a, b with
  | Num x, Num y => Qeq_bool x y
  | NaN, NaN => true
  | _, _ => false
  end.

(** ** Arrays of numbers

    An array slot holds a number or is a hole (an index below [length] that
    was never assigned).  Reading a hole or reading past the end gives
    [undefined], which arithmetic turns into [NaN]. *)

Abbreviation array := (list (option number)).

Definition elem (arr : array) (i : nat) : number :=
  match arr !! i with
  | Some (Some n) => n
  | _ => NaN
  end.

(** [arr.splice( start, 0, ...items )]: the start is clamped to the length. *)
Definition spliceInsert (start : nat) (items arr : array) : array :=
  take start arr ++ items ++ drop start arr.

(** [arr.splice( start, count )]: the removed slots and what is left. *)
Definition spliceRemove (start count : nat) (arr : array) : array * array :=
  (take count (drop start arr), take start arr ++ drop (start + count) arr).

(** [arr[ i ] += v].  Past the end the array grows: holes up to [i], then
    [undefined + v], which is [NaN]. *)
Definition addAssign (i : nat) (v : number) (arr : array) : array :=
  let w := jadd (elem arr i) v in
  if (i <? length arr)%nat then <[i := Some w]> arr
  else arr ++ replicate (i - length arr) None ++ [Some w].

(** ** Helpers of ./utils and ./constants

    The module imports its helpers from files that are not part of the
    sources at hand.  The simple ones are modelled here, the others are
    fields of [Utils]. *)

(** Modelled from the spec: [sumArray] of ./utils, "array summation"; the
    sum starts at 0 and holes are skipped, as [Array.prototype.reduce]
    does. *)
Definition sumArray (arr : array) : number :=
  fold_left (fun acc s => match s with Some n => jadd acc n | None => acc end)
            arr (Num 0).

(** Modelled from the spec: [createFilledArray] of ./utils, an array of
    [n] slots all holding [v]. *)
Definition createFilledArray (n : nat) (v : number) : array :=
  replicate n (Some v).

(** Modelled from the spec: [clamp] of ./utils, "clamping" a number into
    [[lo, hi]]. *)
Definition clamp (x lo hi : number) : number :=
  if jle x lo then lo else if jge x hi then hi else x.

(** ** Width attributes as token lists *)

Inductive token : Type :=
  | Pct (n : number)    (* the text [`${ n }%`] *)
  | Blank.              (* the empty text *)

(** [parseFloat] of a token, and of an absent value. *)
Definition parseFloat (t : option token) : number :=
  match t with
  | Some (Pct n) => n
  | _ => NaN
  end.

Definition same_token (a b : token) : bool :=
  match a, b with
  | Pct x, Pct y => same_number x y
  | Blank, Blank => true
  | _, _ => false
  end.

Fixpoint same_tokens (a b : list token) : bool :=
  match a, b with
  | [], [] => true
  | x :: a', y :: b' => same_token x y && same_tokens a' b'
  | _, _ => false
  end.

(** [text.split( ',' )]: the empty text splits into one empty token. *)
Definition split (a : list token) : list token :=
  match a with [] => [Blank] | _ => a end.

(** [a === b] on attribute texts. *)
Definition same_text (a b : list token) : bool :=
  same_tokens (split a) (split b).

(** [a === b] where either side may be [undefined]. *)
Definition same_opt_text (a b : option (list token)) : bool :=
  match a, b with
  | Some x, Some y => same_text x y
  | None, None => true
  | _, _ => false
  end.

Definition same_opt_token (a b : option token) : bool :=
  match a, b with
  | Some x, Some y => same_token x y
  | None, None => true
  | _, _ => false
  end.

(** Truthiness of a text: only the empty text is falsy. *)
Definition nonempty_text (a : list token) : bool :=
  negb (same_text a []).

(** [arr.map( width => `${ width }%` ).join( ',' )]: [map] keeps holes and
    [join] prints a hole as the empty text. *)
Definition widthsToAttribute (arr : array) : list token :=
  map (fun s => match s with Some n => Pct n | None => Blank end) arr.

(** The helpers whose bodies are not available. *)
Class Utils : Type := {
  (** [toPrecision] of ./utils: precision rounding of a number. *)
  toPrecision : number -> number;
  (** [normalizeColumnWidths] of ./utils: from the split attribute to the
      array of numbers, normalised. *)
  normalizeColumnWidths : list token -> array;
  (** [COLUMN_MIN_WIDTH_IN_PIXELS] of ./constants. *)
  COLUMN_MIN_WIDTH_IN_PIXELS : number;
}.

(** ** The model table

    A table element of the model, together with what the collaborators of
    the post-fixer answer for it: the slots [TableWalker] yields, the column
    count of [TableUtils.getColumns] and the value of
    [getColumnMinWidthAsPercentage], which is measured on the rendered
    table. *)

Definition cell := positive.

Record table : Type := Table {
  columnWidths : option (list token);   (* getAttribute( 'columnWidths' ) *)
  tableWidth : option token;            (* getAttribute( 'tableWidth' ) *)
  tableAlignment : bool;                (* hasAttribute( 'tableAlignment' ) *)
  walker : list (cell * nat);           (* { cell, column } of new TableWalker( table ) *)
  getColumns : nat;                     (* this._tableUtilsPlugin.getColumns( table ) *)
  getColumnMinWidthAsPercentage : number;
}.

(** [writer.setAttribute( 'columnWidths', value, table )]. *)
Definition setColumnWidths (value : list token) (t : table) : table :=
  Table (Some value) (tableWidth t) (tableAlignment t) (walker t)
        (getColumns t) (getColumnMinWidthAsPercentage t).

(** [writer.setAttribute( 'tableWidth', value, table )]. *)
Definition setTableWidth (value : token) (t : table) : table :=
  Table (columnWidths t) (Some value) (tableAlignment t) (walker t)
        (getColumns t) (getColumnMinWidthAsPercentage t).

(** ** The post-fixer *)

Module PostFixer.

(** The variables the loop over the cells of one table works on:
    [columnWidths], [this._columnIndexMap], [isColumnInsertionHandled],
    [isColumnDeletionHandled] and [changed]. *)
Record loop : Type := Loop {
  widths : array;
  columnIndexMap : gmap cell nat;
  isColumnInsertionHandled : bool;
  isColumnDeletionHandled : bool;
  changed : bool;
}.

(** (3.1) insertion: the first one found splices
    [column - previousColumn] minimal widths in at [previousColumn]. *)
Definition handleInsertion (t : table) (c : cell) (previousColumn column : nat)
    (st : loop) : loop :=
  let ws :=
    if negb (isColumnInsertionHandled st) then
      spliceInsert previousColumn
        (createFilledArray (column - previousColumn)
                           (getColumnMinWidthAsPercentage t))
        (widths st)
    else widths st in
  Loop ws (<[c := column]> (columnIndexMap st)) true
       (isColumnDeletionHandled st) true.

(** (3.1) deletion: the first one found removes
    [previousColumn - column] widths at [column] and adds their sum to
    [columnToExpand]. *)
Definition handleDeletion (c : cell) (previousColumn column : nat)
    (st : loop) : loop :=
  let ws :=
    if negb (isColumnDeletionHandled st) then
      let columnToExpand := if (0 <? column)%nat then (column - 1)%nat else column in
      let '(removedColumnWidths, rest) :=
        spliceRemove column (previousColumn - column) (widths st) in
      addAssign columnToExpand (sumArray removedColumnWidths) rest
    else widths st in
  Loop ws (<[c := column]> (columnIndexMap st))
       (isColumnInsertionHandled st) true true.

(** The body of [for ( const { cell, column } of new TableWalker( table ) )]. *)
Definition visitCell (t : table) (st : loop) (slot : cell * nat) : loop :=
  let '(c, column) := slot in
  match columnIndexMap st !! c with
  | None =>
      (* (2) first sight of the cell: record it and go on *)
      Loop (widths st) (<[c := column]> (columnIndexMap st))
           (isColumnInsertionHandled st) (isColumnDeletionHandled st) true
  | Some previousColumn =>
      let isColumnInsertion := (previousColumn <? column)%nat in
      let isColumnDeletion := (column <? previousColumn)%nat in
      let st1 :=
        if isColumnInsertion then handleInsertion t c previousColumn column st
        else st in
      if isColumnDeletion then handleDeletion c previousColumn column st1
      else st1
  end.

Definition walkCells (t : table) (st : loop) : loop :=
  fold_left (visitCell t) (walker t) st.

(** (3.2) insertion and deletion at the table end.  Both tests read the
    length the array has after the walk. *)
Definition fixTableEnd (t : table) (ws : array) : array :=
  let numberOfColumns := getColumns t in
  let isColumnInsertionAtEnd := (length ws <? numberOfColumns)%nat in
  let isColumnDeletionAtEnd := (numberOfColumns <? length ws)%nat in
  let ws1 :=
    if isColumnInsertionAtEnd then
      spliceInsert (length ws)
        (createFilledArray (numberOfColumns - length ws)
                           (getColumnMinWidthAsPercentage t))
        ws
    else ws in
  if isColumnDeletionAtEnd then
    let removedColumnWidths := drop numberOfColumns ws1 in
    let rest := take numberOfColumns ws1 in
    match numberOfColumns with
    | O => rest   (* index -1 names no element: the array is left as it is *)
    | S k => addAssign k (sumArray removedColumnWidths) rest
    end
  else ws1.

(** The widths the pass computes for a table whose attribute is [a]. *)
Definition fixedWidths `{Utils} (m : gmap cell nat) (t : table)
    (a : list token) : array :=
  let st := walkCells t (Loop (normalizeColumnWidths (split a)) m false false false) in
  fixTableEnd t (widths st).

(** What the pass did to one table. *)
Record outcome : Type := Outcome {
  table_after : table;
  map_after : gmap cell nat;
  changed_after : bool;
  written : bool;        (* [writer.setAttribute] was called *)
}.

(** The body of [for ( const table of getChangedTables( model ) )].
    [None] stands for the [TypeError] of calling [split] on [undefined]. *)
Definition fixTable `{Utils} (m : gmap cell nat) (changed0 : bool)
    (t : table) : option outcome :=
  match columnWidths t with
  | None => None
  | Some a =>
      let st := walkCells t (Loop (normalizeColumnWidths (split a)) m false false changed0) in
      let columnWidthsAttribute := widthsToAttribute (fixTableEnd t (widths st)) in
      if same_text a columnWidthsAttribute then
        Some (Outcome t (columnIndexMap st) (changed st) false)
      else
        Some (Outcome (setColumnWidths columnWidthsAttribute t)
                      (columnIndexMap st) true true)
  end.

(** The post-fixer callback over the tables [getChangedTables] yields:
    the tables after the pass, the map, and the returned [changed]. *)
Fixpoint postFixerFrom `{Utils} (m : gmap cell nat) (changed0 : bool)
    (tables : list table) : option (list table * gmap cell nat * bool) :=
  match tables with
  | [] => Some ([], m, changed0)
  | t :: rest =>
      match fixTable m changed0 t with
      | None => None
      | Some o =>
          match postFixerFrom (map_after o) (changed_after o) rest with
          | None => None
          | Some (ts, m', ch) => Some (table_after o :: ts, m', ch)
          end
      end
  end.

Definition postFixer `{Utils} (m : gmap cell nat) (tables : list table) :
    option (list table * gmap cell nat * bool) :=
  postFixerFrom m false tables.

(** The numbers a stored attribute denotes. *)
Definition parsedWidths (a : list token) : array :=
  map (fun tk => Some (parseFloat (Some tk))) (split a).

End PostFixer.

(** ** A concrete reading of the missing helpers *)

Module SpecUtils.

(** Modelled from the spec: [toPrecision] of ./utils, "precision rounding";
    the body is missing, two decimal places with [Math.round] (halves go
    up) are taken. *)
Definition toPrecision (a : number) : number :=
  match a with
  | Num q => Num (inject_Z (Qfloor (q * 100 + (1 # 2))) / 100)
  | NaN => NaN
  end.

(** The last slot of [arr] replaced by [f] of it. *)
Definition mapLast (f : number -> number) (arr : array) : array :=
  match length arr with
  | O => arr
  | S k => <[k := Some (f (elem arr k))]> arr
  end.

(** Modelled from the spec: [normalizeColumnWidths] of ./utils, "parse
    current columnWidths into a sequence of numbers; normalize so they sum
    to exactly 100 (redistribute rounding remainder)".  Widths that already
    sum to 100 are kept; otherwise each is scaled by 100 over the total and
    rounded, and the last one takes the rounding remainder. *)
Definition normalizeColumnWidths (tokens : list token) : array :=
  let ws := map (fun tk => Some (parseFloat (Some tk))) tokens in
  let totalWidth := sumArray ws in
  if jeq totalWidth (Num 100) then ws
  else
    let scaled :=
      map (fun s => match s with
                    | Some w => Some (toPrecision (jdiv (jmul w (Num 100)) totalWidth))
                    | None => None
                    end) ws in
    mapLast (fun w => toPrecision (jsub (jadd w (Num 100)) (sumArray scaled))) scaled.

(** Modelled from the spec: [COLUMN_MIN_WIDTH_IN_PIXELS] of ./constants,
    the "absolute minimum pixel width" of a column; 40 is taken. *)
Definition COLUMN_MIN_WIDTH_IN_PIXELS : number := Num 40.

#[export] Instance utils : Utils :=
  Build_Utils toPrecision normalizeColumnWidths COLUMN_MIN_WIDTH_IN_PIXELS.

End SpecUtils.


(** ** The resize controller

    One table is on screen.  Its rendered form is reduced to what the
    handlers read and write: the [<colgroup>] with the width style of each
    [<col>], the width style of the enclosing [<figure>], the
    [ck-table-resized] class and the handles carrying
    [ck-table-column-resizer__active].  Element references kept in the
    session are positions in the [<colgroup>]. *)

Module Controller.

Definition handle := positive.

Record view : Type := View {
  colgroup : option (list (option token));
  figureWidth : option token;          (* viewFigure.getStyle( 'width' ) *)
  tableResized : bool;                 (* class ck-table-resized *)
  activeResizers : gset handle;        (* class ck-table-column-resizer__active *)
}.

(** [this._resizingData]; [modelTable], [viewFigure] and [viewColgroup]
    are those of the one table. *)
Record resizingData : Type := ResizingData {
  columnPosition : number;
  isRightEdge : bool;
  isTableCentered : bool;
  isLtrContent : bool;
  viewResizer : handle;
  viewLeftColumn : nat;
  viewRightColumn : option nat;
  viewFigureParentWidth : number;
  viewFigureWidth : number;
  tableWidthInPixels : number;
  leftColumnWidth : number;
  rightColumnWidth : number;           (* [undefined] reads as [NaN] *)
}.

(** The two commands the controller executes. *)
Inductive command : Type :=
  | resizeTableWidth (tableWidthValue : token) (columnWidthsValue : list token)
  | resizeColumnWidths (columnWidthsValue : list token).

Record editor : Type := Editor {
  isResizingActive : bool;             (* this._isResizingActive *)
  isResizingAllowed : bool;            (* this._isResizingAllowed *)
  session : option resizingData;       (* this._resizingData *)
  columnIndexMap : gmap cell nat;      (* this._columnIndexMap *)
  modelTable : table;
  viewTable : view;
  executed : list command;             (* calls of editor.execute, latest first *)
}.

(** What a [mousedown] carries and what the page answers when the handler
    measures it. *)
Record mouseDown : Type := MouseDown {
  targetIsResizer : bool;              (* target.hasClass( 'ck-table-column-resizer' ) *)
  target : handle;
  clientX : number;                    (* domEventData.domEvent.clientX *)
  getDomCellOuterWidth : cell -> number;
  leftColumnIndex : nat;               (* getColumnEdgesIndexes( ... ).rightEdge *)
  figureParentWidthInPixels : number;  (* getElementWidthInPixels( parent of figure ) *)
  figureWidthInPixels : number;        (* getElementWidthInPixels( figure ) *)
  getTableWidthInPixels : number;
  contentIsLtr : bool;                 (* contentLanguageDirection !== 'rtl' *)
}.

(** [arr[ i ] = v], growing the array with holes past its end. *)
Definition assign (i : nat) (v : number) (arr : array) : array :=
  if (i <? length arr)%nat then <[i := Some v]> arr
  else arr ++ replicate (i - length arr) None ++ [Some v].

(** [_calculateDomColumnWidths]: per column the narrowest cell, rounded;
    cells not yet in the map are recorded. *)
Definition measureCell `{Utils} (width : cell -> number)
    (acc : array * gmap cell nat) (slot : cell * nat) : array * gmap cell nat :=
  let '(columnWidthsInPx, m) := acc in
  let '(c, column) := slot in
  let domCellWidth := width c in
  let columnWidthsInPx' :=
    if falsy (elem columnWidthsInPx column)
       || jlt domCellWidth (elem columnWidthsInPx column)
    then assign column (toPrecision domCellWidth) columnWidthsInPx
    else columnWidthsInPx in
  let m' := match m !! c with None => <[c := column]> m | Some _ => m end in
  (columnWidthsInPx', m').

Definition calculateDomColumnWidths `{Utils} (t : table) (m : gmap cell nat)
    (width : cell -> number) : array * gmap cell nat :=
  fold_left (measureCell width) (walker t) (replicate (getColumns t) None, m).

(** [_insertColgroupElement]: one [<col>] per entry, sized as a percentage
    of the sum. *)
Definition insertColgroupElement `{Utils} (columnWidthsInPx : array) :
    list (option token) :=
  imap (fun i _ =>
          Some (Pct (toPrecision
                       (jmul (jdiv (elem columnWidthsInPx i) (sumArray columnWidthsInPx))
                             (Num 100)))))
       columnWidthsInPx.

(** [_getResizingData]. *)
Definition getResizingData (t : table) (ev : mouseDown) (columnWidths : array) :
    resizingData :=
  let rightEdge := (leftColumnIndex ev + 1 =? getColumns t)%nat in
  ResizingData (clientX ev) rightEdge (negb (tableAlignment t)) (contentIsLtr ev)
    (target ev)
    (leftColumnIndex ev)
    (if rightEdge then None else Some (leftColumnIndex ev + 1)%nat)
    (figureParentWidthInPixels ev) (figureWidthInPixels ev)
    (getTableWidthInPixels ev)
    (elem columnWidths (leftColumnIndex ev))
    (if rightEdge then NaN else elem columnWidths (leftColumnIndex ev + 1)).

(** [_applyResizingAttributesToTable]. *)
Definition applyResizingAttributesToTable `{Utils} (d : resizingData) (v : view) :
    view :=
  let figureInitialPcWidth := jdiv (viewFigureWidth d) (viewFigureParentWidth d) in
  View (colgroup v)
       (Some (Pct (toPrecision (jmul figureInitialPcWidth (Num 100)))))
       true
       ({[ viewResizer d ]} ∪ activeResizers v).

(** [_onMouseDownHandler]. *)
Definition onMouseDownHandler `{Utils} (ev : mouseDown) (e : editor) : editor :=
  if negb (targetIsResizer ev) then
    Editor (isResizingActive e) false (session e) (columnIndexMap e)
           (modelTable e) (viewTable e) (executed e)
  else if negb (isResizingAllowed e) then e
  else
    let '(columnWidthsInPx, m) :=
      calculateDomColumnWidths (modelTable e) (columnIndexMap e)
                               (getDomCellOuterWidth ev) in
    let v := viewTable e in
    (* insert colgroup for the table that is resized for the first time *)
    let v1 :=
      match colgroup v with
      | Some _ => v
      | None => View (Some (insertColgroupElement columnWidthsInPx))
                     (figureWidth v) (tableResized v) (activeResizers v)
      end in
    let d := getResizingData (modelTable e) ev columnWidthsInPx in
    Editor true (isResizingAllowed e) (Some d) m (modelTable e)
           (applyResizingAttributesToTable d v1) (executed e).

(** [writer.setStyle( 'width', value, col )] for the [<col>] at position
    [i]; [None] is the [TypeError] of a reference that is [undefined]. *)
Definition setColumnStyle (i : nat) (value : token) (v : view) : option view :=
  match colgroup v with
  | Some cols =>
      if (i <? length cols)%nat then
        Some (View (Some (<[i := Some value]> cols)) (figureWidth v)
                   (tableResized v) (activeResizers v))
      else None
  | None => None
  end.

Definition setFigureStyle (value : option token) (v : view) : view :=
  View (colgroup v) value (tableResized v) (activeResizers v).

(** Spec 4.3: the commands set the table's width attribute and its columns'
    width attribute together, or only the columns' width attribute.  These
    are the writes of the command itself: the post-fixers that the change
    block of the command runs afterwards, [PostFixer.postFixer] among them,
    are not part of it, so [modelTable] after a release is the table as the
    command wrote it, before they have run. *)
Definition execute (c : command) (t : table) : table :=
  match c with
  | resizeTableWidth w ws => setColumnWidths ws (setTableWidth w t)
  | resizeColumnWidths ws => setColumnWidths ws t
  end.

(** The text of [[ ...viewColgroup.getChildren() ].map( getStyle ).join( ',' )];
    a [<col>] without the style prints as the empty text. *)
Definition colgroupWidths (v : view) : list token :=
  match colgroup v with
  | Some cols => map (fun s => match s with Some tk => tk | None => Blank end) cols
  | None => []
  end.

(** The loop [for ( const viewCol of ... ) setStyle( 'width', columnWidths.shift(), viewCol )]. *)
Fixpoint restoreColumns (cols : list (option token)) (columnWidths : list token) :
    list (option token) :=
  match cols with
  | [] => []
  | _ :: cols' =>
      match columnWidths with
      | [] => None :: restoreColumns cols' []
      | w :: ws => Some w :: restoreColumns cols' ws
      end
  end.

(** The view change of the read-only branch of [_onMouseUpHandler]. *)
Definition revertView (columnWidthsAttributeOld : option (list token))
    (tableWidthAttributeOld : option token) (isTableWidthAttributeChanged : bool)
    (v : view) : view :=
  let hadColumnWidths :=
    match columnWidthsAttributeOld with
    | Some a => nonempty_text a
    | None => false
    end in
  let hadTableWidth :=
    match tableWidthAttributeOld with
    | Some Blank => false
    | Some _ => true
    | None => false
    end in
  let cg :=
    match columnWidthsAttributeOld with
    | Some a =>
        if nonempty_text a then
          match colgroup v with
          | Some cols => Some (restoreColumns cols (split a))
          | None => None
          end
        else None
    | None => None
    end in
  let fw :=
    if isTableWidthAttributeChanged then
      if hadTableWidth then tableWidthAttributeOld else None
    else figureWidth v in
  let resized :=
    if negb hadColumnWidths && negb hadTableWidth then false else tableResized v in
  View cg fw resized (activeResizers v).

(** [_onMouseUpHandler]; [None] is the [TypeError] of reading the elements
    of a session that is [null].  [toPrecision] is handed the style text
    and reads its number. *)
Definition onMouseUpHandler `{Utils} (e : editor) : option editor :=
  if negb (isResizingActive e) then
    Some (Editor (isResizingActive e) true (session e) (columnIndexMap e)
                 (modelTable e) (viewTable e) (executed e))
  else
    match session e with
    | None => None
    | Some d =>
        let t := modelTable e in
        let v := viewTable e in
        let columnWidthsAttributeOld := columnWidths t in
        let columnWidthsAttributeNew := colgroupWidths v in
        let isColumnWidthsAttributeChanged :=
          negb (same_opt_text columnWidthsAttributeOld (Some columnWidthsAttributeNew)) in
        let tableWidthAttributeOld := tableWidth t in
        let tableWidthAttributeNew := figureWidth v in
        let isTableWidthAttributeChanged :=
          negb (same_opt_token tableWidthAttributeOld tableWidthAttributeNew) in
        let '(t', v', log) :=
          if isColumnWidthsAttributeChanged || isTableWidthAttributeChanged then
            if isResizingAllowed e then
              (* commit all changes to the model *)
              let c :=
                if isTableWidthAttributeChanged then
                  resizeTableWidth
                    (Pct (toPrecision (parseFloat tableWidthAttributeNew)))
                    columnWidthsAttributeNew
                else resizeColumnWidths columnWidthsAttributeNew in
              (execute c t, v, c :: executed e)
            else
              (* revert all changes in the editing view *)
              (t, revertView columnWidthsAttributeOld tableWidthAttributeOld
                             isTableWidthAttributeChanged v, executed e)
          else (t, v, executed e) in
        let v'' := View (colgroup v') (figureWidth v') (tableResized v')
                        (activeResizers v' ∖ {[ viewResizer d ]}) in
        Some (Editor false (isResizingAllowed e) None (columnIndexMap e) t' v'' log)
    end.

(** [_onDragLeaveHandler]: a release when no button is held. *)
Definition onDragLeaveHandler `{Utils} (buttons : nat) (e : editor) : option editor :=
  if (buttons =? 0)%nat then onMouseUpHandler e else Some e.

(** The offset [_onMouseMoveHandler] applies for a pointer at [x]. *)
Definition multiplier (d : resizingData) : number :=
  jmul (if isLtrContent d then Num 1 else Num (-1))
       (if isRightEdge d && isTableCentered d then Num 2 else Num 1).

Definition dxLowerBound `{Utils} (d : resizingData) : number :=
  jadd (jneg (leftColumnWidth d)) COLUMN_MIN_WIDTH_IN_PIXELS.

Definition dxUpperBound `{Utils} (d : resizingData) : number :=
  if isRightEdge d then jsub (viewFigureParentWidth d) (tableWidthInPixels d)
  else jsub (rightColumnWidth d) COLUMN_MIN_WIDTH_IN_PIXELS.

Definition dragOffset `{Utils} (d : resizingData) (x : number) : number :=
  clamp (jmul (jsub x (columnPosition d)) (multiplier d))
        (jmin (dxLowerBound d) (Num 0))
        (jmax (dxUpperBound d) (Num 0)).

(** The view change of [_onMouseMoveHandler]. *)
Definition resizeView `{Utils} (d : resizingData) (dx : number) (v : view) :
    option view :=
  let leftColumnWidthAsPercentage :=
    toPrecision (jdiv (jmul (jadd (leftColumnWidth d) dx) (Num 100))
                      (tableWidthInPixels d)) in
  match setColumnStyle (viewLeftColumn d) (Pct leftColumnWidthAsPercentage) v with
  | None => None
  | Some v1 =>
      if isRightEdge d then
        let tableWidthAsPercentage :=
          toPrecision (jdiv (jmul (jadd (tableWidthInPixels d) dx) (Num 100))
                            (viewFigureParentWidth d)) in
        Some (setFigureStyle (Some (Pct tableWidthAsPercentage)) v1)
      else
        let rightColumnWidthAsPercentage :=
          toPrecision (jdiv (jmul (jsub (rightColumnWidth d) dx) (Num 100))
                            (tableWidthInPixels d)) in
        match viewRightColumn d with
        | Some j => setColumnStyle j (Pct rightColumnWidthAsPercentage) v1
        | None => None
        end
  end.

(** [_onMouseMoveHandler] for a pointer at [x]; [None] is a [TypeError]. *)
Definition onMouseMoveHandler `{Utils} (x : number) (e : editor) : option editor :=
  if negb (isResizingActive e) then Some e
  else if negb (isResizingAllowed e) then onMouseUpHandler e
  else
    match session e with
    | None => None    (* destructuring [null] *)
    | Some d =>
        let dx := dragOffset d x in
        if jeq dx (Num 0) then Some e
        else
          match resizeView d dx (viewTable e) with
          | None => None
          | Some v =>
              Some (Editor (isResizingActive e) (isResizingAllowed e) (session e)
                           (columnIndexMap e) (modelTable e) v (executed e))
          end
    end.

End Controller.

(** ** Finite width sequences *)

(** The array whose slots hold the rationals [qs]. *)
Definition numbers (qs : list Q) : array := map (fun q => Some (Num q)) qs.

(** The attribute text whose tokens print the rationals [qs]. *)
Definition percentages (qs : list Q) : list token := map (fun q => Pct (Num q)) qs.

Definition Qsum (qs : list Q) : Q := fold_left Qplus qs 0.

(** [z] hundredths, the shape of a number rounded to two decimals. *)
Definition hundredths (z : Z) : Q := inject_Z z / 100.

(** ** Shapes of a walk, relative to the column index map *)

(** The cell is new to the map, or it is where the map has it. *)
Definition quiet (m : gmap cell nat) (slot : cell * nat) : Prop :=
  m !! slot.1 = None \/ m !! slot.1 = Some slot.2.

(** The cell is not right of where the map has it (no insertion before it). *)
Definition notMovedRight (m : gmap cell nat) (slot : cell * nat) : Prop :=
  forall p, m !! slot.1 = Some p -> (slot.2 <= p)%nat.

(** The cell is not left of where the map has it (no deletion before it). *)
Definition notMovedLeft (m : gmap cell nat) (slot : cell * nat) : Prop :=
  forall p, m !! slot.1 = Some p -> (p <= slot.2)%nat.

(** [insertionOf m t K p N]: the pass over [t], whose width sequence has
    length [K], meets an insertion of [N] columns at position [p]: either
    the first cell that moved went from [p] to [p + N], no cell moved left
    and the table has [K + N] columns; or no cell moved and the table has
    [N] columns more than the sequence, at its end. *)
Inductive insertionOf (m : gmap cell nat) (t : table) (K : nat) : nat -> nat -> Prop :=
  | insertion_inside pre c column post p :
      walker t = pre ++ (c, column) :: post ->
      Forall (quiet m) pre ->
      m !! c = Some p ->
      (p < column)%nat ->
      Forall (notMovedLeft m) post ->
      getColumns t = (K + (column - p))%nat ->
      insertionOf m t K p (column - p)
  | insertion_at_end N :
      Forall (quiet m) (walker t) ->
      (0 < N)%nat ->
      getColumns t = (K + N)%nat ->
      insertionOf m t K K N.

(** [deletionOf m t K p d]: the pass meets a deletion of [d] columns at
    position [p]: either the first cell that moved went from [p + d], a
    column of the sequence, to [p], no cell moved right and the table has
    [K - d] columns; or no cell moved and the table has [d] columns fewer
    than the sequence, at its end. *)
Inductive deletionOf (m : gmap cell nat) (t : table) (K : nat) : nat -> nat -> Prop :=
  | deletion_inside pre c column post p :
      walker t = pre ++ (c, column) :: post ->
      Forall (quiet m) pre ->
      m !! c = Some p ->
      (column < p)%nat ->
      (p < K)%nat ->
      Forall (notMovedRight m) post ->
      getColumns t = (K - (p - column))%nat ->
      deletionOf m t K column (p - column)
  | deletion_at_end d :
      Forall (quiet m) (walker t) ->
      (0 < d)%nat ->
      (d < K)%nat ->
      getColumns t = (K - d)%nat ->
      deletionOf m t K (K - d) d.

(** The pass over a table with attribute [a] met an insertion: inside the
    table ([isColumnInsertionHandled]) or at its end
    ([isColumnInsertionAtEnd]). *)
Definition insertionDetected `{Utils} (m : gmap cell nat) (t : table)
    (a : list token) : bool :=
  let st := PostFixer.walkCells t
              (PostFixer.Loop (normalizeColumnWidths (split a)) m false false false) in
  PostFixer.isColumnInsertionHandled st
  || (length (PostFixer.widths st) <? getColumns t)%nat.

(** The part of the loop state that only insertions and deletions touch. *)
Definition sameWidths (ws : array) (ih dh : bool) (st : PostFixer.loop) : Prop :=
  PostFixer.widths st = ws
  /\ PostFixer.isColumnInsertionHandled st = ih
  /\ PostFixer.isColumnDeletionHandled st = dh.

(** ** Worked tables *)

Module Examples.

Definition percent (z : Z) : token := Pct (Num (inject_Z z)).

(** A table with the widths 50%,50% after a column was inserted between
    its two columns: the cell of the second column is now in column 2.  A
    column of 40 pixels is 20% of the table. *)
Definition grownTable : table :=
  Table (Some [percent 50; percent 50]) None false
        [(1%positive, 0%nat); (2%positive, 2%nat)] 3 (Num 20).

Definition grownMap : gmap cell nat :=
  <[2%positive := 1%nat]> (<[1%positive := 0%nat]> ∅).

(** The same table when the new column was appended instead. *)
Definition appendedTable : table :=
  Table (Some [percent 50; percent 50]) None false
        [(1%positive, 0%nat); (2%positive, 1%nat)] 3 (Num 20).

(** A table with the widths 25%,25%,50% after its middle column was
    deleted: the cell of the third column is now in column 1. *)
Definition shrunkTable : table :=
  Table (Some [percent 25; percent 25; percent 50]) None false
        [(1%positive, 0%nat); (3%positive, 1%nat)] 2 (Num 20).

Definition shrunkMap : gmap cell nat :=
  <[3%positive := 2%nat]> (<[2%positive := 1%nat]> (<[1%positive := 0%nat]> ∅)).

(** A table that was never resized: no attribute. *)
Definition plainTable : table :=
  Table None None false [(1%positive, 0%nat); (2%positive, 1%nat)] 2 (Num 20).

(** The table 50%,50%, itself 50% wide, as it is rendered: 400 pixels in
    a container of 800, each cell 200 pixels wide. *)
Definition resizedTable : table :=
  Table (Some [percent 50; percent 50]) (Some (percent 50)) false
        [(1%positive, 0%nat); (2%positive, 1%nat)] 2 (Num 20).

Definition resizedView : Controller.view :=
  Controller.View (Some [Some (percent 50); Some (percent 50)])
                  (Some (percent 50)) true ∅.

Definition idleEditor : Controller.editor :=
  Controller.Editor false true None ∅ resizedTable resizedView [].

(** A press at x = 300 on the handle between the two columns. *)
Definition pressInner : Controller.mouseDown :=
  Controller.MouseDown true 7%positive (Num 300) (fun _ => Num 200) 0
                       (Num 800) (Num 400) (Num 400) true.

(** A press at x = 500 on the handle of the last column. *)
Definition pressEdge : Controller.mouseDown :=
  Controller.MouseDown true 8%positive (Num 500) (fun _ => Num 200) 1
                       (Num 800) (Num 400) (Num 400) true.

(** The never resized table as it is rendered, same geometry. *)
Definition plainEditor : Controller.editor :=
  Controller.Editor false true None ∅ plainTable
                    (Controller.View None None false ∅) [].

(** The table 50%,50% when it is 125% wide: 500 pixels in a container of
    400, each cell 250 pixels wide. *)
Definition wideEditor : Controller.editor :=
  Controller.Editor false true None ∅
    (Table (Some [percent 50; percent 50]) (Some (percent 125)) false
           [(1%positive, 0%nat); (2%positive, 1%nat)] 2 (Num 8))
    (Controller.View (Some [Some (percent 50); Some (percent 50)])
                     (Some (percent 125)) true ∅)
    [].

(** A press at x = 300 on the handle of the last column of that table. *)
Definition pressWideEdge : Controller.mouseDown :=
  Controller.MouseDown true 8%positive (Num 300) (fun _ => Num 250) 1
                       (Num 400) (Num 500) (Num 500) true.

Definition innerSession : Controller.resizingData :=
  Controller.getResizingData resizedTable pressInner (numbers [200; 200]).

End Examples.

(** ** Press, drag, release *)

Module Gesture.
Import Controller.

(** The binding of [_isResizingAllowed] to the editor's read-only state,
    the plugin and the two commands gives the flag a new value. *)
Definition setResizingAllowed (allowed : bool) (e : editor) : editor :=
  Editor (isResizingActive e) allowed (session e) (columnIndexMap e)
         (modelTable e) (viewTable e) (executed e).

(** Pointer moves to the positions [xs], one call of the handler each. *)
Fixpoint drag `{Utils} (xs : list number) (e : editor) : option editor :=
  match xs with
  | [] => Some e
  | x :: xs' =>
      match onMouseMoveHandler x e with
      | Some e' => drag xs' e'
      | None => None
      end
  end.

(** A press, moves to [xs], a release. *)
Definition pressDragRelease `{Utils} (ev : mouseDown) (xs : list number)
    (e : editor) : option editor :=
  match drag xs (onMouseDownHandler ev e) with
  | Some e' => onMouseUpHandler e'
  | None => None
  end.

(** The width styles of the [<col>]s, a missing style as the empty text. *)
Definition styles (cols : list (option token)) : list token :=
  map (fun s => match s with Some tk => tk | None => Blank end) cols.

(** Two [<colgroup>]s, or their absence, show the same widths. *)
Definition same_colgroup (c1 c2 : option (list (option token))) : bool :=
  match c1, c2 with
  | Some x, Some y => same_tokens (styles x) (styles y)
  | None, None => true
  | _, _ => false
  end.

(** The [<colgroup>] the downcast of [columnWidths] renders: one [<col>]
    per token, none without the attribute. *)
Definition renderedColgroup (t : table) : option (list (option token)) :=
  match columnWidths t with
  | Some a => Some (map Some (split a))
  | None => None
  end.

(** The percentage [_applyResizingAttributesToTable] gives the figure. *)
Definition figureInitialWidth `{Utils} (ev : mouseDown) : token :=
  Pct (toPrecision (jmul (jdiv (figureWidthInPixels ev) (figureParentWidthInPixels ev))
                         (Num 100))).

End Gesture.

(** ** More worked tables *)

Module MoreExamples.
Import Examples.



(** The table 50%,50% seen for the first time: the map is empty. *)
Definition freshTable : table :=
  Table (Some [percent 50; percent 50]) None false
        [(1%positive, 0%nat); (2%positive, 1%nat)] 2 (Num 20).

(** Another table, 30%,70%, with cells of its own. *)
Definition otherTable : table :=
  Table (Some [percent 30; percent 70]) None false
        [(5%positive, 0%nat); (6%positive, 1%nat)] 2 (Num 20).

End MoreExamples.

(** ** Several tables *)

(** No cell of a table is a cell of a later table of the list. *)
Fixpoint separateCells (tables : list table) : Prop :=
  match tables with
  | [] => True
  | t :: rest =>
      Forall (fun t' => forall c, c ∈ (walker t).*1 -> c ∉ (walker t').*1) rest
      /\ separateCells rest
  end.

(** ** Views during a drag *)

Module Drag.
Import Controller.

(** Two views differ at most in the styles a drag step of the session [d]
    writes: the width of the left [<col>] and, on the right edge, the width
    of the figure, on an internal boundary, the width of the right
    [<col>]. *)
Definition differInDraggedStyles (d : resizingData) (v v1 : view) : Prop :=
  tableResized v1 = tableResized v
  /\ activeResizers v1 = activeResizers v
  /\ (isRightEdge d = false -> figureWidth v1 = figureWidth v)
  /\ match colgroup v, colgroup v1 with
     | Some cols, Some cols1 =>
         length cols1 = length cols
         /\ forall k, k <> viewLeftColumn d ->
                      (isRightEdge d = false -> Some k <> viewRightColumn d) ->
                      cols1 !! k = cols !! k
     | None, None => True
     | _, _ => False
     end.

(** The editor with another view. *)
Definition withView (v : view) (e : editor) : editor :=
  Editor (isResizingActive e) (isResizingAllowed e) (session e) (columnIndexMap e)
         (modelTable e) v (executed e).

End Drag.

(** ** The listeners of the plugin

    [_registerResizingListeners] and [_registerResizerInserter] attach the
    handlers to the events of the page; the plugin also keeps
    [_draggingState].  An event is what a listener is called with.  The
    throttled [mousemove] listener is called for some of the moves; the
    second [mousemove] listener only stops the propagation of the event and
    has no part in the state.  The handles [ensureColumnResizerElement]
    inserts on [render] are not part of [view]. *)

Module Listeners.
Import Controller Gesture.

(** The values of [this._draggingState]. *)
Inductive dragging : Type :=
  | notdragging
  | dragginactive
  | afterdragging.

Record plugin : Type := Plugin {
  resizing : editor;
  draggingState : dragging;            (* this._draggingState *)
}.

Inductive event : Type :=
  | mousedown (ev : mouseDown)
  | mousemove (x : number)             (* clientX of the event *)
  | mouseup
  | dragleave (buttons : nat)
  | drop
  | dragstart
  | render
  | change_isResizingAllowed (value : bool).   (* the binding set in [init] fires *)

Definition withEditor (p : plugin) (e : option editor) : option plugin :=
  match e with
  | Some e' => Some (Plugin e' (draggingState p))
  | None => None
  end.

(** The listener of each event; [None] is a [TypeError] in the handler. *)
Definition listener `{Utils} (evt : event) (p : plugin) : option plugin :=
  match evt with
  | mousedown ev =>
      Some (Plugin (onMouseDownHandler ev (resizing p)) (draggingState p))
  | mousemove x => withEditor p (onMouseMoveHandler x (resizing p))
  | mouseup => withEditor p (onMouseUpHandler (resizing p))
  | dragleave buttons => withEditor p (onDragLeaveHandler buttons (resizing p))
  | drop => Some (Plugin (resizing p) afterdragging)
  | dragstart => Some (Plugin (resizing p) dragginactive)
  | render =>
      match draggingState p with
      | afterdragging => Some (Plugin (setResizingAllowed true (resizing p)) notdragging)
      | _ => Some p
      end
  | change_isResizingAllowed value =>
      Some (Plugin (setResizingAllowed value (resizing p)) (draggingState p))
  end.

(** The events of a list, one after the other. *)
Fixpoint fire `{Utils} (evts : list event) (p : plugin) : option plugin :=
  match evts with
  | [] => Some p
  | evt :: evts' =>
      match listener evt p with
      | Some p' => fire evts' p'
      | None => None
      end
  end.

(** The column index of a press on a handle is one of the [n] columns.
    The index is what [getColumnEdgesIndexes] reads from the column index
    map for the cell of the handle; a press does not correct the map, so
    the index is a column of the table only as long as the map has the
    cell where it is. *)
Definition pressesColumn (n : nat) (evt : event) : Prop :=
  match evt with
  | mousedown ev => targetIsResizer ev = true -> (leftColumnIndex ev < n)%nat
  | _ => True
  end.

(** The listeners of [drop], [dragstart] and [render] are the ones that
    read or write [_draggingState]. *)
Definition isPointerEvent (evt : event) : bool :=
  match evt with
  | drop | dragstart | render => false
  | _ => true
  end.

(** The [<col>]s the handlers write are there: the table has [n] columns,
    a [<colgroup>], if there is one, has a [<col>] for each, and an open
    session refers to [<col>]s among the first [n] of a [<colgroup>] that
    is there. *)
Definition sessionFits (n : nat) (e : editor) : Prop :=
  getColumns (modelTable e) = n
  /\ (forall cols, colgroup (viewTable e) = Some cols -> (n <= length cols)%nat)
  /\ (isResizingActive e = true ->
      exists d, session e = Some d
        /\ (viewLeftColumn d < n)%nat
        /\ (isRightEdge d = false ->
            exists j, viewRightColumn d = Some j /\ (j < n)%nat)
        /\ exists cols, colgroup (viewTable e) = Some cols).

End Listeners.

(** ** More worked gestures *)

Module MoreGestures.
Import Controller Examples Listeners.

(** A press at x = 10, not on a handle. *)
Definition pressOutside : mouseDown :=
  MouseDown false 9%positive (Num 10) (fun _ => Num 200) 0
            (Num 800) (Num 400) (Num 400) true.

(** The editor after the press on the handle between the two columns. *)
Definition pressedEditor : editor :=
  onMouseDownHandler (H := SpecUtils.utils) pressInner idleEditor.

(** A session on the handle between a column of 30 pixels, narrower than
    the minimum of 40, and a column of 200 pixels. *)
Definition narrowSession : resizingData :=
  getResizingData resizedTable pressInner (numbers [30; 200]).

Definition idlePlugin : plugin := Plugin idleEditor notdragging.

(** A press at x = 300 on a handle for whose cell the column index map
    gives column 5, which the table of two columns does not have. *)
Definition pressStale : mouseDown :=
  MouseDown true 7%positive (Num 300) (fun _ => Num 200) 5
            (Num 800) (Num 400) (Num 400) true.

End MoreGestures.

(** * Anchors

    [AnchorEditing.getAnchors] of module link/anchorediting, the first
    document of src/packages/ckeditor5-link/src/anchorediting.ts.  A model
    item is reduced to its identity and the value of its [anchorName]
    attribute; a root to the items the range over it yields, in the order
    of the iteration.  [String] is the conversion of an attribute value to
    a string. *)

Module Anchors.
Section GetAnchors.
Context {value : Type} (String : value -> String.string).

Record item : Type := Item {
  node : positive;
  anchorName : option value;    (* getAttribute( 'anchorName' ); [None]: hasAttribute is false *)
}.

Record AnchorItem : Type := Build_AnchorItem {
  key : String.string;
  element : item;
}.

(** The body of [for ( const { item } of range )]. *)
Definition visitItem (ret : list AnchorItem) (it : item) : list AnchorItem :=
  match anchorName it with
  | Some v => ret ++ [Build_AnchorItem (String v) it]    (* ret.push( ... ) *)
  | None => ret
  end.

(** The body of [for ( const rootName of model.document.getRootNames() )],
    for the root whose range yields [range]. *)
Definition visitRoot (ret : list AnchorItem) (range : list item) : list AnchorItem :=
  fold_left visitItem range ret.

(** [getAnchors] over the roots of the document. *)
Definition getAnchors (roots : list (list item)) : list AnchorItem :=
  fold_left visitRoot roots [].

(** The item carries an anchor. *)
Definition hasAnchor (it : item) : bool :=
  match anchorName it with Some _ => true | None => false end.

(** An entry of the result stands for an item with an anchor and has the
    string of its name as key. *)
Definition keyed (a : AnchorItem) : Prop :=
  exists v, anchorName (element a) = Some v /\ key a = String v.

End GetAnchors.
End Anchors.

(** * Facts about numbers and sums *)

Lemma Qeq_bool_true (x y : Q) : Qeq_bool x y = true <-> x == y.
Proof. apply Qeq_bool_iff. Qed.

Lemma Qle_bool_true (x y : Q) : Qle_bool x y = true <-> x <= y.
Proof. apply Qle_bool_iff. Qed.

Lemma Qle_bool_false (x y : Q) : Qle_bool x y = false <-> y < x.
Proof.
  split; intros Hxy.
  - apply Qnot_le_lt. intros Hle. apply Qle_bool_iff in Hle. congruence.
  - destruct (Qle_bool x y) eqn:E; [|reflexivity].
    apply Qle_bool_iff in E. exfalso. apply (Qlt_not_le _ _ Hxy E).
Qed.

Lemma fold_Qplus_acc (l : list Q) (a : Q) : fold_left Qplus l a == a + Qsum l.
Proof.
  unfold Qsum. revert a. induction l as [|x l IH]; intros a; simpl.
  - ring.
  - rewrite (IH (a + x)), (IH (0 + x)). ring.
Qed.

Lemma Qsum_nil : Qsum [] == 0.
Proof. reflexivity. Qed.

Lemma Qsum_cons (x : Q) (l : list Q) : Qsum (x :: l) == x + Qsum l.
Proof. unfold Qsum at 1. simpl. rewrite fold_Qplus_acc. ring. Qed.

Lemma Qsum_app (a b : list Q) : Qsum (a ++ b) == Qsum a + Qsum b.
Proof.
  induction a as [|x a IH]; simpl.
  - rewrite Qsum_nil. ring.
  - rewrite !Qsum_cons, IH. ring.
Qed.

Lemma Qsum_take_drop (n : nat) (l : list Q) :
  Qsum (take n l) + Qsum (drop n l) == Qsum l.
Proof. rewrite <- Qsum_app, take_drop. reflexivity. Qed.

Lemma Qsum_insert (e : nat) (x s : Q) (l : list Q) :
  l !! e = Some x -> Qsum (<[e := x + s]> l) == Qsum l + s.
Proof.
  revert e. induction l as [|y l IH]; intros [|e] He; simpl in *; try discriminate.
  - injection He as ->. rewrite !Qsum_cons. ring.
  - rewrite !Qsum_cons, (IH _ He). ring.
Qed.

Lemma sumArray_numbers_from (l : list Q) (a : Q) :
  fold_left (fun acc s => match s with Some n => jadd acc n | None => acc end)
            (numbers l) (Num a)
  = Num (fold_left Qplus l a).
Proof. revert a. induction l as [|x l IH]; intros a; simpl; [reflexivity|apply IH]. Qed.

Lemma sumArray_numbers (l : list Q) : sumArray (numbers l) = Num (Qsum l).
Proof. apply sumArray_numbers_from. Qed.

Lemma numbers_length (l : list Q) : length (numbers l) = length l.
Proof. apply length_map. Qed.

Lemma numbers_app (a b : list Q) : numbers (a ++ b) = numbers a ++ numbers b.
Proof. apply map_app. Qed.

Lemma numbers_take (n : nat) (l : list Q) : numbers (take n l) = take n (numbers l).
Proof. apply (fmap_take (fun q => Some (Num q))). Qed.

Lemma numbers_drop (n : nat) (l : list Q) : numbers (drop n l) = drop n (numbers l).
Proof. apply (fmap_drop (fun q => Some (Num q))). Qed.

Lemma numbers_replicate (n : nat) (x : Q) :
  numbers (replicate n x) = createFilledArray n (Num x).
Proof. apply (fmap_replicate (fun q => Some (Num q))). Qed.

Lemma numbers_lookup (l : list Q) (i : nat) (x : Q) :
  l !! i = Some x -> elem (numbers l) i = Num x.
Proof.
  intros Hi. unfold elem, numbers.
  change (map ?f ?l) with (f <$> l). rewrite list_lookup_fmap, Hi. reflexivity.
Qed.

Lemma numbers_insert (l : list Q) (i : nat) (x : Q) :
  <[i := Some (Num x)]> (numbers l) = numbers (<[i := x]> l).
Proof. symmetry. apply (list_fmap_insert (fun q => Some (Num q))). Qed.

(** [arr[ e ] += s] inside a finite array. *)
Lemma addAssign_numbers (e : nat) (x s : Q) (rest : list Q) :
  rest !! e = Some x ->
  addAssign e (Num s) (numbers rest) = numbers (<[e := x + s]> rest).
Proof.
  intros He. unfold addAssign.
  rewrite (numbers_lookup _ _ _ He), numbers_length.
  apply lookup_lt_Some in He.
  destruct (Nat.ltb_spec e (length rest)); [|lia].
  simpl. apply numbers_insert.
Qed.

(** * The walk over the cells of a table *)

Section Walk.
Import PostFixer.
Local Open Scope nat_scope.

Lemma quiet_agree (m m' : gmap cell nat) (s : cell * nat) :
  m !! s.1 = m' !! s.1 -> quiet m s -> quiet m' s.
Proof. unfold quiet. intros <-. trivial. Qed.

Lemma notMovedRight_agree (m m' : gmap cell nat) (s : cell * nat) :
  m !! s.1 = m' !! s.1 -> notMovedRight m s -> notMovedRight m' s.
Proof. unfold notMovedRight. intros <-. trivial. Qed.

Lemma notMovedLeft_agree (m m' : gmap cell nat) (s : cell * nat) :
  m !! s.1 = m' !! s.1 -> notMovedLeft m s -> notMovedLeft m' s.
Proof. unfold notMovedLeft. intros <-. trivial. Qed.

Lemma quiet_notMovedRight (m : gmap cell nat) (s : cell * nat) :
  quiet m s -> notMovedRight m s.
Proof. intros [Hq|Hq] p Hp; rewrite Hq in Hp; [discriminate|]. injection Hp as <-. lia. Qed.

Lemma quiet_notMovedLeft (m : gmap cell nat) (s : cell * nat) :
  quiet m s -> notMovedLeft m s.
Proof. intros [Hq|Hq] p Hp; rewrite Hq in Hp; [discriminate|]. injection Hp as <-. lia. Qed.

(** A visit writes the map at the visited cell only. *)
Lemma visitCell_lookup_other (t : table) (st : loop) (c c' : cell) (column : nat) :
  c' <> c ->
  columnIndexMap (visitCell t st (c, column)) !! c' = columnIndexMap st !! c'.
Proof.
  intros Hne. unfold visitCell.
  destruct (columnIndexMap st !! c) as [p|] eqn:Hc; simpl.
  - destruct (p <? column) eqn:Hins, (column <? p) eqn:Hdel; simpl;
      rewrite ?lookup_insert_ne by congruence; reflexivity.
  - rewrite lookup_insert_ne by congruence. reflexivity.
Qed.

(** After its visit the map has the cell at its column. *)
Lemma visitCell_lookup_same (t : table) (st : loop) (c : cell) (column : nat) :
  columnIndexMap (visitCell t st (c, column)) !! c = Some column.
Proof.
  unfold visitCell.
  destruct (columnIndexMap st !! c) as [p|] eqn:Hc; simpl.
  - destruct (p <? column) eqn:Hins, (column <? p) eqn:Hdel; simpl;
      rewrite ?lookup_insert_eq; try reflexivity.
    apply Nat.ltb_ge in Hins, Hdel. rewrite Hc. f_equal. lia.
  - apply lookup_insert_eq.
Qed.

Lemma walk_lookup_other (t : table) (l : list (cell * nat)) (st : loop) (c : cell) :
  c ∉ l.*1 ->
  columnIndexMap (fold_left (visitCell t) l st) !! c = columnIndexMap st !! c.
Proof.
  revert st. induction l as [|[c' column] l IH]; intros st Hc; cbn [fold_left]; [reflexivity|].
  rewrite fmap_cons in Hc. apply not_elem_of_cons in Hc as [Hne Hc].
  rewrite IH by assumption. apply visitCell_lookup_other. exact Hne.
Qed.

Lemma walk_lookup_same (t : table) (l : list (cell * nat)) (st : loop)
    (c : cell) (column : nat) :
  NoDup l.*1 -> (c, column) ∈ l ->
  columnIndexMap (fold_left (visitCell t) l st) !! c = Some column.
Proof.
  revert st. induction l as [|[c' column'] l IH]; intros st Hnd Hin; cbn [fold_left].
  - apply elem_of_nil in Hin. contradiction.
  - rewrite fmap_cons in Hnd. apply NoDup_cons in Hnd as [Hfresh Hnd].
    apply elem_of_cons in Hin as [Heq|Hin].
    + injection Heq as -> ->.
      rewrite walk_lookup_other by exact Hfresh. apply visitCell_lookup_same.
    + apply IH; assumption.
Qed.

(** An invariant of the loop state that every visit of a slot of shape [P]
    keeps is kept by the walk, when the walker yields each cell once. *)
Lemma walk_invariant (P : gmap cell nat -> cell * nat -> Prop) (I : loop -> Prop)
    (t : table) :
  (forall m m' s, m !! s.1 = m' !! s.1 -> P m s -> P m' s) ->
  (forall st s, I st -> P (columnIndexMap st) s -> I (visitCell t st s)) ->
  forall l st,
    NoDup l.*1 -> Forall (P (columnIndexMap st)) l -> I st ->
    I (fold_left (visitCell t) l st).
Proof.
  intros Hagree Hstep l. induction l as [|[c column] l IH]; intros st Hnd Hall HI; cbn [fold_left].
  - exact HI.
  - rewrite fmap_cons in Hnd. apply NoDup_cons in Hnd as [Hfresh Hnd].
    apply Forall_cons in Hall as [Hhead Hall].
    apply IH; [exact Hnd| |apply Hstep; assumption].
    apply Forall_forall. intros s Hs.
    rewrite Forall_forall in Hall.
    apply (Hagree (columnIndexMap st)); [|apply Hall; exact Hs].
    symmetry. apply visitCell_lookup_other.
    intros Heq. apply Hfresh. rewrite <- Heq.
    apply list_elem_of_fmap. exists s. split; [reflexivity|exact Hs].
Qed.

Lemma visit_quiet (t : table) (ws : array) (ih dh : bool) (st : loop) (s : cell * nat) :
  sameWidths ws ih dh st -> quiet (columnIndexMap st) s ->
  sameWidths ws ih dh (visitCell t st s).
Proof.
  destruct s as [c column]. intros (Hw & Hi & Hd) [Hq|Hq]; simpl in Hq;
    unfold visitCell; rewrite Hq; simpl.
  - repeat split; assumption.
  - rewrite !Nat.ltb_irrefl. repeat split; assumption.
Qed.

Lemma visit_after_insertion (t : table) (ws : array) (dh : bool) (st : loop)
    (s : cell * nat) :
  sameWidths ws true dh st -> notMovedLeft (columnIndexMap st) s ->
  sameWidths ws true dh (visitCell t st s).
Proof.
  destruct s as [c column]. intros (Hw & Hi & Hd) Hs.
  unfold visitCell. destruct (columnIndexMap st !! c) as [p|] eqn:Hc; simpl.
  - specialize (Hs p Hc). simpl in Hs.
    destruct (Nat.ltb_spec column p) as [Hlt|_]; [lia|].
    destruct (p <? column); simpl; [|repeat split; assumption].
    unfold handleInsertion. rewrite Hi. simpl. repeat split; assumption.
  - repeat split; assumption.
Qed.

Lemma visit_after_deletion (t : table) (ws : array) (ih : bool) (st : loop)
    (s : cell * nat) :
  sameWidths ws ih true st -> notMovedRight (columnIndexMap st) s ->
  sameWidths ws ih true (visitCell t st s).
Proof.
  destruct s as [c column]. intros (Hw & Hi & Hd) Hs.
  unfold visitCell. destruct (columnIndexMap st !! c) as [p|] eqn:Hc; simpl.
  - specialize (Hs p Hc). simpl in Hs.
    destruct (Nat.ltb_spec p column) as [Hlt|_]; [lia|].
    destruct (column <? p); simpl; [|repeat split; assumption].
    unfold handleDeletion. rewrite Hd. simpl. repeat split; assumption.
  - repeat split; assumption.
Qed.

Lemma walk_quiet (t : table) (l : list (cell * nat)) (st : loop) :
  NoDup l.*1 -> Forall (quiet (columnIndexMap st)) l ->
  sameWidths (widths st) (isColumnInsertionHandled st) (isColumnDeletionHandled st)
             (fold_left (visitCell t) l st).
Proof.
  intros Hnd Hall.
  apply (walk_invariant quiet); try assumption.
  - apply quiet_agree.
  - intros st' s. apply visit_quiet.
  - repeat split.
Qed.

Lemma walk_after_insertion (t : table) (l : list (cell * nat)) (st : loop) :
  NoDup l.*1 -> Forall (notMovedLeft (columnIndexMap st)) l ->
  isColumnInsertionHandled st = true ->
  sameWidths (widths st) true (isColumnDeletionHandled st)
             (fold_left (visitCell t) l st).
Proof.
  intros Hnd Hall Hi.
  apply (walk_invariant notMovedLeft); try assumption.
  - apply notMovedLeft_agree.
  - intros st' s. apply visit_after_insertion.
  - repeat split. exact Hi.
Qed.

Lemma walk_after_deletion (t : table) (l : list (cell * nat)) (st : loop) :
  NoDup l.*1 -> Forall (notMovedRight (columnIndexMap st)) l ->
  isColumnDeletionHandled st = true ->
  sameWidths (widths st) (isColumnInsertionHandled st) true
             (fold_left (visitCell t) l st).
Proof.
  intros Hnd Hall Hd.
  apply (walk_invariant notMovedRight); try assumption.
  - apply notMovedRight_agree.
  - intros st' s. apply visit_after_deletion.
  - repeat split. exact Hd.
Qed.

(** A walk over cells that the map already has at their column changes
    nothing at all. *)
Lemma walk_settled (t : table) (l : list (cell * nat)) (st : loop) :
  Forall (fun s => columnIndexMap st !! s.1 = Some s.2) l ->
  fold_left (visitCell t) l st = st.
Proof.
  induction l as [|[c column] l IH]; intros Hall; cbn [fold_left]; [reflexivity|].
  apply Forall_cons in Hall as [Hhead Hall]. simpl in Hhead.
  assert (Hv : visitCell t st (c, column) = st).
  { unfold visitCell. rewrite Hhead. rewrite !Nat.ltb_irrefl. reflexivity. }
  rewrite Hv. apply IH. exact Hall.
Qed.

(** The widths, the map and the two flags do not depend on the value
    [changed] had when the walk began. *)
Lemma visitCell_changed (t : table) (ws : array) (m : gmap cell nat)
    (ih dh ch ch' : bool) (s : cell * nat) :
  let st := visitCell t (Loop ws m ih dh ch) s in
  let st' := visitCell t (Loop ws m ih dh ch') s in
  widths st' = widths st /\ columnIndexMap st' = columnIndexMap st
  /\ isColumnInsertionHandled st' = isColumnInsertionHandled st
  /\ isColumnDeletionHandled st' = isColumnDeletionHandled st.
Proof.
  destruct s as [c column]. unfold visitCell. simpl.
  destruct (m !! c) as [p|]; simpl; [|repeat split].
  destruct (p <? column), (column <? p); simpl;
    unfold handleDeletion, handleInsertion; simpl; repeat split.
Qed.

Lemma walk_changed (t : table) (l : list (cell * nat)) (ws : array)
    (m : gmap cell nat) (ih dh ch ch' : bool) :
  let st := fold_left (visitCell t) l (Loop ws m ih dh ch) in
  let st' := fold_left (visitCell t) l (Loop ws m ih dh ch') in
  widths st' = widths st /\ columnIndexMap st' = columnIndexMap st
  /\ isColumnInsertionHandled st' = isColumnInsertionHandled st
  /\ isColumnDeletionHandled st' = isColumnDeletionHandled st.
Proof.
  revert ws m ih dh ch ch'. induction l as [|s l IH]; intros ws m ih dh ch ch'; cbn [fold_left].
  - repeat split.
  - destruct (visitCell_changed t ws m ih dh ch ch' s) as (Hw & Hm & Hi & Hd).
    destruct (visitCell t (Loop ws m ih dh ch) s) as [ws1 m1 ih1 dh1 ch1].
    destruct (visitCell t (Loop ws m ih dh ch') s) as [ws2 m2 ih2 dh2 ch2].
    simpl in *. subst. apply IH.
Qed.

End Walk.

(** * The post-fixer on one table *)

Section FixTable.
Import PostFixer.
Local Open Scope nat_scope.
Context `{Utils}.

Lemma same_number_refl (n : number) : same_number n n = true.
Proof. destruct n; simpl; [apply Qeq_bool_iff; reflexivity|reflexivity]. Qed.

Lemma same_token_refl (tk : token) : same_token tk tk = true.
Proof. destruct tk; simpl; [apply same_number_refl|reflexivity]. Qed.

Lemma same_tokens_refl (a : list token) : same_tokens a a = true.
Proof. induction a as [|x a IH]; simpl; [reflexivity|]. rewrite same_token_refl. exact IH. Qed.

Lemma same_text_refl (a : list token) : same_text a a = true.
Proof. apply same_tokens_refl. Qed.

(** The state the walk of the pass ends in, split at the first cell that
    moved. *)
Lemma walk_first_move (t : table) (pre post : list (cell * nat)) (c : cell)
    (column : nat) (st : loop) :
  NoDup (pre ++ (c, column) :: post).*1 ->
  Forall (quiet (columnIndexMap st)) pre ->
  let st1 := fold_left (visitCell t) pre st in
  sameWidths (widths st) (isColumnInsertionHandled st) (isColumnDeletionHandled st) st1
  /\ columnIndexMap st1 !! c = columnIndexMap st !! c
  /\ NoDup post.*1
  /\ (forall s, s ∈ post ->
        columnIndexMap (visitCell t st1 (c, column)) !! s.1 = columnIndexMap st !! s.1).
Proof.
  intros Hnd Hpre st1.
  rewrite fmap_app, fmap_cons in Hnd.
  apply NoDup_app in Hnd as (Hnd1 & Hdisj & Hnd2).
  apply NoDup_cons in Hnd2 as [Hfresh Hnd2]. simpl in Hfresh.
  split; [apply walk_quiet; assumption|].
  split.
  { apply walk_lookup_other. intros Hin. apply (Hdisj _ Hin). left. }
  split; [exact Hnd2|].
  intros s Hs.
  assert (Hs1 : s.1 ∈ post.*1).
  { apply list_elem_of_fmap. exists s. split; [reflexivity|exact Hs]. }
  rewrite visitCell_lookup_other.
  - apply walk_lookup_other. intros Hin. apply (Hdisj _ Hin). right. exact Hs1.
  - intros Heq. apply Hfresh. rewrite <- Heq. exact Hs1.
Qed.

Lemma walk_insertion_inside (t : table) (pre post : list (cell * nat)) (c : cell)
    (column p : nat) (ws : array) (m : gmap cell nat) (ch : bool) :
  NoDup (pre ++ (c, column) :: post).*1 ->
  Forall (quiet m) pre ->
  m !! c = Some p ->
  p < column ->
  Forall (notMovedLeft m) post ->
  sameWidths
    (spliceInsert p (createFilledArray (column - p) (getColumnMinWidthAsPercentage t)) ws)
    true false
    (fold_left (visitCell t) (pre ++ (c, column) :: post) (Loop ws m false false ch)).
Proof.
  intros Hnd Hpre Hc Hlt Hpost.
  destruct (walk_first_move t pre post c column (Loop ws m false false ch) Hnd Hpre)
    as ((Hw & Hi & Hd) & Hlook & Hnd2 & Hagree).
  simpl in Hw, Hi, Hd, Hlook, Hagree.
  rewrite fold_left_app. cbn [fold_left].
  set (st1 := fold_left (visitCell t) pre (Loop ws m false false ch)) in *.
  set (st2 := visitCell t st1 (c, column)) in *.
  assert (H2 : sameWidths
                 (spliceInsert p (createFilledArray (column - p)
                                    (getColumnMinWidthAsPercentage t)) ws)
                 true false st2).
  { unfold st2, visitCell. rewrite Hlook, Hc.
    destruct (Nat.ltb_spec p column) as [_|]; [|lia].
    destruct (Nat.ltb_spec column p) as [|_]; [lia|].
    unfold handleInsertion. rewrite Hi, Hw, Hd. simpl. repeat split. }
  destruct H2 as (Hw2 & Hi2 & Hd2).
  assert (Hpost2 : Forall (notMovedLeft (columnIndexMap st2)) post).
  { apply Forall_forall. intros s Hs. rewrite Forall_forall in Hpost.
    apply (notMovedLeft_agree m); [|apply Hpost; exact Hs].
    symmetry. apply Hagree. exact Hs. }
  destruct (walk_after_insertion t post st2 Hnd2 Hpost2 Hi2) as (Hw3 & Hi3 & Hd3).
  repeat split; congruence.
Qed.

Lemma walk_deletion_inside (t : table) (pre post : list (cell * nat)) (c : cell)
    (column p : nat) (ws : array) (m : gmap cell nat) (ch : bool) :
  NoDup (pre ++ (c, column) :: post).*1 ->
  Forall (quiet m) pre ->
  m !! c = Some p ->
  column < p ->
  Forall (notMovedRight m) post ->
  sameWidths
    (let columnToExpand := if 0 <? column then column - 1 else column in
     let '(removed, rest) := spliceRemove column (p - column) ws in
     addAssign columnToExpand (sumArray removed) rest)
    false true
    (fold_left (visitCell t) (pre ++ (c, column) :: post) (Loop ws m false false ch)).
Proof.
  intros Hnd Hpre Hc Hlt Hpost.
  destruct (walk_first_move t pre post c column (Loop ws m false false ch) Hnd Hpre)
    as ((Hw & Hi & Hd) & Hlook & Hnd2 & Hagree).
  simpl in Hw, Hi, Hd, Hlook, Hagree.
  rewrite fold_left_app. cbn [fold_left].
  set (st1 := fold_left (visitCell t) pre (Loop ws m false false ch)) in *.
  set (st2 := visitCell t st1 (c, column)) in *.
  assert (H2 : sameWidths
                 (let columnToExpand := if 0 <? column then column - 1 else column in
                  let '(removed, rest) := spliceRemove column (p - column) ws in
                  addAssign columnToExpand (sumArray removed) rest)
                 false true st2).
  { unfold st2, visitCell. rewrite Hlook, Hc.
    destruct (Nat.ltb_spec p column) as [|_]; [lia|].
    destruct (Nat.ltb_spec column p) as [_|]; [|lia].
    unfold handleDeletion. rewrite Hi, Hw, Hd. simpl. repeat split. }
  destruct H2 as (Hw2 & Hi2 & Hd2).
  assert (Hpost2 : Forall (notMovedRight (columnIndexMap st2)) post).
  { apply Forall_forall. intros s Hs. rewrite Forall_forall in Hpost.
    apply (notMovedRight_agree m); [|apply Hpost; exact Hs].
    symmetry. apply Hagree. exact Hs. }
  destruct (walk_after_deletion t post st2 Hnd2 Hpost2 Hd2) as (Hw3 & Hi3 & Hd3).
  unfold sameWidths.
  split; [rewrite Hw3; exact Hw2|].
  split; [rewrite Hi3; exact Hi2|exact Hd3].
Qed.

(** ** The table end *)

Lemma fixTableEnd_same (t : table) (ws : array) :
  length ws = getColumns t -> fixTableEnd t ws = ws.
Proof.
  intros Hlen. unfold fixTableEnd. rewrite Hlen, Nat.ltb_irrefl. reflexivity.
Qed.

Lemma fixTableEnd_insert (t : table) (ws : array) :
  length ws < getColumns t ->
  fixTableEnd t ws
  = ws ++ createFilledArray (getColumns t - length ws) (getColumnMinWidthAsPercentage t).
Proof.
  intros Hlen. unfold fixTableEnd.
  destruct (Nat.ltb_spec (length ws) (getColumns t)) as [_|]; [|lia].
  destruct (Nat.ltb_spec (getColumns t) (length ws)) as [|_]; [lia|].
  unfold spliceInsert. rewrite firstn_all, drop_all, app_nil_r. reflexivity.
Qed.

Lemma fixTableEnd_delete (t : table) (rs : list Q) (x : Q) :
  getColumns t < length rs ->
  take (getColumns t) rs !! (getColumns t - 1) = Some x ->
  fixTableEnd t (numbers rs)
  = numbers (<[getColumns t - 1 := (x + Qsum (drop (getColumns t) rs))%Q]>
               (take (getColumns t) rs)).
Proof.
  intros Hlen Hx. unfold fixTableEnd. rewrite numbers_length.
  destruct (Nat.ltb_spec (length rs) (getColumns t)) as [|_]; [lia|].
  destruct (Nat.ltb_spec (getColumns t) (length rs)) as [_|]; [|lia].
  destruct (getColumns t) as [|k] eqn:Hn.
  - rewrite take_0 in Hx. discriminate.
  - replace (S k - 1) with k in * by lia.
    rewrite <- numbers_drop, <- numbers_take, sumArray_numbers.
    apply addAssign_numbers. exact Hx.
Qed.

Lemma addAssign_length_in_range (i : nat) (v : number) (arr : array) :
  i < length arr -> length (addAssign i v arr) = length arr.
Proof.
  intros Hi. unfold addAssign.
  destruct (Nat.ltb_spec i (length arr)); [|lia]. apply length_insert.
Qed.

(** Whatever the walk left, the array has as many entries as the table
    has columns once the table end is fixed. *)
Lemma fixTableEnd_length (t : table) (ws : array) :
  length (fixTableEnd t ws) = getColumns t.
Proof.
  unfold fixTableEnd.
  destruct (Nat.ltb_spec (length ws) (getColumns t)) as [Hins|Hins].
  - destruct (Nat.ltb_spec (getColumns t) (length ws)) as [|_]; [lia|].
    unfold spliceInsert, createFilledArray.
    rewrite !length_app, length_take, length_drop, length_replicate. lia.
  - destruct (Nat.ltb_spec (getColumns t) (length ws)) as [Hdel|Hdel]; [|lia].
    destruct (getColumns t) as [|k] eqn:Hn.
    + reflexivity.
    + rewrite addAssign_length_in_range; rewrite length_take; lia.
Qed.

(** ** From the computed widths to the attribute *)

Lemma fixedWidths_walk (m : gmap cell nat) (t : table) (a : list token) (ch : bool) :
  fixedWidths m t a
  = fixTableEnd t (widths (walkCells t (Loop (normalizeColumnWidths (split a)) m
                                             false false ch))).
Proof.
  unfold fixedWidths, walkCells.
  destruct (walk_changed t (walker t) (normalizeColumnWidths (split a)) m
                         false false ch false) as (Hw & _).
  simpl in Hw. rewrite Hw. reflexivity.
Qed.

Lemma fixTable_attribute (m : gmap cell nat) (ch : bool) (t : table)
    (a : list token) (o : outcome) :
  columnWidths t = Some a ->
  fixTable m ch t = Some o ->
  exists a', columnWidths (table_after o) = Some a'
             /\ same_text a' (widthsToAttribute (fixedWidths m t a)) = true.
Proof.
  intros Ha Ho. unfold fixTable in Ho. rewrite Ha in Ho.
  rewrite <- (fixedWidths_walk m t a ch) in Ho.
  destruct (same_text a (widthsToAttribute (fixedWidths m t a))) eqn:Hsame;
    injection Ho as <-; simpl.
  - exists a. split; assumption.
  - eexists. split; [reflexivity|apply same_text_refl].
Qed.

End FixTable.

(** * The sum of the widths after a pass *)

Section SumAfterPass.
Import PostFixer.
Local Open Scope nat_scope.
Context `{Utils}.

Lemma insertion_flag_step (t : table) (st : loop) (s : cell * nat) :
  isColumnInsertionHandled st = true ->
  isColumnInsertionHandled (visitCell t st s) = true.
Proof.
  destruct s as [c column]. intros Hi. unfold visitCell.
  destruct (columnIndexMap st !! c) as [p|]; simpl; [|exact Hi].
  destruct (p <? column), (column <? p); simpl; try exact Hi; reflexivity.
Qed.

Lemma insertion_flag_walk (t : table) (l : list (cell * nat)) (st : loop) :
  isColumnInsertionHandled st = true ->
  isColumnInsertionHandled (fold_left (visitCell t) l st) = true.
Proof.
  revert st. induction l as [|s l IH]; intros st Hi; cbn [fold_left]; [exact Hi|].
  apply IH. apply insertion_flag_step. exact Hi.
Qed.

(** A walk that ends with [isColumnInsertionHandled] unset met no cell
    right of where the map had it. *)
Lemma walk_no_insertion (t : table) (l : list (cell * nat)) (st : loop) :
  NoDup l.*1 ->
  isColumnInsertionHandled (fold_left (visitCell t) l st) = false ->
  Forall (notMovedRight (columnIndexMap st)) l.
Proof.
  revert st. induction l as [|[c column] l IH]; intros st Hnd Hflag; [constructor|].
  cbn [fold_left] in Hflag.
  rewrite fmap_cons in Hnd. apply NoDup_cons in Hnd as [Hfresh Hnd].
  constructor.
  - intros p Hp. simpl in Hp |- *.
    destruct (Nat.ltb_spec p column) as [Hlt|Hge]; [|exact Hge].
    exfalso.
    assert (Hset : isColumnInsertionHandled (visitCell t st (c, column)) = true).
    { unfold visitCell. rewrite Hp.
      destruct (Nat.ltb_spec p column) as [_|]; [|lia].
      destruct (Nat.ltb_spec column p) as [|_]; [lia|]. reflexivity. }
    rewrite (insertion_flag_walk t l _ Hset) in Hflag. discriminate.
  - specialize (IH _ Hnd Hflag).
    apply Forall_forall. intros s Hs. rewrite Forall_forall in IH.
    apply (notMovedRight_agree (columnIndexMap (visitCell t st (c, column))));
      [|apply IH; exact Hs].
    apply visitCell_lookup_other.
    intros Heq. apply Hfresh. simpl. rewrite <- Heq.
    apply list_elem_of_fmap. exists s. split; [reflexivity|exact Hs].
Qed.

(** A walk in which no cell moved right is all quiet, or has a first cell
    that moved left. *)
Lemma first_deletion (m : gmap cell nat) (l : list (cell * nat)) :
  Forall (notMovedRight m) l ->
  Forall (quiet m) l
  \/ exists pre c column post p,
       l = pre ++ (c, column) :: post /\ Forall (quiet m) pre
       /\ m !! c = Some p /\ column < p /\ Forall (notMovedRight m) post.
Proof.
  induction l as [|[c column] l IH]; intros Hall; [left; constructor|].
  apply Forall_cons in Hall as [Hhead Hall].
  assert (Hcase : quiet m (c, column) \/ exists p, m !! c = Some p /\ column < p).
  { unfold quiet. simpl. destruct (m !! c) as [p|] eqn:Hc; [|left; left; reflexivity].
    specialize (Hhead p Hc). simpl in Hhead.
    destruct (Nat.eq_dec p column) as [->|Hne]; [left; right; reflexivity|].
    right. exists p. split; [reflexivity|lia]. }
  destruct Hcase as [Hq|(p & Hc & Hlt)].
  - destruct (IH Hall) as [Hquiet|(pre & c' & column' & post & p & -> & Hpre & Hc & Hlt & Hpost)].
    + left. constructor; assumption.
    + right. exists ((c, column) :: pre), c', column', post, p.
      repeat split; try assumption. constructor; assumption.
  - right. exists [], c, column, l, p. repeat split; try assumption. constructor.
Qed.

(** The donor of a deletion of [d] columns at [p] exists. *)
Lemma donor_exists (qs : list Q) (p d : nat) :
  0 < d -> p + d <= length qs -> (p = 0 -> d < length qs) ->
  exists x, qs !! (if 0 <? p then p - 1 else d) = Some x
            /\ (take p qs ++ drop (p + d) qs) !! (if 0 <? p then p - 1 else p) = Some x.
Proof.
  intros Hd Hpd Hp0.
  destruct (Nat.ltb_spec 0 p) as [Hpos|Hzero].
  - destruct (lookup_lt_is_Some_2 qs (p - 1)) as [x Hx]; [lia|].
    exists x. split; [exact Hx|].
    rewrite lookup_app_l by (rewrite length_take; lia).
    rewrite lookup_take_lt by lia. exact Hx.
  - assert (p = 0) as -> by lia.
    destruct (lookup_lt_is_Some_2 qs d) as [x Hx]; [lia|].
    exists x. split; [exact Hx|].
    rewrite take_0. simpl. rewrite lookup_drop.
    replace (d + 0) with d by lia. exact Hx.
Qed.

(** No width is lost when the removed ones are added to the donor. *)
Lemma donate_sum (qs : list Q) (p d e : nat) (x : Q) :
  (take p qs ++ drop (p + d) qs) !! e = Some x ->
  (Qsum (<[e := (x + Qsum (take d (drop p qs)))%Q]> (take p qs ++ drop (p + d) qs))
   == Qsum qs)%Q.
Proof.
  intros Hx. rewrite (Qsum_insert _ _ _ _ Hx), Qsum_app.
  pose proof (Qsum_take_drop p qs) as E1.
  pose proof (Qsum_take_drop d (drop p qs)) as E2.
  rewrite drop_drop in E2. lra.
Qed.

(** Fixing the table end when the table has no more columns than the
    sequence keeps the sum. *)
Lemma fixTableEnd_no_insertion (t : table) (rs : list Q) :
  1 <= getColumns t -> getColumns t <= length rs ->
  exists rs', fixTableEnd t (numbers rs) = numbers rs' /\ (Qsum rs' == Qsum rs)%Q.
Proof.
  intros Hpos Hle.
  destruct (Nat.eq_dec (getColumns t) (length rs)) as [Heq|Hne].
  - exists rs. split; [|reflexivity].
    apply fixTableEnd_same. rewrite numbers_length. symmetry. exact Heq.
  - destruct (lookup_lt_is_Some_2 (take (getColumns t) rs) (getColumns t - 1))
      as [x Hx]; [rewrite length_take; lia|].
    eexists. split; [apply (fixTableEnd_delete t rs x); [lia|exact Hx]|].
    rewrite (Qsum_insert _ _ _ _ Hx).
    pose proof (Qsum_take_drop (getColumns t) rs). lra.
Qed.

(** The widths after a walk that met no insertion. *)
Lemma walk_without_insertion (t : table) (m : gmap cell nat) (qs : list Q) :
  NoDup (walker t).*1 ->
  (forall c column p, (c, column) ∈ walker t -> m !! c = Some p -> p < length qs) ->
  Forall (notMovedRight m) (walker t) ->
  exists rs, widths (walkCells t (Loop (numbers qs) m false false false)) = numbers rs
             /\ (Qsum rs == Qsum qs)%Q.
Proof.
  intros Hnd Hstored Hall. unfold walkCells.
  destruct (first_deletion m (walker t) Hall)
    as [Hquiet|(pre & c & column & post & p & Hwalk & Hpre & Hc & Hlt & Hpost)].
  - destruct (walk_quiet t (walker t) (Loop (numbers qs) m false false false) Hnd Hquiet)
      as (Hw & _ & _).
    exists qs. split; [exact Hw|reflexivity].
  - assert (HpK : p < length qs).
    { apply (Hstored c column p); [|exact Hc].
      rewrite Hwalk. apply elem_of_app. right. left. }
    rewrite Hwalk in Hnd |- *.
    destruct (walk_deletion_inside t pre post c column p (numbers qs) m false
                Hnd Hpre Hc Hlt Hpost) as (Hw & _ & _).
    destruct (donor_exists qs column (p - column)) as (x & _ & Hx); [lia|lia|lia|].
    exists (<[(if 0 <? column then column - 1 else column)
              := (x + Qsum (take (p - column) (drop column qs)))%Q]>
              (take column qs ++ drop (column + (p - column)) qs)).
    split; [|apply donate_sum; exact Hx].
    rewrite Hw. unfold spliceRemove.
    rewrite <- numbers_drop, <- !numbers_take, <- numbers_drop, <- numbers_app.
    rewrite sumArray_numbers.
    apply addAssign_numbers. exact Hx.
Qed.

Lemma Qsum_pointwise (xs ys : list Q) :
  Forall2 Qeq xs ys -> (Qsum xs == Qsum ys)%Q.
Proof.
  induction 1 as [|x y xs ys Hxy Hall IH]; [reflexivity|].
  rewrite !Qsum_cons, Hxy, IH. reflexivity.
Qed.

Lemma same_tokens_percentages (tokens : list token) (rs : list Q) :
  same_tokens tokens (percentages rs) = true ->
  exists rs', tokens = percentages rs' /\ Forall2 Qeq rs' rs.
Proof.
  revert tokens. induction rs as [|r rs IH]; intros [|tk tokens] Hsame;
    simpl in Hsame; try discriminate.
  - exists []. split; [reflexivity|constructor].
  - apply andb_prop in Hsame as [Hhead Htail].
    destruct tk as [[q|]|]; simpl in Hhead; try discriminate.
    apply Qeq_bool_iff in Hhead.
    destruct (IH tokens Htail) as (rs' & -> & Hall).
    exists (q :: rs'). split; [reflexivity|constructor; assumption].
Qed.

Lemma split_percentages (rs : list Q) : rs <> [] -> split (percentages rs) = percentages rs.
Proof. destruct rs; [contradiction|reflexivity]. Qed.

Lemma widthsToAttribute_numbers (rs : list Q) :
  widthsToAttribute (numbers rs) = percentages rs.
Proof. unfold widthsToAttribute, numbers, percentages. rewrite map_map. reflexivity. Qed.

Lemma parsedWidths_percentages (a : list token) (rs : list Q) :
  split a = percentages rs -> parsedWidths a = numbers rs.
Proof.
  intros Ha. unfold parsedWidths, numbers, percentages in *.
  rewrite Ha, map_map. reflexivity.
Qed.

End SumAfterPass.

(** * Column insertion and deletion *)

Section InsertionDeletion.
Import PostFixer.
Local Open Scope nat_scope.
Context `{Utils}.


(** C3.  For a table whose width sequence is the finite list [qs] of
    length K, when the pass meets a deletion of d columns at position p
    (the first tracked cell that moved went from column p + d to column p,
    or the table has d columns fewer than the sequence, at its end,
    p = K - d), the d widths at p are removed and their sum W is added to
    the column left of p, or, when p is 0, to the column that was right of
    the removed ones: the length is K - d and the sum of the widths is the
    same as before.  The pass over the table returns and stores these
    widths: the attribute of the table after the pass is their text, it
    parses to K - d numbers, the widths with the donation, whose sum is the
    sum before. *)
Theorem deletion_donates_freed_width (m : gmap cell nat) (t : table)
    (a : list token) (qs : list Q) (p d : nat) :
  columnWidths t = Some a ->
  NoDup (walker t).*1 ->
  normalizeColumnWidths (split a) = numbers qs ->
  deletionOf m t (length qs) p d ->
  let removed := take d (drop p qs) in
  let rest := take p qs ++ drop (p + d) qs in
  let columnToExpand := if 0 <? p then p - 1 else p in
  exists x,
    qs !! (if 0 <? p then p - 1 else d) = Some x
    /\ fixedWidths m t a = numbers (<[columnToExpand := (x + Qsum removed)%Q]> rest)
    /\ length (fixedWidths m t a) = length qs - d
    /\ (Qsum (<[columnToExpand := (x + Qsum removed)%Q]> rest) == Qsum qs)%Q
    /\ forall ch, exists o a' rs,
         fixTable m ch t = Some o
         /\ columnWidths (table_after o) = Some a'
         /\ same_text a' (widthsToAttribute (fixedWidths m t a)) = true
         /\ parsedWidths a' = numbers rs
         /\ Forall2 Qeq rs (<[columnToExpand := (x + Qsum removed)%Q]> rest)
         /\ length rs = length qs - d
         /\ (Qsum rs == Qsum qs)%Q.
Proof.
  intros Ha Hnd Hnorm Hdel removed rest columnToExpand.
  assert (Hbounds : 0 < d /\ p + d <= length qs /\ (p = 0 -> d < length qs)).
  { inversion Hdel; lia. }
  destruct Hbounds as (Hd & Hpd & Hp0).
  assert (Hlen : length rest = length qs - d).
  { unfold rest. rewrite length_app, length_take, length_drop. lia. }
  destruct (donor_exists qs p d Hd Hpd Hp0) as (x & Hqx & Hrx).
  fold rest columnToExpand in Hrx.
  exists x. split; [exact Hqx|].
  assert (Hresult : fixedWidths m t a
                    = numbers (<[columnToExpand := (x + Qsum removed)%Q]> rest)).
  { unfold fixedWidths, walkCells. rewrite Hnorm.
    inversion Hdel as [pre c column post p' Hwalk Hpre Hc Hlt HpK Hpost Hcols Hp HN
                      |d' Hquiet Hd' HdK Hcols Hp HN].
    - (* inside the table: the walk removes and donates, the end is in place *)
      subst column. rewrite Hwalk in Hnd |- *.
      destruct (walk_deletion_inside t pre post c p p' (numbers qs) m false
                  Hnd Hpre Hc Hlt Hpost) as (Hw & _ & _).
      rewrite Hw, HN. unfold spliceRemove.
      rewrite <- numbers_drop, <- !numbers_take, <- numbers_drop, <- numbers_app.
      rewrite sumArray_numbers.
      fold removed. fold rest. fold columnToExpand.
      rewrite (addAssign_numbers _ _ _ _ Hrx).
      apply fixTableEnd_same.
      rewrite numbers_length, length_insert, Hlen. lia.
    - (* at the table end: the walk is quiet, the end removes and donates *)
      subst d'.
      destruct (walk_quiet t (walker t) (Loop (numbers qs) m false false false)
                  Hnd Hquiet) as (Hw & _ & _).
      simpl in Hw. rewrite Hw.
      assert (Hcols' : getColumns t = p) by lia.
      assert (Hrest : rest = take p qs).
      { unfold rest. rewrite drop_ge by lia. apply app_nil_r. }
      assert (Hremoved : removed = drop p qs).
      { unfold removed. apply take_ge. rewrite length_drop. lia. }
      assert (Hcte : columnToExpand = p - 1).
      { unfold columnToExpand. destruct (Nat.ltb_spec 0 p); [reflexivity|lia]. }
      rewrite Hrest, Hremoved, Hcte in *.
      rewrite <- Hcols' in *.
      apply fixTableEnd_delete; [lia|exact Hrx]. }
  split; [exact Hresult|]. split.
  { rewrite Hresult, numbers_length, length_insert. exact Hlen. }
  split; [apply donate_sum; exact Hrx|].
  intros ch.
  assert (Ho : exists o, fixTable m ch t = Some o).
  { unfold fixTable. rewrite Ha. destruct (same_text a _); eexists; reflexivity. }
  destruct Ho as (o & Ho).
  destruct (fixTable_attribute m ch t a o Ha Ho) as (a' & Ha' & Hsame).
  assert (Hne : <[columnToExpand := (x + Qsum removed)%Q]> rest <> []).
  { intros Hnil. apply (f_equal length) in Hnil.
    rewrite length_insert, Hlen in Hnil. simpl in Hnil.
    inversion Hdel; lia. }
  pose proof Hsame as Hsame'.
  rewrite Hresult, widthsToAttribute_numbers in Hsame'.
  unfold same_text in Hsame'. rewrite (split_percentages _ Hne) in Hsame'.
  destruct (same_tokens_percentages _ _ Hsame') as (rs & Hsplit & Hpoint).
  exists o, a', rs. split; [exact Ho|]. split; [exact Ha'|].
  split; [exact Hsame|]. split; [apply parsedWidths_percentages; exact Hsplit|].
  split; [exact Hpoint|]. split.
  - rewrite (Forall2_length _ _ _ Hpoint), length_insert. exact Hlen.
  - rewrite (Qsum_pointwise _ _ Hpoint). apply donate_sum. exact Hrx.
Qed.

End InsertionDeletion.

(** * The claims about the post-fixer *)

Section PostFixerClaims.
Import PostFixer.
Local Open Scope nat_scope.
Context `{Utils}.

(** C1, as amended.  For a table with a [columnWidths] attribute whose
    normalised widths are finite and sum to 100, after a pass that met no
    column insertion (neither inside the table nor at its end), the tokens
    of the attribute parse to numbers whose sum is 100; this covers a pass
    that handled a column deletion.  The walker yields each cell once, the
    columns the map has for the cells are columns of the width sequence,
    and the table has at least one column. *)
Theorem pass_without_insertion_sums_to_100 (m : gmap cell nat) (ch : bool)
    (t : table) (a : list token) (qs : list Q) (o : outcome) :
  columnWidths t = Some a ->
  NoDup (walker t).*1 ->
  normalizeColumnWidths (split a) = numbers qs ->
  (Qsum qs == 100)%Q ->
  (forall c column p, (c, column) ∈ walker t -> m !! c = Some p -> p < length qs) ->
  1 <= getColumns t ->
  insertionDetected m t a = false ->
  fixTable m ch t = Some o ->
  exists a' rs,
    columnWidths (table_after o) = Some a'
    /\ parsedWidths a' = numbers rs
    /\ (Qsum rs == 100)%Q.
Proof.
  intros Ha Hnd Hnorm Hsum Hstored Hcols Hdet Ho.
  unfold insertionDetected in Hdet. rewrite Hnorm in Hdet.
  apply orb_false_elim in Hdet as [Hflag Hend].
  apply Nat.ltb_ge in Hend.
  pose proof (walk_no_insertion t (walker t) _ Hnd Hflag) as Hall. simpl in Hall.
  destruct (walk_without_insertion t m qs Hnd Hstored Hall) as (rs & Hw & Hrs).
  rewrite Hw, numbers_length in Hend.
  destruct (fixTableEnd_no_insertion t rs Hcols Hend) as (rs' & Hfix & Hrs').
  assert (Hfixed : fixedWidths m t a = numbers rs').
  { unfold fixedWidths. rewrite Hnorm, Hw. exact Hfix. }
  assert (Hne : rs' <> []).
  { intros ->. pose proof (fixTableEnd_length t (numbers rs)) as Hlen.
    rewrite Hfix in Hlen. simpl in Hlen. lia. }
  destruct (fixTable_attribute m ch t a o Ha Ho) as (a' & Ha' & Hsame).
  rewrite Hfixed, widthsToAttribute_numbers in Hsame.
  unfold same_text in Hsame. rewrite (split_percentages rs' Hne) in Hsame.
  destruct (same_tokens_percentages _ _ Hsame) as (rs'' & Hsplit & Hpoint).
  exists a', rs''. split; [exact Ha'|]. split.
  - apply parsedWidths_percentages. exact Hsplit.
  - rewrite (Qsum_pointwise _ _ Hpoint), Hrs', Hrs. exact Hsum.
Qed.

(** What a pass leaves behind: the table structure is untouched, the map
    has every cell of the walk at its column, and stored finite widths are
    as many as the table has columns. *)
Lemma after_pass (m : gmap cell nat) (ch : bool) (t : table) (o1 : outcome)
    (a1 : list token) (qs : list Q) :
  NoDup (walker t).*1 ->
  fixTable m ch t = Some o1 ->
  columnWidths (table_after o1) = Some a1 ->
  split a1 = percentages qs ->
  walker (table_after o1) = walker t
  /\ getColumns (table_after o1) = getColumns t
  /\ length qs = getColumns t
  /\ qs <> []
  /\ Forall (fun s => map_after o1 !! s.1 = Some s.2) (walker t).
Proof.
  intros Hnd Ho1 Ha1 Hsplit.
  destruct (columnWidths t) as [a|] eqn:Ha;
    [|unfold fixTable in Ho1; rewrite Ha in Ho1; discriminate].
  destruct (fixTable_attribute m ch t a o1 Ha Ho1) as (a1' & Ha1' & Hsame).
  rewrite Ha1 in Ha1'. injection Ha1' as <-.
  assert (Hstruct : walker (table_after o1) = walker t
                    /\ getColumns (table_after o1) = getColumns t
                    /\ map_after o1
                       = columnIndexMap (walkCells t (Loop (normalizeColumnWidths (split a))
                                                           m false false ch))).
  { unfold fixTable in Ho1. rewrite Ha in Ho1.
    destruct (same_text a _) in Ho1; injection Ho1 as <-; simpl; repeat split. }
  destruct Hstruct as (Hwalker & Hcolumns & Hmap).
  split; [exact Hwalker|]. split; [exact Hcolumns|].
  split; [|split].
  - unfold same_text in Hsame. rewrite Hsplit in Hsame.
    pose proof (fixTableEnd_length t
      (widths (walkCells t (Loop (normalizeColumnWidths (split a)) m false false false))))
      as Hlen.
    fold (fixedWidths m t a) in Hlen.
    destruct (fixedWidths m t a) as [|w ws] eqn:Hfixed.
    + simpl in Hsame. destruct qs as [|q [|q' qs]]; simpl in Hsame; discriminate.
    + assert (Hl : forall (xs : list Q) (ys : list token),
                 same_tokens (percentages xs) ys = true -> length xs = length ys).
      { induction xs as [|x xs IH]; intros [|y ys] Hs; simpl in Hs; try discriminate.
        - reflexivity.
        - apply andb_prop in Hs as [_ Hs]. simpl. f_equal. apply IH. exact Hs. }
      apply Hl in Hsame. unfold widthsToAttribute in Hsame.
      cbn [map split length] in Hsame. rewrite length_map in Hsame.
      cbn [length] in Hlen. lia.
  - intros ->. destruct a1; discriminate.
  - apply Forall_forall. intros [c column] Hs. simpl.
    rewrite Hmap. unfold walkCells. apply walk_lookup_same; assumption.
Qed.

(** C8, as amended.  When the walker yields each cell once and
    normalisation leaves the widths stored by a first pass as they are
    (finite percentages that already sum to 100), a second pass in
    succession, over the same table structure, writes no attribute: the
    table and the map are as the first pass left them and the pass reports
    no change. *)
Theorem second_pass_writes_nothing (m : gmap cell nat) (ch : bool) (t : table)
    (o1 : outcome) (a1 : list token) (qs : list Q) :
  NoDup (walker t).*1 ->
  fixTable m ch t = Some o1 ->
  columnWidths (table_after o1) = Some a1 ->
  split a1 = percentages qs ->
  normalizeColumnWidths (split a1) = numbers qs ->
  fixTable (map_after o1) false (table_after o1)
  = Some (Outcome (table_after o1) (map_after o1) false false).
Proof.
  intros Hnd Ho1 Ha1 Hsplit Hnorm.
  destruct (after_pass m ch t o1 a1 qs Hnd Ho1 Ha1 Hsplit)
    as (Hwalker & Hcolumns & Hlen & Hne & Hsettled).
  unfold fixTable. rewrite Ha1, Hnorm.
  unfold walkCells. rewrite Hwalker.
  rewrite walk_settled by exact Hsettled.
  simpl. rewrite fixTableEnd_same by (rewrite numbers_length, Hcolumns; exact Hlen).
  rewrite widthsToAttribute_numbers. unfold same_text.
  rewrite Hsplit, (split_percentages qs Hne), same_tokens_refl. reflexivity.
Qed.

Lemma fixTable_defined (m : gmap cell nat) (ch : bool) (t : table) :
  fixTable m ch t = None <-> columnWidths t = None.
Proof.
  unfold fixTable.
  destruct (columnWidths t) as [a|]; [|split; reflexivity].
  destruct (same_text a _); split; discriminate.
Qed.

Lemma postFixerFrom_defined (m : gmap cell nat) (ch : bool) (tables : list table) :
  is_Some (postFixerFrom m ch tables)
  <-> Forall (fun t => is_Some (columnWidths t)) tables.
Proof.
  revert m ch. induction tables as [|t tables IH]; intros m ch; cbn [postFixerFrom].
  - split; [constructor|eexists; reflexivity].
  - destruct (fixTable m ch t) as [o|] eqn:Ho.
    + assert (Hsome : is_Some (columnWidths t)).
      { destruct (columnWidths t) eqn:Ha; [eexists; reflexivity|].
        apply (fixTable_defined m ch) in Ha. congruence. }
      specialize (IH (map_after o) (changed_after o)).
      destruct (postFixerFrom (map_after o) (changed_after o) tables) as [[[ts m'] ch']|].
      * split; [|eexists; reflexivity].
        intros _. constructor; [exact Hsome|]. apply IH. eexists; reflexivity.
      * split; [intros [x Hx]; discriminate|].
        intros Hall. apply Forall_cons in Hall as [_ Hall].
        apply IH in Hall. exact Hall.
    + apply fixTable_defined in Ho. split; [intros [x Hx]; discriminate|].
      intros Hall. apply Forall_cons in Hall as [[x Hx] _]. congruence.
Qed.

(** Every table a pass returns is what the loop body made of the table
    at its place, for the map and the flag the pass had reached. *)
Lemma postFixerFrom_each (m : gmap cell nat) (ch : bool) (tables ts : list table)
    (m' : gmap cell nat) (ch' : bool) :
  postFixerFrom m ch tables = Some (ts, m', ch') ->
  Forall2 (fun t t' => exists mi chi o,
             fixTable mi chi t = Some o /\ table_after o = t')
          tables ts.
Proof.
  revert m ch ts. induction tables as [|t tables IH]; intros m ch ts Hpass;
    cbn [postFixerFrom] in Hpass.
  - injection Hpass as <- _ _. constructor.
  - destruct (fixTable m ch t) as [o|] eqn:Ho; [|discriminate].
    destruct (postFixerFrom (map_after o) (changed_after o) tables)
      as [[[ts0 m0] ch0]|] eqn:Hrest; [|discriminate].
    injection Hpass as <- <- <-.
    constructor; [exists m, ch, o; split; [exact Ho|reflexivity]|].
    apply (IH _ _ _ Hrest).
Qed.

(** C10.  The pass is defined exactly on the change sets all of whose
    tables carry [columnWidths]: for a table without the attribute the body
    of the loop calls [split] on [undefined] and fails, nothing guards the
    call, and the failure ends the whole pass. *)
Theorem pass_defined_iff_attribute_present (m : gmap cell nat)
    (tables : list table) :
  (forall ch t, fixTable m ch t = None <-> columnWidths t = None)
  /\ (is_Some (postFixer m tables)
      <-> Forall (fun t => is_Some (columnWidths t)) tables).
Proof.
  split; [intros ch t; apply fixTable_defined|apply postFixerFrom_defined].
Qed.

End PostFixerClaims.

(** * The concrete reading of [normalizeColumnWidths] *)

Section NormalizeFacts.
Local Existing Instance SpecUtils.utils.

Lemma Qfloor_half (z : Z) (q : Q) : q == inject_Z z -> Qfloor (q + (1 # 2)) = z.
Proof.
  intros Hq.
  pose proof (Qfloor_le (q + (1 # 2))) as Hlow.
  pose proof (Qlt_floor (q + (1 # 2))) as Hhigh.
  rewrite inject_Z_plus in Hhigh.
  change (inject_Z 1) with 1 in Hhigh.
  apply Z.le_antisymm; apply Z.lt_succ_r; rewrite Zlt_Qlt; unfold Z.succ;
    rewrite inject_Z_plus; change (inject_Z 1) with 1; lra.
Qed.

(** Rounding leaves a number of hundredths as it is. *)
Lemma toPrecision_hundredths (z : Z) (q : Q) :
  q == hundredths z -> SpecUtils.toPrecision (Num q) = Num (hundredths z).
Proof.
  intros Hq. unfold SpecUtils.toPrecision, hundredths.
  rewrite (Qfloor_half z (q * 100)); [reflexivity|].
  rewrite Hq. unfold hundredths. field.
Qed.

Lemma Qsum_hundredths (zs : list Z) :
  Qsum (map hundredths zs) == hundredths (foldr Z.add 0%Z zs).
Proof.
  induction zs as [|z zs IH]; simpl.
  - reflexivity.
  - rewrite Qsum_cons, IH. unfold hundredths. rewrite inject_Z_plus. field.
Qed.

Lemma Qsum_replace (e : nat) (x v : Q) (l : list Q) :
  l !! e = Some x -> Qsum (<[e := v]> l) == Qsum l - x + v.
Proof.
  revert e. induction l as [|y l IH]; intros [|e] He; simpl in *; try discriminate.
  - injection He as ->. rewrite !Qsum_cons. ring.
  - rewrite !Qsum_cons, (IH _ He). ring.
Qed.

Lemma parse_percentages (qs : list Q) :
  map (fun tk => Some (parseFloat (Some tk))) (percentages qs) = numbers qs.
Proof. unfold percentages, numbers. rewrite map_map. reflexivity. Qed.

(** Widths that already sum to 100 are kept as they are. *)
Lemma normalize_keeps_hundred (qs : list Q) :
  Qsum qs == 100 -> SpecUtils.normalizeColumnWidths (percentages qs) = numbers qs.
Proof.
  intros Hsum. unfold SpecUtils.normalizeColumnWidths.
  rewrite parse_percentages, sumArray_numbers. simpl.
  apply Qeq_bool_true in Hsum. rewrite Hsum. reflexivity.
Qed.

(** Finite widths with a total other than zero are normalised to widths
    that sum to 100. *)
Lemma normalize_sums_to_100 (qs : list Q) :
  qs <> [] -> ~ Qsum qs == 0 ->
  exists rs, SpecUtils.normalizeColumnWidths (percentages qs) = numbers rs
             /\ Qsum rs == 100
             /\ length rs = length qs.
Proof.
  intros Hne Htotal. unfold SpecUtils.normalizeColumnWidths.
  rewrite parse_percentages, sumArray_numbers. simpl jeq.
  destruct (Qeq_bool (Qsum qs) 100) eqn:Hhundred.
  { exists qs. apply Qeq_bool_true in Hhundred. repeat split; assumption. }
  set (T := Qsum qs) in *.
  set (zs := map (fun q => Qfloor (q * 100 / T * 100 + (1 # 2))) qs).
  assert (Hscaled :
    map (fun s : option number =>
           match s with
           | Some w => Some (SpecUtils.toPrecision (jdiv (jmul w (Num 100)) (Num T)))
           | None => None
           end) (numbers qs)
    = numbers (map hundredths zs)).
  { unfold numbers, zs. rewrite !map_map. apply map_ext. intros q.
    unfold jdiv, jmul, lift2.
    destruct (Qeq_bool T 0) eqn:Hzero;
      [apply Qeq_bool_true in Hzero; contradiction|].
    reflexivity. }
  rewrite Hscaled. unfold SpecUtils.mapLast.
  rewrite numbers_length, length_map.
  assert (Hlen : length zs = length qs) by apply length_map.
  destruct (length zs) as [|k] eqn:Hk.
  { destruct qs; [contradiction|discriminate]. }
  destruct (lookup_lt_is_Some_2 (map hundredths zs) k) as [h Hh];
    [rewrite length_map; lia|].
  rewrite (numbers_lookup _ _ _ Hh), sumArray_numbers. simpl jadd. simpl jsub.
  assert (Hz : exists z, h = hundredths z).
  { change (map hundredths zs) with (hundredths <$> zs) in Hh.
    rewrite list_lookup_fmap in Hh.
    destruct (zs !! k) as [z|]; [|discriminate].
    exists z. injection Hh as <-. reflexivity. }
  destruct Hz as (z & ->).
  rewrite (toPrecision_hundredths (z + 10000 - foldr Z.add 0%Z zs)).
  2: { rewrite Qsum_hundredths. unfold hundredths.
       unfold Z.sub. rewrite !inject_Z_plus, inject_Z_opp. field. }
  rewrite numbers_insert.
  eexists. split; [reflexivity|]. split.
  - rewrite (Qsum_replace _ _ _ _ Hh), Qsum_hundredths. unfold hundredths.
    unfold Z.sub. rewrite !inject_Z_plus, inject_Z_opp. field.
  - rewrite length_insert, length_map. lia.
Qed.

(** With this normalisation, the pass after any pass restores the sum:
    whatever the first pass stored, if it is finite with a total other than
    zero, the attribute after the second pass sums to 100. *)
Lemma second_pass_restores_sum (m : gmap cell nat) (ch : bool) (t : table)
    (o1 : PostFixer.outcome) (a1 : list token) (qs : list Q) :
  NoDup (walker t).*1 ->
  PostFixer.fixTable m ch t = Some o1 ->
  columnWidths (PostFixer.table_after o1) = Some a1 ->
  split a1 = percentages qs ->
  ~ Qsum qs == 0 ->
  exists o2 a2 rs,
    PostFixer.fixTable (PostFixer.map_after o1) false (PostFixer.table_after o1) = Some o2
    /\ columnWidths (PostFixer.table_after o2) = Some a2
    /\ PostFixer.parsedWidths a2 = numbers rs
    /\ Qsum rs == 100.
Proof.
  intros Hnd Ho1 Ha1 Hsplit Htotal.
  destruct (after_pass m ch t o1 a1 qs Hnd Ho1 Ha1 Hsplit)
    as (Hwalker & Hcolumns & Hlen & Hne & Hsettled).
  destruct (normalize_sums_to_100 qs Hne Htotal) as (rs & Hnorm & Hsum & Hlength).
  assert (Hrs : rs <> []).
  { intros ->. destruct qs; [contradiction|discriminate]. }
  destruct (PostFixer.fixTable (PostFixer.map_after o1) false (PostFixer.table_after o1))
    as [o2|] eqn:Ho2.
  2: { apply fixTable_defined in Ho2. congruence. }
  destruct (fixTable_attribute _ _ _ a1 o2 Ha1 Ho2) as (a2 & Ha2 & Hsame).
  assert (Hfixed : PostFixer.fixedWidths (PostFixer.map_after o1)
                     (PostFixer.table_after o1) a1 = numbers rs).
  { unfold PostFixer.fixedWidths, PostFixer.walkCells.
    rewrite Hsplit.
    change (normalizeColumnWidths (percentages qs))
      with (SpecUtils.normalizeColumnWidths (percentages qs)).
    rewrite Hnorm, Hwalker.
    rewrite walk_settled by exact Hsettled. simpl.
    apply fixTableEnd_same. rewrite numbers_length, Hcolumns. congruence. }
  rewrite Hfixed, widthsToAttribute_numbers in Hsame.
  unfold same_text in Hsame. rewrite (split_percentages rs Hrs) in Hsame.
  destruct (same_tokens_percentages _ _ Hsame) as (rs' & Hsplit2 & Hpoint).
  exists o2, a2, rs'. split; [reflexivity|]. split; [exact Ha2|]. split.
  - apply parsedWidths_percentages. exact Hsplit2.
  - rewrite (Qsum_pointwise _ _ Hpoint). exact Hsum.
Qed.

End NormalizeFacts.

(** * The post-fixer on the worked tables *)

Section PostFixerExamples.
Import PostFixer Examples.
Local Open Scope nat_scope.
Local Existing Instance SpecUtils.utils.

Lemma NoDup_cells_grown : NoDup (walker grownTable).*1.
Proof. apply (bool_decide_unpack _). vm_compute. exact I. Defined.

Lemma NoDup_cells_shrunk : NoDup (walker shrunkTable).*1.
Proof. apply (bool_decide_unpack _). vm_compute. exact I. Defined.

(** C1, counterexample.  The table 50%,50% with one column inserted: the
    pass splices the minimum width 20 in and writes 50%,20%,50%, whose sum
    is 120. *)
Lemma single_pass_after_insertion_sums_to_120 :
  exists t' m' ch a',
    postFixer grownMap [grownTable] = Some ([t'], m', ch)
    /\ columnWidths t' = Some a'
    /\ sumArray (parsedWidths a') = Num 120
    /\ ~ (120 == 100)%Q.
Proof.
  eexists _, _, _, _.
  split; [vm_compute; reflexivity|].
  split; [reflexivity|].
  split; [vm_compute; reflexivity|].
  intros Heq. vm_compute in Heq. discriminate.
Qed.

(** The pass over the table whose middle column was deleted: it writes
    50%,50%. *)
Lemma pass_without_insertion_sums_to_100_witness :
  exists o,
    fixTable shrunkMap false shrunkTable = Some o
    /\ exists a' rs,
         columnWidths (table_after o) = Some a'
         /\ parsedWidths a' = numbers rs
         /\ (Qsum rs == 100)%Q.
Proof.
  eexists. split; [vm_compute; reflexivity|].
  apply (pass_without_insertion_sums_to_100 shrunkMap false shrunkTable
           [percent 25; percent 25; percent 50] [25%Q; 25%Q; 50%Q]).
  - reflexivity.
  - exact NoDup_cells_shrunk.
  - reflexivity.
  - reflexivity.
  - intros c column p Hin Hp.
    apply elem_of_cons in Hin as [Hin|Hin];
      [injection Hin as -> ->; vm_compute in Hp; injection Hp as <-; simpl; lia|].
    apply elem_of_cons in Hin as [Hin|Hin];
      [injection Hin as -> ->; vm_compute in Hp; injection Hp as <-; simpl; lia|].
    apply elem_of_nil in Hin. contradiction.
  - simpl. lia.
  - vm_compute. reflexivity.
  - vm_compute. reflexivity.
Defined.


(** The deletion of the middle column of 25%,25%,50%: the first column
    takes the 25 of the deleted one, and the pass stores 50%,50%. *)
Lemma deletion_donates_freed_width_witness :
  exists x,
    [25%Q; 25%Q; 50%Q] !! 0 = Some x
    /\ fixedWidths shrunkMap shrunkTable [percent 25; percent 25; percent 50]
       = numbers (<[0 := (x + Qsum [25%Q])%Q]> [25%Q; 50%Q])
    /\ length (fixedWidths shrunkMap shrunkTable [percent 25; percent 25; percent 50])
       = 3 - 1
    /\ (Qsum (<[0%nat := x + Qsum [25]]> [25; 50]) == Qsum [25; 25; 50])%Q
    /\ forall ch, exists o a' rs,
         fixTable shrunkMap ch shrunkTable = Some o
         /\ columnWidths (table_after o) = Some a'
         /\ same_text a'
              (widthsToAttribute
                 (fixedWidths shrunkMap shrunkTable
                    [percent 25; percent 25; percent 50])) = true
         /\ parsedWidths a' = numbers rs
         /\ Forall2 Qeq rs (<[0%nat := (x + Qsum [25%Q])%Q]> [25%Q; 50%Q])
         /\ length rs = 3 - 1
         /\ (Qsum rs == Qsum [25; 25; 50])%Q.
Proof.
  apply (deletion_donates_freed_width shrunkMap shrunkTable
           [percent 25; percent 25; percent 50] [25%Q; 25%Q; 50%Q] 1 1).
  - reflexivity.
  - exact NoDup_cells_shrunk.
  - reflexivity.
  - apply (deletion_inside shrunkMap shrunkTable 3 [(1%positive, 0)] 3%positive 1 [] 2).
    + reflexivity.
    + apply Forall_cons. split; [right; reflexivity|constructor].
    + reflexivity.
    + lia.
    + lia.
    + constructor.
    + reflexivity.
Defined.

(** After the deletion pass wrote 50%,50% the next pass writes nothing. *)
Lemma second_pass_writes_nothing_witness :
  exists o1,
    fixTable shrunkMap false shrunkTable = Some o1
    /\ fixTable (map_after o1) false (table_after o1)
       = Some (Outcome (table_after o1) (map_after o1) false false).
Proof.
  eexists. split; [vm_compute; reflexivity|].
  apply (second_pass_writes_nothing shrunkMap false shrunkTable _
           [Pct (Num (25 + 25)); Pct (Num 50)] [(25 + 25)%Q; 50%Q]).
  - exact NoDup_cells_shrunk.
  - vm_compute. reflexivity.
  - reflexivity.
  - reflexivity.
  - reflexivity.
Defined.

(** A column appended to the table 50%,50%: no cell moved, the table has
    one column more than the sequence and the minimum width goes to the
    end. *)
Lemma appended_column_widths :
  fixedWidths grownMap appendedTable [percent 50; percent 50]
  = numbers [50; 50; 20]%Q.
Proof. vm_compute. reflexivity. Qed.

(** C8, counterexample.  The table 50%,50% with one column inserted: the
    first pass writes 50%,20%,50%; the second pass, with the table
    structure as it was, normalises these widths and writes again. *)
Lemma second_pass_after_insertion_writes :
  exists o1 o2,
    fixTable grownMap false grownTable = Some o1
    /\ written o1 = true
    /\ walker (table_after o1) = walker grownTable
    /\ getColumns (table_after o1) = getColumns grownTable
    /\ fixTable (map_after o1) false (table_after o1) = Some o2
    /\ written o2 = true
    /\ same_opt_text (columnWidths (table_after o2)) (columnWidths (table_after o1))
       = false.
Proof.
  eexists _, _.
  split; [vm_compute; reflexivity|].
  split; [reflexivity|].
  split; [reflexivity|].
  split; [reflexivity|].
  split; [vm_compute; reflexivity|].
  split; [reflexivity|].
  vm_compute. reflexivity.
Qed.

End PostFixerExamples.

(** * The resize controller *)

Section ControllerFacts.
Import Controller Gesture.
Context `{Utils}.

(** ** The offset of a drag step *)

Ltac order_cases :=
  repeat match goal with
  | H : context [Qle_bool ?a ?b] |- _ =>
      let E := fresh "E" in
      destruct (Qle_bool a b) eqn:E;
      [apply Qle_bool_true in E|apply Qle_bool_false in E]
  | |- context [Qle_bool ?a ?b] =>
      let E := fresh "E" in
      destruct (Qle_bool a b) eqn:E;
      [apply Qle_bool_true in E|apply Qle_bool_false in E]
  end.

(** A finite result of [clamp] is above a finite lower bound, whatever the
    upper bound is. *)
Lemma clamp_lower (v hi : number) (lo r : Q) :
  (forall h, hi = Num h -> lo <= h) ->
  clamp v (Num lo) hi = Num r -> lo <= r.
Proof.
  intros Hhi. unfold clamp, jge, jle.
  destruct v as [q|]; simpl.
  - destruct hi as [h|]; simpl.
    + specialize (Hhi h eq_refl). order_cases; intros Hr; injection Hr as <-; lra.
    + order_cases; intros Hr; injection Hr as <-; lra.
  - destruct hi as [h|]; simpl; discriminate.
Qed.

(** And below a finite upper bound, whatever the lower bound is. *)
Lemma clamp_upper (v lo : number) (hi r : Q) :
  (forall l, lo = Num l -> l <= hi) ->
  clamp v lo (Num hi) = Num r -> r <= hi.
Proof.
  intros Hlo. unfold clamp, jge, jle.
  destruct v as [q|]; simpl.
  - destruct lo as [l|]; simpl.
    + specialize (Hlo l eq_refl). order_cases; intros Hr; injection Hr as <-; lra.
    + order_cases; intros Hr; injection Hr as <-; lra.
  - destruct lo as [l|]; simpl; discriminate.
Qed.

Lemma jmin_zero_upper (a : number) (l : Q) : jmin a (Num 0) = Num l -> l <= 0.
Proof.
  destruct a as [q|]; simpl; [|discriminate].
  order_cases; intros Hl; injection Hl as <-; lra.
Qed.

Lemma jmax_zero_lower (a : number) (h : Q) : jmax a (Num 0) = Num h -> 0 <= h.
Proof.
  destruct a as [q|]; simpl; [|discriminate].
  order_cases; intros Hh; injection Hh as <-; lra.
Qed.

Lemma multiplier_value (d : resizingData) :
  multiplier d
  = Num ((if isLtrContent d then 1 else -1)
         * (if isRightEdge d && isTableCentered d then 2 else 1)).
Proof.
  unfold multiplier. destruct (isLtrContent d), (isRightEdge d && isTableCentered d);
    reflexivity.
Qed.

(** A pointer at the press position gives the offset zero. *)
Lemma dragOffset_at_press (d : resizingData) (x0 : Q) :
  columnPosition d = Num x0 ->
  jeq (dragOffset d (Num x0)) (Num 0) = true.
Proof.
  intros Hpos. unfold dragOffset. rewrite Hpos, multiplier_value.
  set (k := (if isLtrContent d then 1 else -1)
            * (if isRightEdge d && isTableCentered d then 2 else 1)).
  simpl jsub. simpl jmul.
  destruct (jmin (dxLowerBound d) (Num 0)) as [lo|] eqn:Hlo;
    destruct (jmax (dxUpperBound d) (Num 0)) as [hi|] eqn:Hhi;
    try (apply jmin_zero_upper in Hlo); try (apply jmax_zero_lower in Hhi);
    unfold clamp, jge, jle, jeq; simpl;
    order_cases; apply Qeq_bool_true; lra.
Qed.

(** ** One drag step *)

(** C9, as amended.  For a drag step whose clamped offset is the finite
    number dx: the left column does not get narrower than the minimum pixel
    width if it started at or above it; when the dragged edge is the
    table's rightmost edge, the table does not get wider than its container
    if it started within it; when an internal boundary is dragged, the
    right column does not get narrower than the minimum if it started at or
    above it; and an offset of zero leaves the editor, so also the view, as
    it is. *)
Theorem clamped_offset_keeps_bounds (d : resizingData) (x : number) (dx l mn : Q) :
  leftColumnWidth d = Num l ->
  COLUMN_MIN_WIDTH_IN_PIXELS = Num mn ->
  dragOffset d x = Num dx ->
  (mn <= l -> mn <= l + dx)
  /\ (isRightEdge d = true ->
      forall tw pw, tableWidthInPixels d = Num tw -> viewFigureParentWidth d = Num pw ->
                    tw <= pw -> tw + dx <= pw)
  /\ (isRightEdge d = false ->
      forall r, rightColumnWidth d = Num r -> mn <= r -> mn <= r - dx)
  /\ (dx == 0 ->
      forall e, isResizingActive e = true -> isResizingAllowed e = true ->
                session e = Some d -> onMouseMoveHandler x e = Some e).
Proof.
  intros Hleft Hmin Hdx. unfold dragOffset in Hdx.
  destruct (jmin (dxLowerBound d) (Num 0)) as [lo|] eqn:Hlo.
  2: { unfold dxLowerBound in Hlo. rewrite Hleft, Hmin in Hlo. discriminate. }
  pose proof (jmin_zero_upper _ _ Hlo) as Hlo0.
  assert (Hlower : lo <= dx).
  { apply (clamp_lower _ _ _ _ (fun h Hh => Qle_trans _ _ _ Hlo0 (jmax_zero_lower _ _ Hh)) Hdx). }
  repeat split.
  - intros Hstart. unfold dxLowerBound in Hlo. rewrite Hleft, Hmin in Hlo.
    cbv [jmin jadd jneg lift2] in Hlo. injection Hlo as Hlo'. revert Hlo'.
    order_cases; intros <-; lra.
  - intros Hedge tw pw Htw Hpw Hstart.
    unfold dxUpperBound in Hdx. rewrite Hedge, Htw, Hpw in Hdx.
    cbv [jsub jmax lift2] in Hdx.
    assert (Hupper : dx <= (if Qle_bool (pw - tw) 0 then 0 else pw - tw)).
    { refine (clamp_upper _ _ _ _ _ Hdx).
      intros l' Hl'. injection Hl' as <-. order_cases; lra. }
    revert Hupper. order_cases; lra.
  - intros Hedge r Hr Hstart.
    unfold dxUpperBound in Hdx. rewrite Hedge, Hr, Hmin in Hdx.
    cbv [jsub jmax lift2] in Hdx.
    assert (Hupper : dx <= (if Qle_bool (r - mn) 0 then 0 else r - mn)).
    { refine (clamp_upper _ _ _ _ _ Hdx).
      intros l' Hl'. injection Hl' as <-. order_cases; lra. }
    revert Hupper. order_cases; lra.
  - intros Hzero e Hactive Hallowed Hsession.
    unfold onMouseMoveHandler. rewrite Hactive, Hallowed, Hsession. simpl.
    unfold dragOffset. rewrite Hlo, Hdx. simpl.
    apply Qeq_bool_true in Hzero. rewrite Hzero. reflexivity.
Qed.

(** C7, as amended.  During a drag the offset is the pointer's distance
    from the press position times a multiplier, clamped; the multiplier is
    1, or -1 for right-to-left content, and it is doubled exactly when the
    dragged edge is the table's rightmost edge and the table is centred.
    Strictly inside the bounds the offset is that product itself.  With the
    [<col>]s of the session in place the step succeeds; it never touches
    the model; on the right edge it sets the width of the left [<col>] and
    of the figure and nothing else, on an internal boundary it sets the
    widths of the left and the right [<col>] and leaves the figure's width
    as it is. *)
Theorem drag_scales_offset_and_updates_view (e : editor) (d : resizingData)
    (x : number) (cols : list (option token)) :
  isResizingActive e = true ->
  isResizingAllowed e = true ->
  session e = Some d ->
  colgroup (viewTable e) = Some cols ->
  (viewLeftColumn d < length cols)%nat ->
  (isRightEdge d = false ->
   exists j, viewRightColumn d = Some j /\ (j < length cols)%nat) ->
  let dx := dragOffset d x in
  let scaled := jmul (jsub x (columnPosition d)) (multiplier d) in
  let leftPercentage :=
    Pct (toPrecision (jdiv (jmul (jadd (leftColumnWidth d) dx) (Num 100))
                           (tableWidthInPixels d))) in
  let rightPercentage :=
    Pct (toPrecision (jdiv (jmul (jsub (rightColumnWidth d) dx) (Num 100))
                           (tableWidthInPixels d))) in
  let tablePercentage :=
    Pct (toPrecision (jdiv (jmul (jadd (tableWidthInPixels d) dx) (Num 100))
                           (viewFigureParentWidth d))) in
  multiplier d = Num ((if isLtrContent d then 1 else -1)
                      * (if isRightEdge d && isTableCentered d then 2 else 1))
  /\ dx = clamp scaled (jmin (dxLowerBound d) (Num 0)) (jmax (dxUpperBound d) (Num 0))
  /\ (forall r lo hi,
        scaled = Num r ->
        jmin (dxLowerBound d) (Num 0) = Num lo ->
        jmax (dxUpperBound d) (Num 0) = Num hi ->
        lo < r < hi -> dx = Num r)
  /\ exists e',
       onMouseMoveHandler x e = Some e'
       /\ modelTable e' = modelTable e
       /\ executed e' = executed e
       /\ (jeq dx (Num 0) = true -> e' = e)
       /\ (jeq dx (Num 0) = false ->
           if isRightEdge d then
             colgroup (viewTable e')
             = Some (<[viewLeftColumn d := Some leftPercentage]> cols)
             /\ figureWidth (viewTable e') = Some tablePercentage
           else
             exists j,
               viewRightColumn d = Some j
               /\ colgroup (viewTable e')
                  = Some (<[j := Some rightPercentage]>
                            (<[viewLeftColumn d := Some leftPercentage]> cols))
               /\ figureWidth (viewTable e') = figureWidth (viewTable e)).
Proof.
  intros Hactive Hallowed Hsession Hcols Hleft Hright dx scaled leftPercentage
         rightPercentage tablePercentage.
  split; [apply multiplier_value|].
  split; [reflexivity|].
  split.
  { intros r lo hi Hscaled Hlo Hhi [Hl Hh]. unfold dx, dragOffset.
    fold scaled. rewrite Hscaled, Hlo, Hhi. unfold clamp, jge, jle. cbv beta iota.
    assert (E1 : Qle_bool r lo = false) by (apply Qle_bool_false; exact Hl).
    assert (E2 : Qle_bool hi r = false) by (apply Qle_bool_false; exact Hh).
    rewrite E1, E2. reflexivity. }
  unfold onMouseMoveHandler. rewrite Hactive, Hallowed, Hsession. simpl. fold dx.
  destruct (jeq dx (Num 0)) eqn:Hzero.
  { exists e. repeat split; try reflexivity. discriminate. }
  unfold resizeView. fold leftPercentage rightPercentage tablePercentage.
  unfold setColumnStyle. rewrite Hcols.
  destruct (Nat.ltb_spec (viewLeftColumn d) (length cols)) as [_|]; [|lia].
  destruct (isRightEdge d) eqn:Hedge.
  - eexists. split; [reflexivity|]. simpl.
    repeat split; try discriminate.
  - destruct (Hright eq_refl) as (j & Hj & Hjlen). rewrite Hj. simpl.
    rewrite length_insert.
    destruct (Nat.ltb_spec j (length cols)) as [_|]; [|lia].
    eexists. split; [reflexivity|]. simpl.
    repeat split; try discriminate.
    intros _. exists j. repeat split.
Qed.

(** ** A press while a session is open *)

(** C5, as amended.  A press while a session is open leaves the session
    as it is when its target is not a resize handle (the press then clears
    the allowed flag) or when resizing is not allowed; the press path is
    gated by the handle class and the allowed flag, not by the active
    flag.  A press on a handle while resizing is allowed replaces the data
    of the session by those of the new press.  Either way one session is
    open afterwards. *)
Theorem press_during_session (ev : mouseDown) (e : editor) (d : resizingData) :
  isResizingActive e = true ->
  session e = Some d ->
  let e' := onMouseDownHandler ev e in
  isResizingActive e' = true
  /\ (targetIsResizer ev = false ->
      session e' = Some d /\ isResizingAllowed e' = false)
  /\ (isResizingAllowed e = false -> session e' = Some d)
  /\ (targetIsResizer ev = true -> isResizingAllowed e = true ->
      exists d', session e' = Some d'
                 /\ columnPosition d' = clientX ev
                 /\ viewResizer d' = target ev
                 /\ viewLeftColumn d' = leftColumnIndex ev).
Proof.
  intros Hactive Hsession e'. unfold e', onMouseDownHandler.
  destruct (targetIsResizer ev) eqn:Htarget; simpl.
  - destruct (isResizingAllowed e) eqn:Hallowed; simpl.
    + destruct (calculateDomColumnWidths (modelTable e) (columnIndexMap e)
                  (getDomCellOuterWidth ev)) as [px m] eqn:Hpx.
      simpl. repeat split; try discriminate.
      intros _ _. eexists. repeat split.
    + repeat split; try discriminate; try assumption.
      intros _. exact Hsession.
  - repeat split; try discriminate; try assumption.
    intros Hallowed.
    destruct (isResizingAllowed e); [discriminate|]. exact Hsession.
Qed.

End ControllerFacts.

(** * A whole gesture *)

Section GestureFacts.
Import Controller Gesture.
Context `{Utils}.

(** A press on a handle while resizing is allowed opens a session; the
    model and the command log are not touched, an existing [<colgroup>] is
    kept and the figure gets its measured percentage. *)
Lemma press_opens_session (ev : mouseDown) (e : editor) :
  targetIsResizer ev = true ->
  isResizingAllowed e = true ->
  let e1 := onMouseDownHandler ev e in
  isResizingActive e1 = true
  /\ isResizingAllowed e1 = true
  /\ modelTable e1 = modelTable e
  /\ executed e1 = executed e
  /\ figureWidth (viewTable e1) = Some (figureInitialWidth ev)
  /\ (exists d, session e1 = Some d /\ columnPosition d = clientX ev)
  /\ (forall cols, colgroup (viewTable e) = Some cols ->
                   colgroup (viewTable e1) = Some cols)
  /\ (exists cols, colgroup (viewTable e1) = Some cols).
Proof.
  intros Htarget Hallowed e1. unfold e1, onMouseDownHandler.
  rewrite Htarget, Hallowed. simpl.
  destruct (calculateDomColumnWidths (modelTable e) (columnIndexMap e)
              (getDomCellOuterWidth ev)) as [px m].
  simpl. repeat split.
  - eexists. split; reflexivity.
  - intros cols Hcols. rewrite Hcols. simpl. exact Hcols.
  - destruct (colgroup (viewTable e)) as [cols|] eqn:Hc; simpl;
      [exists cols; exact Hc|eexists; reflexivity].
Qed.

(** A drag step while resizing is allowed changes nothing but width
    styles. *)
Lemma move_keeps_session (x : number) (e e' : editor) :
  isResizingActive e = true ->
  isResizingAllowed e = true ->
  onMouseMoveHandler x e = Some e' ->
  isResizingActive e' = true
  /\ isResizingAllowed e' = true
  /\ session e' = session e
  /\ modelTable e' = modelTable e
  /\ executed e' = executed e
  /\ (forall cols, colgroup (viewTable e) = Some cols ->
        exists cols', colgroup (viewTable e') = Some cols'
                      /\ length cols' = length cols).
Proof.
  intros Hactive Hallowed Hmove.
  unfold onMouseMoveHandler in Hmove. rewrite Hactive, Hallowed in Hmove.
  simpl in Hmove.
  destruct (session e) as [d|] eqn:Hsession; [|discriminate].
  destruct (jeq (dragOffset d x) (Num 0)).
  { injection Hmove as <-. repeat split; try assumption.
    intros cols Hcols. exists cols. split; [exact Hcols|reflexivity]. }
  unfold resizeView, setColumnStyle in Hmove.
  destruct (colgroup (viewTable e)) as [cols|] eqn:Hcols; [|discriminate].
  destruct (viewLeftColumn d <? length cols)%nat; [|discriminate].
  destruct (isRightEdge d).
  - injection Hmove as <-. simpl. repeat split; try assumption.
    intros cols0 Hcols0. injection Hcols0 as <-.
    eexists. split; [reflexivity|]. apply length_insert.
  - destruct (viewRightColumn d) as [j|]; [|discriminate].
    simpl in Hmove.
    destruct (j <? length (<[viewLeftColumn d := _]> cols))%nat; [|discriminate].
    injection Hmove as <-. simpl. repeat split; try assumption.
    intros cols0 Hcols0. injection Hcols0 as <-.
    eexists. split; [reflexivity|]. rewrite !length_insert. reflexivity.
Qed.

Lemma drag_keeps_session (xs : list number) (e e' : editor) :
  isResizingActive e = true ->
  isResizingAllowed e = true ->
  drag xs e = Some e' ->
  isResizingActive e' = true
  /\ isResizingAllowed e' = true
  /\ session e' = session e
  /\ modelTable e' = modelTable e
  /\ executed e' = executed e
  /\ (forall cols, colgroup (viewTable e) = Some cols ->
        exists cols', colgroup (viewTable e') = Some cols'
                      /\ length cols' = length cols).
Proof.
  revert e. induction xs as [|x xs IH]; intros e Hactive Hallowed Hdrag;
    cbn [drag] in Hdrag.
  - injection Hdrag as <-. repeat split; try assumption.
    intros cols Hcols. exists cols. split; [exact Hcols|reflexivity].
  - destruct (onMouseMoveHandler x e) as [e1|] eqn:Hmove; [|discriminate].
    destruct (move_keeps_session x e e1 Hactive Hallowed Hmove)
      as (Ha1 & Hl1 & Hs1 & Hm1 & Hx1 & Hc1).
    destruct (IH e1 Ha1 Hl1 Hdrag) as (Ha2 & Hl2 & Hs2 & Hm2 & Hx2 & Hc2).
    repeat split; try congruence.
    intros cols Hcols.
    destruct (Hc1 cols Hcols) as (cols1 & Hcols1 & Hlen1).
    destruct (Hc2 cols1 Hcols1) as (cols2 & Hcols2 & Hlen2).
    exists cols2. split; [exact Hcols2|congruence].
Qed.

(** With the [<col>]s of the session in place a drag succeeds. *)
Lemma drag_defined (xs : list number) (e : editor) (d : resizingData)
    (cols : list (option token)) :
  isResizingActive e = true ->
  isResizingAllowed e = true ->
  session e = Some d ->
  colgroup (viewTable e) = Some cols ->
  (viewLeftColumn d < length cols)%nat ->
  (isRightEdge d = false ->
   exists j, viewRightColumn d = Some j /\ (j < length cols)%nat) ->
  exists e', drag xs e = Some e'.
Proof.
  revert e cols. induction xs as [|x xs IH];
    intros e cols Hactive Hallowed Hsession Hcols Hleft Hright; cbn [drag].
  - exists e. reflexivity.
  - assert (Hmove : exists e1, onMouseMoveHandler x e = Some e1).
    { unfold onMouseMoveHandler. rewrite Hactive, Hallowed, Hsession. simpl.
      destruct (jeq (dragOffset d x) (Num 0)); [exists e; reflexivity|].
      unfold resizeView, setColumnStyle. rewrite Hcols.
      destruct (Nat.ltb_spec (viewLeftColumn d) (length cols)) as [_|]; [|lia].
      destruct (isRightEdge d) eqn:Hedge; [eexists; reflexivity|].
      destruct (Hright eq_refl) as (j & Hj & Hjlen). rewrite Hj. simpl.
      rewrite length_insert.
      destruct (Nat.ltb_spec j (length cols)) as [_|]; [|lia].
      eexists. reflexivity. }
    destruct Hmove as (e1 & Hmove). rewrite Hmove.
    destruct (move_keeps_session x e e1 Hactive Hallowed Hmove)
      as (Ha1 & Hl1 & Hs1 & _ & _ & Hc1).
    destruct (Hc1 cols Hcols) as (cols1 & Hcols1 & Hlen1).
    apply (IH e1 cols1 Ha1 Hl1); try congruence.
    intros Hedge. destruct (Hright Hedge) as (j & Hj & Hjlen).
    exists j. split; [exact Hj|congruence].
Qed.

(** A pointer that stays at the press position leaves the editor as the
    press left it. *)
Lemma drag_at_press (n : nat) (x0 : Q) (e : editor) (d : resizingData) :
  isResizingActive e = true ->
  isResizingAllowed e = true ->
  session e = Some d ->
  columnPosition d = Num x0 ->
  drag (replicate n (Num x0)) e = Some e.
Proof.
  intros Hactive Hallowed Hsession Hpos.
  induction n as [|n IH]; cbn [replicate drag]; [reflexivity|].
  unfold onMouseMoveHandler. rewrite Hactive, Hallowed, Hsession. simpl.
  rewrite (dragOffset_at_press d x0 Hpos). exact IH.
Qed.

Lemma restoreColumns_all (cols : list (option token)) (ws : list token) :
  length cols = length ws -> restoreColumns cols ws = map Some ws.
Proof.
  revert ws. induction cols as [|c cols IH]; intros [|w ws] Hlen; simpl in *;
    try discriminate; [reflexivity|].
  f_equal. apply IH. congruence.
Qed.

Lemma styles_rendered (ws : list token) : styles (map Some ws) = ws.
Proof. unfold styles. rewrite map_map. apply map_id. Qed.

Lemma split_length (a : list token) : (1 <= length (split a))%nat.
Proof. destruct a; simpl; lia. Qed.

Lemma split_of_nonempty (a : list token) : (1 <= length a)%nat -> split a = a.
Proof. destruct a; simpl; [lia|reflexivity]. Qed.

End GestureFacts.

(** * The claims about a gesture *)

Section GestureClaims.
Import Controller Gesture.
Context `{Utils}.

(** What a release does to the model, the log and the width styles, by
    whether the widths changed and whether resizing is allowed. *)
Lemma release_outcome (e : editor) (d : resizingData) :
  isResizingActive e = true ->
  session e = Some d ->
  let t := modelTable e in
  let v := viewTable e in
  let columnsChanged := negb (same_opt_text (columnWidths t) (Some (colgroupWidths v))) in
  let tableChanged := negb (same_opt_token (tableWidth t) (figureWidth v)) in
  exists e3,
    onMouseUpHandler e = Some e3
    /\ isResizingActive e3 = false
    /\ session e3 = None
    /\ (columnsChanged || tableChanged = false ->
        modelTable e3 = t /\ executed e3 = executed e
        /\ colgroup (viewTable e3) = colgroup v
        /\ figureWidth (viewTable e3) = figureWidth v)
    /\ (columnsChanged || tableChanged = true -> isResizingAllowed e = false ->
        modelTable e3 = t /\ executed e3 = executed e
        /\ colgroup (viewTable e3)
           = colgroup (revertView (columnWidths t) (tableWidth t) tableChanged v)
        /\ figureWidth (viewTable e3)
           = figureWidth (revertView (columnWidths t) (tableWidth t) tableChanged v))
    /\ (columnsChanged || tableChanged = true -> isResizingAllowed e = true ->
        exists c, executed e3 = c :: executed e /\ modelTable e3 = execute c t).
Proof.
  intros Hactive Hsession t v columnsChanged tableChanged.
  unfold onMouseUpHandler. rewrite Hactive, Hsession. simpl.
  fold t v. fold columnsChanged tableChanged.
  destruct (columnsChanged || tableChanged) eqn:Hchanged.
  - destruct (isResizingAllowed e) eqn:Hallowed.
    + eexists. split; [reflexivity|]. simpl.
      repeat split; try discriminate.
      intros _ _. eexists. split; reflexivity.
    + eexists. split; [reflexivity|]. simpl.
      repeat split; try discriminate.
  - eexists. split; [reflexivity|]. simpl.
    repeat split; try discriminate.
Qed.

(** C4, as amended.  For a table that has [columnWidths], whose
    [<colgroup>] shows these widths and whose stored [tableWidth] is the
    percentage the press measures for the figure, a press on a handle, any
    number of moves with the pointer at the press position and a release
    execute no command and leave the model table as it was. *)
Theorem still_pointer_cycle_keeps_model (e : editor) (ev : mouseDown) (n : nat)
    (x0 : Q) (a : list token) (cols : list (option token)) :
  isResizingAllowed e = true ->
  targetIsResizer ev = true ->
  clientX ev = Num x0 ->
  columnWidths (modelTable e) = Some a ->
  colgroup (viewTable e) = Some cols ->
  same_text a (styles cols) = true ->
  same_opt_token (tableWidth (modelTable e)) (Some (figureInitialWidth ev)) = true ->
  exists e3,
    pressDragRelease ev (replicate n (clientX ev)) e = Some e3
    /\ modelTable e3 = modelTable e
    /\ executed e3 = executed e
    /\ isResizingActive e3 = false
    /\ session e3 = None.
Proof.
  intros Hallowed Htarget Hx Ha Hcols Hsame Hwidth.
  destruct (press_opens_session ev e Htarget Hallowed)
    as (Hactive1 & Hallowed1 & Hmodel1 & Hlog1 & Hfigure1 & (d & Hsession1 & Hpos) & Hkeep & _).
  specialize (Hkeep cols Hcols).
  unfold pressDragRelease. rewrite Hx.
  rewrite Hx in Hpos.
  rewrite (drag_at_press n x0 _ d Hactive1 Hallowed1 Hsession1 Hpos).
  destruct (release_outcome _ d Hactive1 Hsession1)
    as (e3 & Hrelease & Hactive3 & Hsession3 & Hsame3 & _).
  exists e3. split; [exact Hrelease|].
  destruct Hsame3 as (Hmodel3 & Hlog3 & _).
  { rewrite Hmodel1, Ha, Hfigure1. unfold colgroupWidths. rewrite Hkeep.
    simpl. fold (styles cols). rewrite Hsame, Hwidth. reflexivity. }
  repeat split; congruence.
Qed.

(** C6.  For a table whose view shows what its attributes say (a
    [<colgroup>] with the stored column widths, or none; the stored table
    width on the figure, or none), after a press on a handle and any drag,
    when resizing is no longer allowed the release (and so the next move,
    which calls it) executes no command, leaves the model table as it was
    and leaves the width styles as they were before the press: the stored
    column widths and table width if there were any, no [<colgroup>] and no
    width style otherwise. *)
Theorem disallowed_release_reverts_view (e e2 : editor) (ev : mouseDown)
    (xs : list number) :
  isResizingAllowed e = true ->
  targetIsResizer ev = true ->
  colgroup (viewTable e) = renderedColgroup (modelTable e) ->
  figureWidth (viewTable e) = tableWidth (modelTable e) ->
  (forall a, columnWidths (modelTable e) = Some a -> nonempty_text a = true) ->
  tableWidth (modelTable e) <> Some Blank ->
  drag xs (onMouseDownHandler ev e) = Some e2 ->
  exists e3,
    onMouseUpHandler (setResizingAllowed false e2) = Some e3
    /\ (forall x, onMouseMoveHandler x (setResizingAllowed false e2) = Some e3)
    /\ modelTable e3 = modelTable e
    /\ executed e3 = executed e
    /\ same_colgroup (colgroup (viewTable e)) (colgroup (viewTable e3)) = true
    /\ same_opt_token (figureWidth (viewTable e)) (figureWidth (viewTable e3)) = true
    /\ isResizingActive e3 = false
    /\ session e3 = None.
Proof.
  intros Hallowed Htarget Hrendered Hfigure Hnonempty Hblank Hdrag.
  destruct (press_opens_session ev e Htarget Hallowed)
    as (Hactive1 & Hallowed1 & Hmodel1 & Hlog1 & _ & (d & Hsession1 & _) & Hkeep & (cols1 & Hcols1)).
  destruct (drag_keeps_session xs _ e2 Hactive1 Hallowed1 Hdrag)
    as (Hactive2 & _ & Hsession2 & Hmodel2 & Hlog2 & Hlen2).
  destruct (Hlen2 cols1 Hcols1) as (cols2 & Hcols2 & Hlength).
  rewrite Hsession1 in Hsession2. rewrite Hmodel1 in Hmodel2. rewrite Hlog1 in Hlog2.
  set (e2' := setResizingAllowed false e2).
  assert (Hactive2' : isResizingActive e2' = true) by exact Hactive2.
  assert (Hsession2' : session e2' = Some d) by exact Hsession2.
  destruct (release_outcome e2' d Hactive2' Hsession2')
    as (e3 & Hrelease & Hactive3 & Hsession3 & Hsame & Hrevert & _).
  exists e3. split; [exact Hrelease|].
  split.
  { intros x. unfold onMouseMoveHandler. rewrite Hactive2'. simpl. exact Hrelease. }
  change (modelTable e2') with (modelTable e2) in Hsame, Hrevert.
  change (viewTable e2') with (viewTable e2) in Hsame, Hrevert.
  change (executed e2') with (executed e2) in Hsame, Hrevert.
  rewrite Hmodel2, Hlog2 in Hsame, Hrevert.
  set (t := modelTable e) in *.
  destruct (negb (same_opt_text (columnWidths t) (Some (colgroupWidths (viewTable e2))))
            || negb (same_opt_token (tableWidth t) (figureWidth (viewTable e2))))
    eqn:Hchanged.
  - (* something changed: the view is reverted *)
    destruct (Hrevert eq_refl eq_refl) as (Hmodel3 & Hlog3 & Hcolgroup3 & Hfigure3).
    split; [exact Hmodel3|]. split; [exact Hlog3|].
    rewrite Hcolgroup3, Hfigure3, Hrendered, Hfigure.
    unfold revertView, renderedColgroup. simpl. fold t.
    split; [|split; [|split; assumption]].
    + destruct (columnWidths t) as [a|] eqn:Ha; [|reflexivity].
      rewrite (Hnonempty a eq_refl), Hcols2.
      rewrite restoreColumns_all; [simpl; apply same_tokens_refl|].
      rewrite Hlength.
      specialize (Hkeep (map Some (split a))).
      rewrite Hrendered in Hkeep. unfold renderedColgroup in Hkeep. fold t in Hkeep.
      rewrite Ha in Hkeep. specialize (Hkeep eq_refl).
      rewrite Hcols1 in Hkeep. injection Hkeep as ->. apply length_map.
    + destruct (negb (same_opt_token (tableWidth t) (figureWidth (viewTable e2))))
        eqn:Htable.
      * destruct (tableWidth t) as [[n|]|]; simpl;
          [apply same_number_refl|contradiction|reflexivity].
      * apply negb_false_iff in Htable. exact Htable.
  - (* nothing changed: the view shows the stored widths already *)
    destruct (Hsame eq_refl) as (Hmodel3 & Hlog3 & Hcolgroup3 & Hfigure3).
    split; [exact Hmodel3|]. split; [exact Hlog3|].
    apply orb_false_elim in Hchanged as [Hcolumns Htable].
    apply negb_false_iff in Hcolumns, Htable.
    rewrite Hcolgroup3, Hfigure3, Hrendered, Hfigure.
    split; [|split; [exact Htable|split; assumption]].
    unfold renderedColgroup. fold t.
    destruct (columnWidths t) as [a|] eqn:Ha; [|discriminate].
    rewrite Hcols2. simpl. rewrite styles_rendered.
    simpl in Hcolumns. unfold colgroupWidths in Hcolumns. rewrite Hcols2 in Hcolumns.
    fold (styles cols2) in Hcolumns. unfold same_text in Hcolumns.
    rewrite (split_of_nonempty (styles cols2)) in Hcolumns; [exact Hcolumns|].
    unfold styles. rewrite length_map, Hlength.
    specialize (Hkeep (map Some (split a))).
    rewrite Hrendered in Hkeep. unfold renderedColgroup in Hkeep. fold t in Hkeep.
    rewrite Ha in Hkeep. specialize (Hkeep eq_refl).
    rewrite Hcols1 in Hkeep. injection Hkeep as ->.
    rewrite length_map. apply split_length.
Qed.

End GestureClaims.

(** * The controller on the worked tables *)

Section ControllerExamples.
Import Controller Gesture Examples.
Local Existing Instance SpecUtils.utils.

(** C4, counterexample.  The never resized table: the press synthesises
    a [<colgroup>] and fixes the figure's width, the pointer does not leave
    the press position, and the release executes [resizeTableWidth]: the
    table now has [columnWidths] and [tableWidth]. *)
Lemma still_pointer_cycle_on_plain_table_executes :
  exists e3 c,
    pressDragRelease pressInner [Num 300; Num 300] plainEditor = Some e3
    /\ executed plainEditor = []
    /\ executed e3 = [c]
    /\ columnWidths (modelTable plainEditor) = None
    /\ tableWidth (modelTable plainEditor) = None
    /\ same_opt_text (columnWidths (modelTable e3)) (Some [percent 50; percent 50]) = true
    /\ same_opt_token (tableWidth (modelTable e3)) (Some (percent 50)) = true.
Proof.
  eexists _, _.
  split; [vm_compute; reflexivity|].
  repeat split; vm_compute; reflexivity.
Qed.

(** The resized table, pressed on its inner handle and released after
    three moves at the press position. *)
Lemma still_pointer_cycle_keeps_model_witness :
  exists e3,
    pressDragRelease pressInner (replicate 3 (clientX pressInner)) idleEditor = Some e3
    /\ modelTable e3 = modelTable idleEditor
    /\ executed e3 = executed idleEditor
    /\ isResizingActive e3 = false
    /\ session e3 = None.
Proof.
  apply (still_pointer_cycle_keeps_model idleEditor pressInner 3 300
           [percent 50; percent 50] [Some (percent 50); Some (percent 50)]).
  - reflexivity.
  - reflexivity.
  - reflexivity.
  - reflexivity.
  - reflexivity.
  - vm_compute. reflexivity.
  - vm_compute. reflexivity.
Defined.

(** C5, counterexample.  A session is open after the press on the inner
    handle; a second press, on the handle of the last column, is not
    stopped by the active flag and replaces the data of the session. *)
Lemma second_press_replaces_session :
  let e1 := onMouseDownHandler pressInner idleEditor in
  let e2 := onMouseDownHandler pressEdge e1 in
  isResizingActive e1 = true
  /\ exists d1 d2,
       session e1 = Some d1 /\ session e2 = Some d2
       /\ columnPosition d1 = Num 300 /\ columnPosition d2 = Num 500
       /\ viewLeftColumn d1 = 0%nat /\ viewLeftColumn d2 = 1%nat
       /\ d1 <> d2.
Proof.
  split; [reflexivity|].
  eexists _, _.
  split; [vm_compute; reflexivity|].
  split; [vm_compute; reflexivity|].
  repeat split. discriminate.
Qed.

(** The second press of the counterexample, by the theorem. *)
Lemma press_during_session_witness :
  let e1 := onMouseDownHandler pressInner idleEditor in
  let e' := onMouseDownHandler pressEdge e1 in
  isResizingActive e1 = true
  /\ isResizingActive e' = true
  /\ exists d', session e' = Some d'
                /\ columnPosition d' = clientX pressEdge
                /\ viewResizer d' = target pressEdge
                /\ viewLeftColumn d' = leftColumnIndex pressEdge.
Proof.
  intros e1 e'.
  destruct (press_during_session pressEdge e1
              (getResizingData resizedTable pressInner
                 (calculateDomColumnWidths resizedTable ∅ (fun _ => Num 200)).1)
              eq_refl eq_refl)
    as (Hactive & _ & _ & Hreplaced).
  split; [reflexivity|].
  split; [exact Hactive|].
  apply Hreplaced; reflexivity.
Defined.

(** C9, counterexample.  A table of 500 pixels in a container of 400,
    centred, dragged at its rightmost edge 10 pixels to the left: the
    offset is -20, the table is 480 pixels wide, more than its container,
    and the figure is given 120%. *)
Lemma wide_table_stays_wider_than_container :
  let e1 := onMouseDownHandler pressWideEdge wideEditor in
  exists d dx e2,
    session e1 = Some d
    /\ isRightEdge d = true
    /\ tableWidthInPixels d = Num 500
    /\ viewFigureParentWidth d = Num 400
    /\ dragOffset d (Num 290) = Num dx
    /\ ~ (500 + dx <= 400)
    /\ onMouseMoveHandler (Num 290) e1 = Some e2
    /\ same_opt_token (figureWidth (viewTable e2)) (Some (percent 120)) = true.
Proof.
  intros e1. eexists _, _, _.
  split; [vm_compute; reflexivity|].
  split; [reflexivity|].
  split; [reflexivity|].
  split; [reflexivity|].
  split; [vm_compute; reflexivity|].
  split; [intros Hle; vm_compute in Hle; apply Hle; reflexivity|].
  split; [vm_compute; reflexivity|].
  vm_compute. reflexivity.
Qed.

(** The inner boundary of the resized table dragged 200 pixels to the
    left: the offset is -160 and the left column keeps 40 pixels; a pointer
    at the press position gives the offset zero. *)
Lemma clamped_offset_keeps_bounds_witness :
  let d := innerSession in
  let dx := (-160)%Q in
  dragOffset d (Num 100) = Num dx
  /\ (40 <= 200 -> 40 <= 200 + dx)
  /\ (isRightEdge d = false ->
      forall r, rightColumnWidth d = Num r -> 40 <= r -> 40 <= r - dx)
  /\ (dragOffset d (Num 300) = Num 0
      /\ forall e, isResizingActive e = true -> isResizingAllowed e = true ->
                   session e = Some d -> onMouseMoveHandler (Num 300) e = Some e).
Proof.
  intros d dx.
  assert (Hdx : dragOffset d (Num 100) = Num dx) by (vm_compute; reflexivity).
  assert (Hzero : dragOffset d (Num 300) = Num 0) by (vm_compute; reflexivity).
  destruct (clamped_offset_keeps_bounds (H := SpecUtils.utils) d (Num 100) dx 200 40
              eq_refl eq_refl Hdx)
    as (Hleft & _ & Hright & _).
  destruct (clamped_offset_keeps_bounds (H := SpecUtils.utils) d (Num 300) 0 200 40
              eq_refl eq_refl Hzero)
    as (_ & _ & _ & Hstill).
  split; [exact Hdx|].
  split; [exact Hleft|].
  split; [exact Hright|].
  split; [exact Hzero|].
  apply Hstill. reflexivity.
Defined.

(** C7, counterexample.  The rightmost edge of the centred table,
    pressed at x = 500 and dragged to x = 1000: the pointer's distance
    times the multiplier is 1000, the applied offset is the upper bound
    400 and the figure is given 100%. *)
Lemma drag_beyond_container_is_clamped :
  let e := onMouseDownHandler pressEdge idleEditor in
  exists d dx e',
    session e = Some d
    /\ jmul (jsub (Num 1000) (columnPosition d)) (multiplier d)
       = Num ((1000 - 500) * (1 * 2))
    /\ dragOffset d (Num 1000) = Num dx
    /\ ~ (dx == (1000 - 500) * (1 * 2))
    /\ onMouseMoveHandler (Num 1000) e = Some e'
    /\ same_opt_token (figureWidth (viewTable e')) (Some (percent 100)) = true.
Proof.
  intros e. eexists _, _, _.
  split; [vm_compute; reflexivity|].
  split; [reflexivity|].
  split; [vm_compute; reflexivity|].
  split; [intros Heq; vm_compute in Heq; discriminate|].
  split; [vm_compute; reflexivity|].
  vm_compute. reflexivity.
Qed.

(** The rightmost edge of the centred table dragged 10 pixels to the
    right: the offset is 20. *)
Lemma drag_scales_offset_and_updates_view_witness :
  let e := onMouseDownHandler pressEdge idleEditor in
  let cols := [Some (percent 50); Some (percent 50)] in
  exists d e',
    session e = Some d
    /\ multiplier d = Num (1 * 2)
    /\ dragOffset d (Num 510) = Num ((510 - 500) * (1 * 2))
    /\ onMouseMoveHandler (Num 510) e = Some e'
    /\ modelTable e' = modelTable e
    /\ executed e' = executed e
    /\ colgroup (viewTable e')
       = Some (<[1%nat := Some (Pct (toPrecision
                   (jdiv (jmul (jadd (leftColumnWidth d) (dragOffset d (Num 510)))
                               (Num 100))
                         (tableWidthInPixels d))))]> cols)
    /\ figureWidth (viewTable e')
       = Some (Pct (toPrecision
                   (jdiv (jmul (jadd (tableWidthInPixels d) (dragOffset d (Num 510)))
                               (Num 100))
                         (viewFigureParentWidth d)))).
Proof.
  intros e cols.
  assert (Hsession : exists d, session e = Some d /\ isRightEdge d = true
                               /\ isLtrContent d = true /\ isTableCentered d = true
                               /\ viewLeftColumn d = 1%nat
                               /\ jeq (dragOffset d (Num 510)) (Num 0) = false).
  { eexists. split; [vm_compute; reflexivity|]. repeat split. }
  destruct Hsession as (d & Hsession & Hedge & Hltr & Hcentred & Hleft & Hnonzero).
  destruct (drag_scales_offset_and_updates_view e d (Num 510) cols
              eq_refl eq_refl Hsession eq_refl)
    as (Hmult & _ & Hinside & e' & Hmove & Hmodel & Hlog & _ & Hview).
  - rewrite Hleft. simpl. lia.
  - rewrite Hedge. discriminate.
  - exists d, e'.
    split; [exact Hsession|].
    rewrite Hedge, Hltr, Hcentred in Hmult.
    split; [exact Hmult|].
    split.
    { injection Hsession as <-.
      refine (Hinside _ _ _ _ _ _ _);
        [reflexivity|vm_compute; reflexivity|vm_compute; reflexivity|].
      split; reflexivity. }
    split; [exact Hmove|]. split; [exact Hmodel|]. split; [exact Hlog|].
    specialize (Hview Hnonzero). rewrite Hedge, Hleft in Hview. exact Hview.
Defined.

(** The inner boundary dragged 50 pixels to the right, then resizing is
    no longer allowed: the release puts 50%,50% back. *)
Lemma disallowed_release_reverts_view_witness :
  exists e2 e3,
    drag [Num 350] (onMouseDownHandler pressInner idleEditor) = Some e2
    /\ same_colgroup (colgroup (viewTable idleEditor)) (colgroup (viewTable e2)) = false
    /\ onMouseUpHandler (setResizingAllowed false e2) = Some e3
    /\ modelTable e3 = modelTable idleEditor
    /\ executed e3 = executed idleEditor
    /\ same_colgroup (colgroup (viewTable idleEditor)) (colgroup (viewTable e3)) = true
    /\ same_opt_token (figureWidth (viewTable idleEditor)) (figureWidth (viewTable e3))
       = true.
Proof.
  assert (Hdrag : exists e2, drag [Num 350] (onMouseDownHandler pressInner idleEditor)
                             = Some e2
                             /\ same_colgroup (colgroup (viewTable idleEditor))
                                              (colgroup (viewTable e2)) = false).
  { eexists. split; vm_compute; reflexivity. }
  destruct Hdrag as (e2 & Hdrag & Hmoved).
  destruct (disallowed_release_reverts_view idleEditor e2 pressInner [Num 350])
    as (e3 & Hrelease & _ & Hmodel & Hlog & Hcolgroup & Hfigure & _).
  - reflexivity.
  - reflexivity.
  - reflexivity.
  - reflexivity.
  - intros a Ha. injection Ha as <-. reflexivity.
  - discriminate.
  - exact Hdrag.
  - exists e2, e3. repeat split; assumption.
Defined.

End ControllerExamples.

(** * More about the post-fixer *)

Section PostFixerMore.
Import PostFixer.
Local Open Scope nat_scope.
Context `{Utils}.

Lemma same_tokens_length (xs ys : list token) :
  same_tokens xs ys = true -> length xs = length ys.
Proof.
  revert ys. induction xs as [|x xs IH]; intros [|y ys] Hs; simpl in Hs;
    try discriminate; [reflexivity|].
  apply andb_prop in Hs as [_ Hs]. simpl. f_equal. apply IH. exact Hs.
Qed.

Lemma widthsToAttribute_length (ws : array) :
  length (widthsToAttribute ws) = length ws.
Proof. apply length_map. Qed.

(** One width per column.  Whatever the attribute, the walk and the map
    were, after the pass the attribute of a table with at least one column
    has exactly as many tokens as the table has columns; the attribute of a
    table without columns is the empty text. *)
Theorem pass_leaves_one_width_per_column (m : gmap cell nat) (ch : bool)
    (t : table) (o : outcome) :
  fixTable m ch t = Some o ->
  exists a',
    columnWidths (table_after o) = Some a'
    /\ (1 <= getColumns t -> length (split a') = getColumns t)
    /\ (getColumns t = 0 -> same_text a' [] = true).
Proof.
  intros Ho.
  destruct (columnWidths t) as [a|] eqn:Ha;
    [|apply (fixTable_defined m ch) in Ha; congruence].
  destruct (fixTable_attribute m ch t a o Ha Ho) as (a' & Ha' & Hsame).
  exists a'. split; [exact Ha'|].
  pose proof (fixedWidths_walk m t a false) as Hfixed.
  pose proof (fixTableEnd_length t
    (widths (walkCells t (Loop (normalizeColumnWidths (split a)) m false false false))))
    as Hlen.
  rewrite <- Hfixed in Hlen.
  split.
  - intros Hpos. unfold same_text in Hsame. apply same_tokens_length in Hsame.
    rewrite Hsame, split_of_nonempty;
      rewrite widthsToAttribute_length, Hlen; [reflexivity|exact Hpos].
  - intros Hzero. rewrite Hzero in Hlen.
    destruct (fixedWidths m t a); [exact Hsame|discriminate].
Qed.

Lemma fixTable_map (m : gmap cell nat) (ch : bool) (t : table) (a : list token)
    (o : outcome) :
  columnWidths t = Some a ->
  fixTable m ch t = Some o ->
  map_after o
  = columnIndexMap (walkCells t (Loop (normalizeColumnWidths (split a)) m false false ch)).
Proof.
  intros Ha Ho. unfold fixTable in Ho. rewrite Ha in Ho.
  destruct (same_text a _) in Ho; injection Ho as <-; reflexivity.
Qed.

Lemma pass_tracks_every_cell_aux (m : gmap cell nat) (ch : bool) (t : table)
    (o : outcome) :
  NoDup (walker t).*1 ->
  fixTable m ch t = Some o ->
  forall c column, (c, column) ∈ walker t -> map_after o !! c = Some column.
Proof.
  intros Hnd Ho c column Hin.
  destruct (columnWidths t) as [a|] eqn:Ha;
    [|apply (fixTable_defined m ch) in Ha; congruence].
  rewrite (fixTable_map m ch t a o Ha Ho). unfold walkCells.
  apply walk_lookup_same; assumption.
Qed.

(** The column index map after a pass.  Cells the walker did not yield
    keep their entry, so entries of removed cells stay; when the walker
    yields each cell once, every cell of the table is in the map at the
    column it has now. *)
Theorem pass_tracks_every_cell (m : gmap cell nat) (ch : bool) (t : table)
    (o : outcome) :
  NoDup (walker t).*1 ->
  fixTable m ch t = Some o ->
  (forall c column, (c, column) ∈ walker t -> map_after o !! c = Some column)
  /\ (forall c, c ∉ (walker t).*1 -> map_after o !! c = m !! c).
Proof.
  intros Hnd Ho.
  destruct (columnWidths t) as [a|] eqn:Ha;
    [|apply (fixTable_defined m ch) in Ha; congruence].
  rewrite (fixTable_map m ch t a o Ha Ho). unfold walkCells. split.
  - intros c column Hin. apply walk_lookup_same; assumption.
  - intros c Hc. rewrite walk_lookup_other by exact Hc. reflexivity.
Qed.

(** ** The returned flag *)

Lemma changed_step (t : table) (st : loop) (s : cell * nat) :
  changed (visitCell t st s) = false -> visitCell t st s = st.
Proof.
  destruct s as [c column]. unfold visitCell.
  destruct (columnIndexMap st !! c) as [p|]; simpl; [|discriminate].
  destruct (p <? column), (column <? p); simpl; try discriminate.
  reflexivity.
Qed.

Lemma changed_step_mono (t : table) (st : loop) (s : cell * nat) :
  changed st = true -> changed (visitCell t st s) = true.
Proof.
  destruct s as [c column]. intros Hch. unfold visitCell.
  destruct (columnIndexMap st !! c) as [p|]; simpl; [|reflexivity].
  destruct (p <? column), (column <? p); simpl; try reflexivity; exact Hch.
Qed.

Lemma changed_walk_mono (t : table) (l : list (cell * nat)) (st : loop) :
  changed st = true -> changed (fold_left (visitCell t) l st) = true.
Proof.
  revert st. induction l as [|s l IH]; intros st Hch; cbn [fold_left]; [exact Hch|].
  apply IH. apply changed_step_mono. exact Hch.
Qed.

Lemma unchanged_walk (t : table) (l : list (cell * nat)) (st : loop) :
  changed (fold_left (visitCell t) l st) = false ->
  fold_left (visitCell t) l st = st.
Proof.
  revert st. induction l as [|s l IH]; intros st Hch; cbn [fold_left] in *;
    [reflexivity|].
  assert (Hstep : changed (visitCell t st s) = false).
  { destruct (changed (visitCell t st s)) eqn:E; [|reflexivity].
    rewrite (changed_walk_mono t l _ E) in Hch. discriminate. }
  rewrite (IH _ Hch). apply changed_step. exact Hstep.
Qed.

Lemma unchanged_table (m : gmap cell nat) (ch : bool) (t : table) (o : outcome) :
  fixTable m ch t = Some o ->
  changed_after o = false ->
  ch = false /\ table_after o = t /\ map_after o = m /\ written o = false.
Proof.
  intros Ho Hch. unfold fixTable in Ho.
  destruct (columnWidths t) as [a|]; [|discriminate].
  destruct (same_text a _); injection Ho as <-; simpl in Hch; [|discriminate].
  unfold walkCells in *. simpl.
  rewrite (unchanged_walk _ _ _ Hch) in Hch |- *. simpl in *.
  repeat split. exact Hch.
Qed.

Lemma unchanged_pass (m : gmap cell nat) (ch : bool) (tables ts : list table)
    (m' : gmap cell nat) :
  postFixerFrom m ch tables = Some (ts, m', false) ->
  ch = false /\ ts = tables /\ m' = m.
Proof.
  revert m ch ts. induction tables as [|t tables IH]; intros m ch ts Hpass;
    cbn [postFixerFrom] in Hpass.
  - injection Hpass as <- <- ->. repeat split.
  - destruct (fixTable m ch t) as [o|] eqn:Ho; [|discriminate].
    destruct (postFixerFrom (map_after o) (changed_after o) tables)
      as [[[ts0 m0] ch0]|] eqn:Hrest; [|discriminate].
    injection Hpass as <- <- ->.
    destruct (IH _ _ _ Hrest) as (Hch & -> & ->).
    destruct (unchanged_table m ch t o Ho Hch) as (-> & -> & -> & _).
    repeat split.
Qed.

(** A pass that returns [false] changed nothing: no attribute was
    written and the column index map is as it was.  So whenever the pass
    writes an attribute or records or moves a cell in the map, it returns
    [true] and is run again. *)
Theorem pass_reporting_no_change_changed_nothing (m : gmap cell nat)
    (tables ts : list table) (m' : gmap cell nat) :
  postFixer m tables = Some (ts, m', false) ->
  ts = tables /\ m' = m.
Proof.
  intros Hpass. destruct (unchanged_pass m false tables ts m' Hpass) as (_ & Hts & Hm).
  split; assumption.
Qed.

(** ** Cells seen for the first time *)

(** When no cell the map knows has moved (every cell of the walk is new
    to the map or is where the map has it), the walk leaves the widths as
    they were normalised; only the table end is fitted to the column
    count.  If one of the cells is new, the pass returns [true]. *)
Theorem quiet_walk_keeps_normalised_widths (m : gmap cell nat) (ch : bool)
    (t : table) (a : list token) (o : outcome) :
  columnWidths t = Some a ->
  NoDup (walker t).*1 ->
  Forall (quiet m) (walker t) ->
  fixTable m ch t = Some o ->
  fixedWidths m t a = fixTableEnd t (normalizeColumnWidths (split a))
  /\ (getColumns t = length (normalizeColumnWidths (split a)) ->
      fixedWidths m t a = normalizeColumnWidths (split a))
  /\ ((exists c column, (c, column) ∈ walker t /\ m !! c = None) ->
      changed_after o = true).
Proof.
  intros Ha Hnd Hquiet Ho.
  destruct (walk_quiet t (walker t)
              (Loop (normalizeColumnWidths (split a)) m false false false) Hnd Hquiet)
    as (Hw & _ & _).
  assert (Hfixed : fixedWidths m t a = fixTableEnd t (normalizeColumnWidths (split a))).
  { unfold fixedWidths, walkCells. rewrite Hw. reflexivity. }
  split; [exact Hfixed|]. split.
  - intros Hlen. rewrite Hfixed. apply fixTableEnd_same. symmetry. exact Hlen.
  - intros (c & column & Hin & Hnew).
    destruct (changed_after o) eqn:Hch; [reflexivity|].
    destruct (unchanged_table m ch t o Ho Hch) as (_ & _ & Hmap & _).
    pose proof (pass_tracks_every_cell_aux m ch t o Hnd Ho c column Hin) as Htracked.
    rewrite Hmap, Hnew in Htracked. discriminate.
Qed.

End PostFixerMore.

(** * Sums and edges of the post-fixer *)

Section PostFixerSums.
Import PostFixer.
Local Open Scope nat_scope.
Context `{Utils}.

Lemma Qsum_replicate (n : nat) (x : Q) :
  (Qsum (replicate n x) == inject_Z (Z.of_nat n) * x)%Q.
Proof.
  induction n as [|n IH].
  - simpl. rewrite Qsum_nil. ring.
  - cbn [replicate]. rewrite Qsum_cons, IH.
    rewrite Nat2Z.inj_succ. unfold Z.succ. rewrite inject_Z_plus. ring.
Qed.

(** The widths the pass computes when it meets an insertion. *)
Lemma insertion_widths (m : gmap cell nat) (t : table) (a : list token) (p N : nat) :
  NoDup (walker t).*1 ->
  insertionOf m t (length (normalizeColumnWidths (split a))) p N ->
  0 < N
  /\ fixedWidths m t a
     = spliceInsert p (createFilledArray N (getColumnMinWidthAsPercentage t))
                    (normalizeColumnWidths (split a)).
Proof.
  intros Hnd Hins. unfold fixedWidths, walkCells.
  set (ws := normalizeColumnWidths (split a)) in *.
  inversion Hins as [pre c column post p' Hwalk Hpre Hc Hlt Hpost Hcols Hp HN
                    |N' Hquiet HN Hcols Hp HN'].
  - subst p'. split; [lia|]. rewrite Hwalk in Hnd |- *.
    destruct (walk_insertion_inside t pre post c column p ws m false
                Hnd Hpre Hc Hlt Hpost) as (Hw & _ & _).
    rewrite Hw. apply fixTableEnd_same.
    unfold spliceInsert, createFilledArray.
    rewrite !length_app, length_take, length_drop, length_replicate.
    lia.
  - subst N'. split; [exact HN|].
    destruct (walk_quiet t (walker t) (Loop ws m false false false) Hnd Hquiet)
      as (Hw & _ & _).
    simpl in Hw. rewrite Hw.
    rewrite fixTableEnd_insert by lia.
    replace (getColumns t - length ws) with N by lia.
    unfold spliceInsert. rewrite firstn_all, drop_all, app_nil_r. reflexivity.
Qed.

(** The attribute a pass stores when the widths it computed are the
    rationals [rs]. *)
Lemma stored_numbers (m : gmap cell nat) (ch : bool) (t : table) (a : list token)
    (rs : list Q) (o : outcome) :
  columnWidths t = Some a ->
  fixedWidths m t a = numbers rs ->
  rs <> [] ->
  fixTable m ch t = Some o ->
  exists a' rs',
    columnWidths (table_after o) = Some a'
    /\ parsedWidths a' = numbers rs'
    /\ (Qsum rs' == Qsum rs)%Q.
Proof.
  intros Ha Hfixed Hne Ho.
  destruct (fixTable_attribute m ch t a o Ha Ho) as (a' & Ha' & Hsame).
  rewrite Hfixed, widthsToAttribute_numbers in Hsame.
  unfold same_text in Hsame. rewrite (split_percentages rs Hne) in Hsame.
  destruct (same_tokens_percentages _ _ Hsame) as (rs' & Hsplit & Hpoint).
  exists a', rs'. split; [exact Ha'|]. split.
  - apply parsedWidths_percentages. exact Hsplit.
  - apply Qsum_pointwise. exact Hpoint.
Qed.

(** A pass that meets an insertion does not renormalise.  For a table
    whose normalised widths are finite, after a pass that met an insertion
    of N columns the tokens of the attribute parse to numbers whose sum is
    the sum of the normalised widths plus N times the minimum column width
    percentage: 100 + N * minimum when the widths summed to 100. *)
Theorem insertion_raises_the_sum (m : gmap cell nat) (ch : bool) (t : table)
    (a : list token) (qs : list Q) (mn : Q) (p N : nat) (o : outcome) :
  columnWidths t = Some a ->
  NoDup (walker t).*1 ->
  normalizeColumnWidths (split a) = numbers qs ->
  getColumnMinWidthAsPercentage t = Num mn ->
  insertionOf m t (length qs) p N ->
  fixTable m ch t = Some o ->
  exists a' rs,
    columnWidths (table_after o) = Some a'
    /\ parsedWidths a' = numbers rs
    /\ (Qsum rs == Qsum qs + inject_Z (Z.of_nat N) * mn)%Q.
Proof.
  intros Ha Hnd Hnorm Hmin Hins Ho.
  rewrite <- (numbers_length qs), <- Hnorm in Hins.
  destruct (insertion_widths m t a p N Hnd Hins) as (HN & Hfixed).
  rewrite Hnorm, Hmin in Hfixed.
  assert (Hrs : fixedWidths m t a
                = numbers (take p qs ++ replicate N mn ++ drop p qs)).
  { rewrite Hfixed. unfold spliceInsert, createFilledArray.
    rewrite !numbers_app, numbers_take, numbers_drop, numbers_replicate.
    reflexivity. }
  assert (Hne : take p qs ++ replicate N mn ++ drop p qs <> []).
  { destruct N; [lia|]. destruct (take p qs); discriminate. }
  destruct (stored_numbers m ch t a _ o Ha Hrs Hne Ho) as (a' & rs' & Ha' & Hparsed & Hsum).
  exists a', rs'. split; [exact Ha'|]. split; [exact Hparsed|].
  rewrite Hsum, !Qsum_app, Qsum_replicate.
  pose proof (Qsum_take_drop p qs) as Htd. lra.
Qed.


End PostFixerSums.

(** * Several tables in one pass *)

Section SeveralTables.
Import PostFixer.
Local Open Scope nat_scope.
Context `{Utils}.

(** The walk reads the map at the cells of the walk only. *)
Lemma visitCell_agree (t : table) (st1 st2 : loop) (c : cell) (column : nat) :
  widths st1 = widths st2 ->
  isColumnInsertionHandled st1 = isColumnInsertionHandled st2 ->
  isColumnDeletionHandled st1 = isColumnDeletionHandled st2 ->
  columnIndexMap st1 !! c = columnIndexMap st2 !! c ->
  widths (visitCell t st1 (c, column)) = widths (visitCell t st2 (c, column))
  /\ isColumnInsertionHandled (visitCell t st1 (c, column))
     = isColumnInsertionHandled (visitCell t st2 (c, column))
  /\ isColumnDeletionHandled (visitCell t st1 (c, column))
     = isColumnDeletionHandled (visitCell t st2 (c, column))
  /\ forall c0, columnIndexMap st1 !! c0 = columnIndexMap st2 !! c0 ->
                columnIndexMap (visitCell t st1 (c, column)) !! c0
                = columnIndexMap (visitCell t st2 (c, column)) !! c0.
Proof.
  intros Hw Hi Hd Hc.
  assert (Hins : forall c0, columnIndexMap st1 !! c0 = columnIndexMap st2 !! c0 ->
                   <[c := column]> (columnIndexMap st1) !! c0
                   = <[c := column]> (columnIndexMap st2) !! c0).
  { intros c0 Hc0. destruct (decide (c = c0)) as [->|Hne].
    - rewrite !lookup_insert_eq. reflexivity.
    - rewrite !lookup_insert_ne by exact Hne. exact Hc0. }
  unfold visitCell. rewrite <- Hc.
  destruct (columnIndexMap st1 !! c) as [p|]; [|cbn; repeat split; assumption].
  destruct (p <? column), (column <? p);
    unfold handleInsertion, handleDeletion; cbn;
    rewrite <- ?Hw, <- ?Hi, <- ?Hd; repeat split; try assumption.
  all: intros c0 Hc0; try exact Hc0.
  destruct (decide (c = c0)) as [->|Hne];
    [rewrite !lookup_insert_eq; reflexivity
    |rewrite !lookup_insert_ne by exact Hne; exact Hc0].
Qed.

Lemma walk_agree (t : table) (l : list (cell * nat)) (st1 st2 : loop) :
  widths st1 = widths st2 ->
  isColumnInsertionHandled st1 = isColumnInsertionHandled st2 ->
  isColumnDeletionHandled st1 = isColumnDeletionHandled st2 ->
  (forall c, c ∈ l.*1 -> columnIndexMap st1 !! c = columnIndexMap st2 !! c) ->
  widths (fold_left (visitCell t) l st1) = widths (fold_left (visitCell t) l st2).
Proof.
  revert st1 st2. induction l as [|[c column] l IH]; intros st1 st2 Hw Hi Hd Hmap;
    cbn [fold_left]; [exact Hw|].
  destruct (visitCell_agree t st1 st2 c column Hw Hi Hd) as (Hw' & Hi' & Hd' & Hmap').
  { apply Hmap. rewrite fmap_cons. left. }
  apply IH; try assumption.
  intros c0 Hc0. apply Hmap'. apply Hmap. rewrite fmap_cons. right. exact Hc0.
Qed.

(** The table a pass leaves depends on the map only at the cells of the
    table, and not on the flag. *)
Lemma fixTable_agree (m1 m2 : gmap cell nat) (ch1 ch2 : bool) (t : table)
    (o1 : outcome) :
  (forall c, c ∈ (walker t).*1 -> m1 !! c = m2 !! c) ->
  fixTable m1 ch1 t = Some o1 ->
  exists o2, fixTable m2 ch2 t = Some o2 /\ table_after o2 = table_after o1.
Proof.
  intros Hmap Ho1. unfold fixTable in *.
  destruct (columnWidths t) as [a|]; [|discriminate].
  assert (Hw : widths (walkCells t (Loop (normalizeColumnWidths (split a)) m1
                                         false false ch1))
               = widths (walkCells t (Loop (normalizeColumnWidths (split a)) m2
                                           false false ch2))).
  { unfold walkCells. apply walk_agree; try reflexivity. exact Hmap. }
  rewrite <- Hw.
  destruct (same_text a _); injection Ho1 as <-; eexists; split; reflexivity.
Qed.

Lemma fixTable_lookup_other (m : gmap cell nat) (ch : bool) (t : table)
    (o : outcome) (c : cell) :
  c ∉ (walker t).*1 ->
  fixTable m ch t = Some o ->
  map_after o !! c = m !! c.
Proof.
  intros Hc Ho.
  destruct (columnWidths t) as [a|] eqn:Ha;
    [|apply (fixTable_defined m ch) in Ha; congruence].
  rewrite (fixTable_map m ch t a o Ha Ho). unfold walkCells.
  rewrite walk_lookup_other by exact Hc. reflexivity.
Qed.

Lemma postFixerFrom_alone (m m0 : gmap cell nat) (ch : bool) (tables ts : list table)
    (m' : gmap cell nat) (ch' : bool) :
  separateCells tables ->
  (forall t c, t ∈ tables -> c ∈ (walker t).*1 -> m0 !! c = m !! c) ->
  postFixerFrom m0 ch tables = Some (ts, m', ch') ->
  Forall2 (fun t t' => exists o, fixTable m false t = Some o /\ table_after o = t')
          tables ts.
Proof.
  revert m0 ch ts. induction tables as [|t tables IH]; intros m0 ch ts Hsep Hmap Hpass;
    cbn [postFixerFrom] in Hpass.
  - injection Hpass as <- _ _. constructor.
  - destruct (fixTable m0 ch t) as [o|] eqn:Ho; [|discriminate].
    destruct (postFixerFrom (map_after o) (changed_after o) tables)
      as [[[ts0 m1] ch1]|] eqn:Hrest; [|discriminate].
    injection Hpass as <- <- <-.
    destruct Hsep as (Hhead & Hsep).
    constructor.
    + apply (fixTable_agree m0 m ch false t o); [|exact Ho].
      intros c Hc. apply (Hmap t); [left|exact Hc].
    + apply (IH (map_after o) (changed_after o) ts0 Hsep); [|exact Hrest].
      intros t' c Ht' Hc.
      assert (Hnot : c ∉ (walker t).*1).
      { intros Hin. rewrite Forall_forall in Hhead. apply (Hhead t' Ht' c Hin Hc). }
      rewrite (fixTable_lookup_other m0 ch t o c Hnot Ho).
      apply (Hmap t'); [right; exact Ht'|exact Hc].
Qed.

(** Tables do not interfere.  When no two of the changed tables share a
    cell, a pass over all of them leaves each table as a pass over that
    table alone, started with the same map, leaves it: the entries the
    pass records for one table have no effect on the widths of another. *)
Theorem tables_are_fixed_one_by_one (m : gmap cell nat) (tables ts : list table)
    (m' : gmap cell nat) (ch : bool) :
  separateCells tables ->
  postFixer m tables = Some (ts, m', ch) ->
  Forall2 (fun t t' => exists m1 ch1, postFixer m [t] = Some ([t'], m1, ch1))
          tables ts.
Proof.
  intros Hsep Hpass.
  pose proof (postFixerFrom_alone m m false tables ts m' ch Hsep
                (fun _ _ _ _ => eq_refl) Hpass) as Hall.
  apply (Forall2_impl _ _ _ _ Hall).
  intros t t' (o & Ho & <-). unfold postFixer. cbn [postFixerFrom]. rewrite Ho.
  eexists _, _. reflexivity.
Qed.

End SeveralTables.

(** * The post-fixer on the worked tables, continued *)

Section PostFixerMoreExamples.
Import PostFixer Examples MoreExamples.
Local Open Scope nat_scope.
Local Existing Instance SpecUtils.utils.

Lemma NoDup_cells_fresh : NoDup (walker freshTable).*1.
Proof. apply (bool_decide_unpack _). vm_compute. exact I. Defined.


(** The table 50%,50% with a column inserted has three columns; the pass
    leaves three tokens. *)
Lemma pass_leaves_one_width_per_column_witness :
  exists o,
    fixTable grownMap false grownTable = Some o
    /\ exists a',
         columnWidths (table_after o) = Some a'
         /\ (1 <= getColumns grownTable -> length (split a') = getColumns grownTable)
         /\ (getColumns grownTable = 0 -> same_text a' [] = true).
Proof.
  eexists. split; [vm_compute; reflexivity|].
  apply (pass_leaves_one_width_per_column grownMap false grownTable).
  vm_compute. reflexivity.
Defined.

(** After the pass over that table the map has the moved cell at its new
    column. *)
Lemma pass_tracks_every_cell_witness :
  exists o,
    fixTable grownMap false grownTable = Some o
    /\ (forall c column, (c, column) ∈ walker grownTable ->
          map_after o !! c = Some column)
    /\ (forall c, c ∉ (walker grownTable).*1 -> map_after o !! c = grownMap !! c).
Proof.
  eexists. split; [vm_compute; reflexivity|].
  apply (pass_tracks_every_cell grownMap false grownTable).
  - exact NoDup_cells_grown.
  - vm_compute. reflexivity.
Defined.

(** The pass over the table 50%,50% whose cells the map has where they
    are returns [false]: table and map are as they were. *)
Lemma pass_reporting_no_change_changed_nothing_witness :
  postFixer grownMap [freshTable] = Some ([freshTable], grownMap, false)
  /\ [freshTable] = [freshTable] /\ grownMap = grownMap.
Proof.
  assert (Hpass : postFixer grownMap [freshTable] = Some ([freshTable], grownMap, false))
    by (vm_compute; reflexivity).
  split; [exact Hpass|].
  exact (pass_reporting_no_change_changed_nothing grownMap [freshTable] [freshTable]
           grownMap Hpass).
Defined.

(** The table 50%,50% seen for the first time: the widths stay 50, 50
    and the pass returns [true]. *)
Lemma quiet_walk_keeps_normalised_widths_witness :
  exists o,
    fixTable ∅ false freshTable = Some o
    /\ fixedWidths ∅ freshTable [percent 50; percent 50]
       = fixTableEnd freshTable (normalizeColumnWidths (split [percent 50; percent 50]))
    /\ (getColumns freshTable
        = length (normalizeColumnWidths (split [percent 50; percent 50])) ->
        fixedWidths ∅ freshTable [percent 50; percent 50]
        = normalizeColumnWidths (split [percent 50; percent 50]))
    /\ ((exists c column, (c, column) ∈ walker freshTable /\ (∅ : gmap cell nat) !! c = None) ->
        changed_after o = true).
Proof.
  eexists. split; [vm_compute; reflexivity|].
  apply (quiet_walk_keeps_normalised_widths ∅ false freshTable [percent 50; percent 50]).
  - reflexivity.
  - exact NoDup_cells_fresh.
  - apply Forall_cons. split; [left; reflexivity|].
    apply Forall_cons. split; [left; reflexivity|constructor].
  - vm_compute. reflexivity.
Defined.

(** The insertion inside the table 50%,50% with a minimum of 20: the sum
    after the pass is 100 + 1 * 20. *)
Lemma insertion_raises_the_sum_witness :
  exists o,
    fixTable grownMap false grownTable = Some o
    /\ exists a' rs,
         columnWidths (table_after o) = Some a'
         /\ parsedWidths a' = numbers rs
         /\ (Qsum rs == Qsum [50; 50] + inject_Z (Z.of_nat 1) * 20)%Q.
Proof.
  eexists. split; [vm_compute; reflexivity|].
  apply (insertion_raises_the_sum grownMap false grownTable
           [percent 50; percent 50] [50%Q; 50%Q] 20%Q 1 1).
  - reflexivity.
  - exact NoDup_cells_grown.
  - reflexivity.
  - reflexivity.
  - apply (insertion_inside grownMap grownTable _ [(1%positive, 0)] 2%positive 2 [] 1).
    + reflexivity.
    + apply Forall_cons. split; [right; reflexivity|constructor].
    + reflexivity.
    + lia.
    + constructor.
    + reflexivity.
  - vm_compute. reflexivity.
Defined.


End PostFixerMoreExamples.

(** * The measurement at a press *)

Section Measurement.
Import Controller.
Local Open Scope nat_scope.
Context `{Utils}.

Lemma assign_length_ge (i : nat) (v : number) (arr : array) :
  length arr <= length (assign i v arr).
Proof.
  unfold assign. destruct (Nat.ltb_spec i (length arr)).
  - rewrite length_insert. lia.
  - rewrite length_app. lia.
Qed.

Lemma assign_length (i : nat) (v : number) (arr : array) :
  length (assign i v arr) = Nat.max (length arr) (S i).
Proof.
  unfold assign. destruct (Nat.ltb_spec i (length arr)).
  - rewrite length_insert. lia.
  - rewrite !length_app, length_replicate. simpl. lia.
Qed.

Lemma assign_lookup_same (i : nat) (v : number) (arr : array) :
  assign i v arr !! i = Some (Some v).
Proof.
  unfold assign. destruct (Nat.ltb_spec i (length arr)).
  - apply list_lookup_insert_eq. assumption.
  - rewrite lookup_app_r by assumption.
    rewrite lookup_app_r by (rewrite length_replicate; lia).
    rewrite length_replicate, Nat.sub_diag. reflexivity.
Qed.

Lemma assign_lookup_other (i j : nat) (v w : number) (arr : array) :
  i <> j ->
  assign i v arr !! j = Some (Some w) <-> arr !! j = Some (Some w).
Proof.
  intros Hij. unfold assign. destruct (Nat.ltb_spec i (length arr)).
  - rewrite list_lookup_insert_ne by assumption. reflexivity.
  - destruct (Nat.lt_ge_cases j (length arr)) as [Hj|Hj].
    + rewrite lookup_app_l by assumption. reflexivity.
    + rewrite lookup_app_r by assumption.
      rewrite (lookup_ge_None_2 arr j Hj).
      destruct (Nat.lt_ge_cases (j - length arr) (i - length arr)) as [Hlt|Hge].
      * rewrite lookup_app_l by (rewrite length_replicate; assumption).
        rewrite lookup_replicate_2 by assumption. split; discriminate.
      * rewrite lookup_app_r by (rewrite length_replicate; assumption).
        rewrite length_replicate.
        destruct (j - length arr - (i - length arr)) as [|k] eqn:Hk; [lia|].
        simpl. split; discriminate.
Qed.

(** What the loop of [_calculateDomColumnWidths] has after the slots [l],
    started with an array of [n] holes and the map [m]. *)
Lemma measure_invariant (width : cell -> number) (n : nat) (m : gmap cell nat)
    (l : list (cell * nat)) :
  let r := fold_left (measureCell width) l (replicate n None, m) in
  length r.1 = foldr (fun s k => Nat.max k (S s.2)) n l
  /\ (forall i v, r.1 !! i = Some (Some v) ->
        exists c, (c, i) ∈ l /\ v = toPrecision (width c))
  /\ (forall c i, (c, i) ∈ l -> exists v, r.1 !! i = Some (Some v))
  /\ (forall c p, m !! c = Some p -> r.2 !! c = Some p)
  /\ (forall c i, (c, i) ∈ l -> is_Some (r.2 !! c))
  /\ (forall c, c ∉ l.*1 -> r.2 !! c = m !! c)
  /\ (forall c i, m !! c = None -> r.2 !! c = Some i -> (c, i) ∈ l).
Proof.
  induction l as [|[c column] l IH] using rev_ind.
  - simpl. split; [apply length_replicate|]. split.
    { intros i v Hi. apply lookup_replicate in Hi as [Hi _]. discriminate. }
    split; [intros c i Hin; apply elem_of_nil in Hin; contradiction|].
    split; [intros c p Hc; exact Hc|].
    split; [intros c i Hin; apply elem_of_nil in Hin; contradiction|].
    split; [reflexivity|].
    intros c i Hnone Hsome. congruence.
  - rewrite fold_left_app. cbn [fold_left].
    destruct (fold_left (measureCell width) l (replicate n None, m)) as [px m1].
    cbn [fst snd] in IH.
    destruct IH as (Hlen & Hfrom & Hall & Hkeep & Hin & Hout & Hnew).
    unfold measureCell. cbn [fst snd].
    set (px' := if falsy (elem px column) || jlt (width c) (elem px column)
                then assign column (toPrecision (width c)) px else px).
    set (m' := match m1 !! c with None => <[c := column]> m1 | Some _ => m1 end).
    split.
    { rewrite foldr_app. cbn [foldr snd].
      assert (Hcol : forall k, foldr (fun s k => Nat.max k (S s.2)) k l
                               = Nat.max k (foldr (fun s k => Nat.max k (S s.2)) 0 l)).
      { clear. induction l as [|s l IHl]; intros k; simpl; [lia|].
        rewrite IHl. lia. }
      rewrite (Hcol (Nat.max n (S column))). rewrite (Hcol n) in Hlen. unfold px'.
      destruct (falsy (elem px column) || jlt (width c) (elem px column)) eqn:Htest.
      - rewrite assign_length. lia.
      - assert (Hdef : exists v, px !! column = Some (Some v)).
        { unfold elem in Htest. destruct (px !! column) as [[v|]|];
            [exists v; reflexivity|discriminate|discriminate]. }
        destruct Hdef as (v & Hv). apply lookup_lt_Some in Hv. lia. }
    split.
    { intros i v Hi. unfold px' in Hi.
      destruct (falsy (elem px column) || jlt (width c) (elem px column)).
      - destruct (decide (column = i)) as [<-|Hne].
        + rewrite assign_lookup_same in Hi. injection Hi as <-.
          exists c. split; [|reflexivity]. apply elem_of_app. right. left.
        + apply assign_lookup_other in Hi; [|exact Hne].
          destruct (Hfrom i v Hi) as (c0 & Hc0 & Hv).
          exists c0. split; [apply elem_of_app; left; exact Hc0|exact Hv].
      - destruct (Hfrom i v Hi) as (c0 & Hc0 & Hv).
        exists c0. split; [apply elem_of_app; left; exact Hc0|exact Hv]. }
    split.
    { intros c0 i Hc0. unfold px'.
      destruct (falsy (elem px column) || jlt (width c) (elem px column)) eqn:Htest.
      - destruct (decide (column = i)) as [<-|Hne].
        + eexists. apply assign_lookup_same.
        + apply elem_of_app in Hc0 as [Hc0|Hc0].
          * destruct (Hall c0 i Hc0) as (v & Hv). exists v.
            apply assign_lookup_other; [exact Hne|exact Hv].
          * apply list_elem_of_singleton in Hc0. congruence.
      - apply elem_of_app in Hc0 as [Hc0|Hc0]; [apply (Hall c0 i Hc0)|].
        apply list_elem_of_singleton in Hc0. injection Hc0 as -> ->.
        unfold elem in Htest. destruct (px !! column) as [[v|]|];
          [exists v; reflexivity|discriminate|discriminate]. }
    split.
    { intros c0 p Hc0. apply Hkeep in Hc0. unfold m'.
      destruct (m1 !! c) eqn:Hc; [exact Hc0|].
      rewrite lookup_insert_ne; [exact Hc0|]. intros ->. congruence. }
    split.
    { intros c0 i Hc0. unfold m'. apply elem_of_app in Hc0 as [Hc0|Hc0].
      - destruct (Hin c0 i Hc0) as (p & Hp).
        destruct (m1 !! c) eqn:Hc; [exists p; exact Hp|].
        destruct (decide (c = c0)) as [->|Hne]; [congruence|].
        rewrite lookup_insert_ne by exact Hne. exists p. exact Hp.
      - apply list_elem_of_singleton in Hc0. injection Hc0 as -> ->.
        destruct (m1 !! c) eqn:Hc; [eexists; exact Hc|].
        rewrite lookup_insert_eq. eexists. reflexivity. }
    split.
    { intros c0 Hc0. rewrite fmap_app in Hc0.
      assert (Hl : c0 ∉ l.*1) by (intros Hl; apply Hc0, elem_of_app; left; exact Hl).
      assert (Hne : c <> c0).
      { intros ->. apply Hc0, elem_of_app. right. left. }
      unfold m'. destruct (m1 !! c); [apply Hout; exact Hl|].
      rewrite lookup_insert_ne by exact Hne. apply Hout. exact Hl. }
    intros c0 i Hnone Hsome. unfold m' in Hsome.
    destruct (m1 !! c) eqn:Hc.
    + apply elem_of_app. left. apply (Hnew c0 i Hnone Hsome).
    + destruct (decide (c = c0)) as [->|Hne].
      * rewrite lookup_insert_eq in Hsome. injection Hsome as <-.
        apply elem_of_app. right. left.
      * rewrite lookup_insert_ne in Hsome by exact Hne.
        apply elem_of_app. left. apply (Hnew c0 i Hnone Hsome).
Qed.

(** The array of a press has an entry for every column of the table. *)
Lemma calculateDomColumnWidths_length (t : table) (m : gmap cell nat)
    (width : cell -> number) :
  getColumns t <= length (calculateDomColumnWidths t m width).1
  /\ ((forall c i, (c, i) ∈ walker t -> i < getColumns t) ->
      length (calculateDomColumnWidths t m width).1 = getColumns t).
Proof.
  unfold calculateDomColumnWidths.
  destruct (measure_invariant width (getColumns t) m (walker t)) as (Hlen & _).
  assert (Hbound : forall (l : list (cell * nat)) n,
             n <= foldr (fun s k => Nat.max k (S s.2)) n l
             /\ ((forall c i, (c, i) ∈ l -> i < n) ->
                 foldr (fun s k => Nat.max k (S s.2)) n l = n)).
  { clear. induction l as [|[c i] l IHl]; intros n; simpl; [split; [lia|reflexivity]|].
    destruct (IHl n) as (Hge & Heq). split; [lia|].
    intros Hin. rewrite Heq.
    - assert (i < n) by (apply (Hin c); left). lia.
    - intros c0 i0 Hc0. apply (Hin c0). right. exact Hc0. }
  destruct (Hbound (walker t) (getColumns t)) as (Hge & Heq).
  rewrite Hlen. split; [exact Hge|exact Heq].
Qed.

(** The widths a press measures.  The array has an entry for every column
    of the table; an entry that is a number is the rounded width of a cell
    the walker yields in that column; every column that has a cell has a
    number or [NaN], and columns without cells stay holes; when all cells
    are in columns of the table, the array is exactly as long as the table
    has columns. *)
Theorem press_measures_each_column (t : table) (m : gmap cell nat)
    (width : cell -> number) :
  let columnWidthsInPx := (calculateDomColumnWidths t m width).1 in
  getColumns t <= length columnWidthsInPx
  /\ (forall i v, columnWidthsInPx !! i = Some (Some v) ->
        exists c, (c, i) ∈ walker t /\ v = toPrecision (width c))
  /\ (forall c i, (c, i) ∈ walker t -> exists v, columnWidthsInPx !! i = Some (Some v))
  /\ ((forall c i, (c, i) ∈ walker t -> i < getColumns t) ->
      length columnWidthsInPx = getColumns t).
Proof.
  intros px. unfold px.
  destruct (calculateDomColumnWidths_length t m width) as (Hge & Heq).
  destruct (measure_invariant width (getColumns t) m (walker t))
    as (_ & Hfrom & Hall & _).
  split; [exact Hge|]. split; [exact Hfrom|]. split; [exact Hall|exact Heq].
Qed.

(** The press and the column index map.  A press on a handle while
    resizing is allowed records the cells the map does not have yet, each
    with a column the walker yields it in; it never changes the column of a
    cell the map has, so a cell that moved is still seen as moved by the
    post-fixer.  Any other press leaves the map as it is. *)
Theorem press_records_new_cells_only (ev : mouseDown) (e : editor) :
  let m := columnIndexMap e in
  let m' := columnIndexMap (onMouseDownHandler ev e) in
  (forall c p, m !! c = Some p -> m' !! c = Some p)
  /\ (forall c i, m !! c = None -> m' !! c = Some i -> (c, i) ∈ walker (modelTable e))
  /\ (targetIsResizer ev = true -> isResizingAllowed e = true ->
      forall c i, (c, i) ∈ walker (modelTable e) -> is_Some (m' !! c))
  /\ (targetIsResizer ev && isResizingAllowed e = false -> m' = m).
Proof.
  intros m m'. subst m m'. unfold onMouseDownHandler.
  destruct (targetIsResizer ev); cbn [negb andb];
    [|repeat split; intros; simpl in *; congruence].
  destruct (isResizingAllowed e) eqn:Hallowed; cbn [negb];
    [|repeat split; intros; simpl in *; congruence].
  unfold calculateDomColumnWidths.
  destruct (measure_invariant (getDomCellOuterWidth ev) (getColumns (modelTable e))
              (columnIndexMap e) (walker (modelTable e)))
    as (_ & _ & _ & Hkeep & Hin & _ & Hnew).
  destruct (fold_left (measureCell (getDomCellOuterWidth ev)) (walker (modelTable e))
              (replicate (getColumns (modelTable e)) None, columnIndexMap e))
    as [px m1].
  cbn [fst snd columnIndexMap] in *.
  split; [exact Hkeep|]. split; [exact Hnew|].
  split; [intros _ _; exact Hin|discriminate].
Qed.

End Measurement.

(** * Drags and releases *)

Section DragFacts.
Import Controller Gesture Drag.
Local Open Scope nat_scope.
Context `{Utils}.

Lemma differInDraggedStyles_refl (d : resizingData) (v : view) :
  differInDraggedStyles d v v.
Proof.
  unfold differInDraggedStyles. repeat split.
  destruct (colgroup v); [split; reflexivity|exact I].
Qed.

(** A drag step changes nothing but the view, and there only the styles
    of the session. *)
Lemma move_frame (x : number) (e e' : editor) (d : resizingData) (v0 : view) :
  isResizingActive e = true ->
  isResizingAllowed e = true ->
  session e = Some d ->
  differInDraggedStyles d v0 (viewTable e) ->
  onMouseMoveHandler x e = Some e' ->
  e' = withView (viewTable e') e
  /\ differInDraggedStyles d v0 (viewTable e').
Proof.
  intros Hactive Hallowed Hsession Hdiff Hmove.
  unfold onMouseMoveHandler in Hmove.
  rewrite Hactive, Hallowed, Hsession in Hmove. cbn [negb] in Hmove.
  destruct (jeq (dragOffset d x) (Num 0)).
  { injection Hmove as <-. split; [destruct e; reflexivity|exact Hdiff]. }
  destruct (resizeView d (dragOffset d x) (viewTable e)) as [v|] eqn:Hview;
    [|discriminate].
  injection Hmove as <-.
  split; [unfold withView; cbn; rewrite Hactive, Hallowed, Hsession; reflexivity|].
  cbn [viewTable].
  destruct Hdiff as (Hres & Hact & Hfig & Hcols).
  unfold resizeView, setColumnStyle in Hview.
  destruct (colgroup (viewTable e)) as [cols|] eqn:Hc; [|discriminate].
  destruct (colgroup v0) as [cols0|] eqn:Hc0; [|contradiction].
  destruct Hcols as (Hlen & Hsame).
  destruct (viewLeftColumn d <? length cols); [|discriminate].
  destruct (isRightEdge d) eqn:Hedge.
  - injection Hview as <-. unfold differInDraggedStyles. cbn.
    rewrite Hc0, Hedge. repeat split; try assumption; try discriminate.
    + rewrite length_insert. exact Hlen.
    + intros k Hk Hr. rewrite list_lookup_insert_ne by congruence.
      apply Hsame; [exact Hk|discriminate].
  - destruct (viewRightColumn d) as [j|] eqn:Hj; [|discriminate].
    cbn [colgroup] in Hview.
    destruct (j <? length (<[viewLeftColumn d := _]> cols)); [|discriminate].
    injection Hview as <-. unfold differInDraggedStyles. cbn.
    rewrite Hc0, Hedge. repeat split; try assumption.
    + rewrite !length_insert. exact Hlen.
    + intros k Hk Hr. specialize (Hr eq_refl).
      rewrite !list_lookup_insert_ne by congruence.
      apply Hsame; [exact Hk|intros _; rewrite <- Hj; exact Hr].
Qed.

Lemma drag_frame (xs : list number) (e e' : editor) (d : resizingData) (v0 : view) :
  isResizingActive e = true ->
  isResizingAllowed e = true ->
  session e = Some d ->
  differInDraggedStyles d v0 (viewTable e) ->
  drag xs e = Some e' ->
  e' = withView (viewTable e') e
  /\ differInDraggedStyles d v0 (viewTable e').
Proof.
  revert e. induction xs as [|x xs IH]; intros e Hactive Hallowed Hsession Hdiff Hdrag;
    cbn [drag] in Hdrag.
  - injection Hdrag as <-. split; [destruct e; reflexivity|exact Hdiff].
  - destruct (onMouseMoveHandler x e) as [e1|] eqn:Hmove; [|discriminate].
    destruct (move_frame x e e1 d v0 Hactive Hallowed Hsession Hdiff Hmove)
      as (He1 & Hdiff1).
    assert (Hfields : isResizingActive e1 = true /\ isResizingAllowed e1 = true
                      /\ session e1 = Some d).
    { rewrite He1. cbn. repeat split; assumption. }
    destruct Hfields as (Ha1 & Hl1 & Hs1).
    destruct (IH e1 Ha1 Hl1 Hs1 Hdiff1 Hdrag) as (He' & Hdiff').
    split; [|exact Hdiff'].
    etransitivity; [exact He'|]. rewrite He1. reflexivity.
Qed.

(** The styles a step writes do not depend on the styles it overwrites. *)
Lemma resizeView_overwrites (d : resizingData) (dx : number) (v v1 : view) :
  differInDraggedStyles d v v1 ->
  resizeView d dx v1 = resizeView d dx v.
Proof.
  intros (Hres & Hact & Hfig & Hcols).
  unfold resizeView, setColumnStyle.
  destruct (colgroup v) as [cols|] eqn:Hc, (colgroup v1) as [cols1|] eqn:Hc1;
    try contradiction; [|reflexivity].
  destruct Hcols as (Hlen & Hsame). rewrite Hlen.
  destruct (Nat.ltb_spec (viewLeftColumn d) (length cols)) as [Hleft|]; [|reflexivity].
  destruct (isRightEdge d) eqn:Hedge.
  - unfold setFigureStyle.
    cbn [colgroup figureWidth tableResized activeResizers].
    rewrite Hres, Hact. do 2 f_equal. f_equal.
    apply list_eq. intros k.
    destruct (decide (k = viewLeftColumn d)) as [->|Hk].
    + rewrite !list_lookup_insert_eq by lia. reflexivity.
    + rewrite !list_lookup_insert_ne by congruence.
      apply Hsame; [exact Hk|discriminate].
  - destruct (viewRightColumn d) as [j|] eqn:Hj; [|reflexivity].
    cbn [colgroup figureWidth tableResized activeResizers].
    rewrite !length_insert, Hlen.
    destruct (Nat.ltb_spec j (length cols)) as [Hright|]; [|reflexivity].
    rewrite Hres, Hact, (Hfig eq_refl). do 2 f_equal. f_equal.
    apply list_eq. intros k.
    destruct (decide (k = j)) as [->|Hkj].
    + rewrite !list_lookup_insert_eq by (rewrite length_insert; lia). reflexivity.
    + rewrite !(list_lookup_insert_ne _ j k) by congruence.
      destruct (decide (k = viewLeftColumn d)) as [->|Hk].
      * rewrite !list_lookup_insert_eq by lia. reflexivity.
      * rewrite !list_lookup_insert_ne by congruence.
        apply Hsame; [exact Hk|intros _; congruence].
Qed.

(** The last position decides.  Every drag step computes the widths from
    the measurements of the press, not from what the view shows: after any
    moves of an allowed session, a move to [x] whose offset is not zero
    gives the editor that a move to [x] right after the press gives.  A
    move whose offset is zero is skipped, so the view keeps the widths of
    the step before it. *)
Theorem last_move_decides (xs : list number) (x : number) (e e1 : editor)
    (d : resizingData) :
  isResizingActive e = true ->
  isResizingAllowed e = true ->
  session e = Some d ->
  drag xs e = Some e1 ->
  (jeq (dragOffset d x) (Num 0) = false ->
   onMouseMoveHandler x e1 = onMouseMoveHandler x e)
  /\ (jeq (dragOffset d x) (Num 0) = true ->
      onMouseMoveHandler x e1 = Some e1).
Proof.
  intros Hactive Hallowed Hsession Hdrag.
  destruct (drag_frame xs e e1 d (viewTable e) Hactive Hallowed Hsession
              (differInDraggedStyles_refl d _) Hdrag) as (He1 & Hdiff).
  assert (Hfields : isResizingActive e1 = true /\ isResizingAllowed e1 = true
                    /\ session e1 = Some d
                    /\ columnIndexMap e1 = columnIndexMap e
                    /\ modelTable e1 = modelTable e
                    /\ executed e1 = executed e).
  { rewrite He1. cbn. repeat split; assumption. }
  destruct Hfields as (Ha1 & Hl1 & Hs1 & Hmap & Hmodel & Hlog).
  unfold onMouseMoveHandler.
  rewrite Ha1, Hl1, Hs1, Hactive, Hallowed, Hsession. cbn [negb].
  split; intros Hdx; rewrite Hdx; [|reflexivity].
  rewrite (resizeView_overwrites d _ _ _ Hdiff), Hmap, Hmodel, Hlog.
  reflexivity.
Qed.

(** A finished gesture executes what the view shows.  After a press on a
    handle, any moves and a release, all while resizing is allowed, the
    session is closed and at most one command was executed.  None was
    executed exactly when the [columnWidths] and the [tableWidth] of the
    model table are the texts the [<colgroup>] and the figure show at the
    release, and then the model table is as it was.  Otherwise the one
    command carries the text the [<colgroup>] shows at the release as
    [columnWidths]; it is [resizeTableWidth], with the rounded width of the
    figure, exactly when the [tableWidth] of the model is not the width the
    figure shows. *)
Theorem allowed_gesture_commits_view_widths (ev : mouseDown) (xs : list number)
    (e e3 : editor) :
  targetIsResizer ev = true ->
  isResizingAllowed e = true ->
  pressDragRelease ev xs e = Some e3 ->
  exists e2,
    drag xs (onMouseDownHandler ev e) = Some e2
    /\ isResizingActive e3 = false
    /\ session e3 = None
    /\ ((same_opt_text (columnWidths (modelTable e))
                       (Some (colgroupWidths (viewTable e2))) = true
         /\ same_opt_token (tableWidth (modelTable e)) (figureWidth (viewTable e2)) = true
         /\ executed e3 = executed e
         /\ modelTable e3 = modelTable e)
        \/ (same_opt_token (tableWidth (modelTable e)) (figureWidth (viewTable e2)) = false
            /\ executed e3
               = resizeTableWidth
                   (Pct (toPrecision (parseFloat (figureWidth (viewTable e2)))))
                   (colgroupWidths (viewTable e2))
                 :: executed e)
        \/ (same_opt_token (tableWidth (modelTable e)) (figureWidth (viewTable e2)) = true
            /\ same_opt_text (columnWidths (modelTable e))
                             (Some (colgroupWidths (viewTable e2))) = false
            /\ executed e3
               = resizeColumnWidths (colgroupWidths (viewTable e2)) :: executed e)).
Proof.
  intros Htarget Hallowed Hgesture. unfold pressDragRelease in Hgesture.
  destruct (drag xs (onMouseDownHandler ev e)) as [e2|] eqn:Hdrag; [|discriminate].
  exists e2. split; [reflexivity|].
  destruct (press_opens_session ev e Htarget Hallowed)
    as (Ha1 & Hl1 & Hm1 & Hx1 & _ & (d & Hs1 & _) & _ & _).
  destruct (drag_keeps_session xs _ e2 Ha1 Hl1 Hdrag)
    as (Ha2 & Hl2 & Hs2 & Hm2 & Hx2 & _).
  rewrite Hs1 in Hs2. rewrite Hm1 in Hm2. rewrite Hx1 in Hx2.
  unfold onMouseUpHandler in Hgesture.
  rewrite Ha2, Hs2, Hl2, Hm2, Hx2 in Hgesture. cbn [negb] in Hgesture.
  destruct (same_opt_token (tableWidth (modelTable e)) (figureWidth (viewTable e2)))
    eqn:Htable;
    destruct (same_opt_text (columnWidths (modelTable e))
                (Some (colgroupWidths (viewTable e2)))) eqn:Hcolumns;
    cbn [negb orb] in Hgesture; injection Hgesture as <-; cbn;
    (split; [reflexivity|]); (split; [reflexivity|]).
  - left. repeat split.
  - right. right. repeat split.
  - right. left. repeat split.
  - right. left. repeat split.
Qed.

(** A press outside a handle.  The handler sets [_isResizingAllowed] to
    false and changes nothing else; a render in the dragging state
    [afterdragging] allows resizing again.  With no session open, the
    release that follows the press leaves the editor as it was, except that
    resizing is allowed afterwards, whatever the flag was before.  With a
    session open, the next move ends the session as a release does while
    resizing is not allowed: no command is executed and the model table
    stays as it is. *)
Theorem press_outside_a_handle (ev : mouseDown) (e : editor) :
  targetIsResizer ev = false ->
  onMouseDownHandler ev e = setResizingAllowed false e
  /\ isResizingAllowed (onMouseDownHandler ev e) = false
  /\ Listeners.listener Listeners.render
       (Listeners.Plugin (onMouseDownHandler ev e) Listeners.afterdragging)
     = Some (Listeners.Plugin (setResizingAllowed true e) Listeners.notdragging)
  /\ (isResizingActive e = false ->
      onMouseUpHandler (onMouseDownHandler ev e) = Some (setResizingAllowed true e))
  /\ (forall x d,
        isResizingActive e = true ->
        session e = Some d ->
        exists e3,
          onMouseMoveHandler x (onMouseDownHandler ev e) = Some e3
          /\ onMouseUpHandler (setResizingAllowed false e) = Some e3
          /\ isResizingActive e3 = false
          /\ isResizingAllowed e3 = false
          /\ session e3 = None
          /\ modelTable e3 = modelTable e
          /\ executed e3 = executed e).
Proof.
  intros Htarget.
  assert (Hpress : onMouseDownHandler ev e = setResizingAllowed false e).
  { unfold onMouseDownHandler. rewrite Htarget. reflexivity. }
  rewrite Hpress.
  split; [reflexivity|]. split; [reflexivity|]. split; [reflexivity|].
  split.
  - intros Hidle. unfold onMouseUpHandler, setResizingAllowed. cbn.
    rewrite Hidle. reflexivity.
  - intros x d Hactive Hsession.
    unfold onMouseMoveHandler. cbn. rewrite Hactive. cbn.
    unfold setResizingAllowed, onMouseUpHandler. cbn.
    rewrite Hactive, Hsession. cbn.
    destruct (negb (same_opt_text _ _) || negb (same_opt_token _ _));
      eexists; repeat split.
Qed.

End DragFacts.

(** * More about the offset of a drag step *)

Section OffsetFacts.
Import Controller Gesture.
Context `{Utils}.

Ltac order_split :=
  repeat match goal with
  | H : context [Qle_bool ?a ?b] |- _ =>
      let E := fresh "E" in
      destruct (Qle_bool a b) eqn:E;
      [apply Qle_bool_true in E|apply Qle_bool_false in E]
  | |- context [Qle_bool ?a ?b] =>
      let E := fresh "E" in
      destruct (Qle_bool a b) eqn:E;
      [apply Qle_bool_true in E|apply Qle_bool_false in E]
  end.

(** The clamp never works against a bound that is already violated: a left
    column at or below the minimum width is not made narrower; on the
    rightmost edge a table at or beyond the width of its container is not
    made wider; on an internal boundary a right column at or below the
    minimum is not made narrower. *)
Theorem offset_respects_violated_bounds (d : resizingData) (x : number)
    (dx l mn : Q) :
  leftColumnWidth d = Num l ->
  COLUMN_MIN_WIDTH_IN_PIXELS = Num mn ->
  dragOffset d x = Num dx ->
  ((l <= mn)%Q -> (0 <= dx)%Q)
  /\ (isRightEdge d = true ->
      forall tw pw, tableWidthInPixels d = Num tw -> viewFigureParentWidth d = Num pw ->
                    (pw <= tw)%Q -> (dx <= 0)%Q)
  /\ (isRightEdge d = false ->
      forall r, rightColumnWidth d = Num r -> (r <= mn)%Q -> (dx <= 0)%Q).
Proof.
  intros Hleft Hmin Hdx. unfold dragOffset in Hdx.
  destruct (jmin (dxLowerBound d) (Num 0)) as [lo|] eqn:Hlo.
  2: { unfold dxLowerBound in Hlo. rewrite Hleft, Hmin in Hlo. discriminate. }
  pose proof (jmin_zero_upper _ _ Hlo) as Hlo0.
  assert (Hlower : (lo <= dx)%Q).
  { apply (clamp_lower _ _ _ _ (fun h Hh => Qle_trans _ _ _ Hlo0 (jmax_zero_lower _ _ Hh)) Hdx). }
  repeat split.
  - intros Hstart. unfold dxLowerBound in Hlo. rewrite Hleft, Hmin in Hlo.
    cbv [jmin jadd jneg lift2] in Hlo. injection Hlo as Hlo'. revert Hlo'.
    order_split; intros <-; lra.
  - intros Hedge tw pw Htw Hpw Hstart.
    unfold dxUpperBound in Hdx. rewrite Hedge, Htw, Hpw in Hdx.
    cbv [jsub jmax lift2] in Hdx.
    assert (Hupper : (dx <= (if Qle_bool (pw - tw) 0 then 0 else pw - tw))%Q).
    { refine (clamp_upper _ _ _ _ _ Hdx).
      intros l' Hl'. injection Hl' as <-. order_split; lra. }
    revert Hupper. order_split; lra.
  - intros Hedge r Hr Hstart.
    unfold dxUpperBound in Hdx. rewrite Hedge, Hr, Hmin in Hdx.
    cbv [jsub jmax lift2] in Hdx.
    assert (Hupper : (dx <= (if Qle_bool (r - mn) 0 then 0 else r - mn))%Q).
    { refine (clamp_upper _ _ _ _ _ Hdx).
      intros l' Hl'. injection Hl' as <-. order_split; lra. }
    revert Hupper. order_split; lra.
Qed.

End OffsetFacts.

(** * The listeners *)

Section ListenerFacts.
Import Controller Gesture Listeners.
Local Open Scope nat_scope.
Context `{Utils}.

Lemma restoreColumns_length (cols : list (option token)) (ws : list token) :
  length (restoreColumns cols ws) = length cols.
Proof.
  revert ws. induction cols as [|c cols IH]; intros ws; [reflexivity|].
  destruct ws as [|w ws]; simpl; f_equal; apply IH.
Qed.

Lemma execute_getColumns (c : command) (t : table) :
  getColumns (execute c t) = getColumns t.
Proof. destruct c; reflexivity. Qed.

(** Changing what resizing is allowed to do does not touch the session. *)
Lemma sessionFits_allowed (n : nat) (b : bool) (e : editor) :
  sessionFits n e -> sessionFits n (setResizingAllowed b e).
Proof. intros Hfit. exact Hfit. Qed.

Lemma release_fits (n : nat) (e : editor) :
  sessionFits n e ->
  exists e', onMouseUpHandler e = Some e' /\ sessionFits n e'.
Proof.
  intros (Hn & Hcols & Hsession). unfold onMouseUpHandler.
  destruct (isResizingActive e) eqn:Hactive; cbn [negb].
  2: { eexists. split; [reflexivity|]. unfold sessionFits. cbn.
       split; [exact Hn|]. split; [exact Hcols|discriminate]. }
  destruct (Hsession eq_refl) as (d & Hd & _ & _ & cols & Hc).
  rewrite Hd.
  destruct (negb (same_opt_text _ _) || negb (same_opt_token _ _)).
  - destruct (isResizingAllowed e).
    + eexists. split; [reflexivity|]. unfold sessionFits. cbn.
      split; [rewrite execute_getColumns; exact Hn|].
      split; [exact Hcols|discriminate].
    + eexists. split; [reflexivity|]. unfold sessionFits. cbn.
      split; [exact Hn|]. split; [|discriminate].
      intros cols'. rewrite Hc.
      destruct (columnWidths (modelTable e)) as [a|]; [|discriminate].
      destruct (nonempty_text a); [|discriminate].
      intros Hcols'. injection Hcols' as <-. rewrite restoreColumns_length.
      apply Hcols. exact Hc.
  - eexists. split; [reflexivity|]. unfold sessionFits. cbn.
    split; [exact Hn|]. split; [exact Hcols|discriminate].
Qed.

Lemma move_fits (n : nat) (x : number) (e : editor) :
  sessionFits n e ->
  exists e', onMouseMoveHandler x e = Some e' /\ sessionFits n e'.
Proof.
  intros Hfit. unfold onMouseMoveHandler.
  destruct (isResizingActive e) eqn:Hactive; cbn [negb];
    [|exists e; split; [reflexivity|exact Hfit]].
  destruct (isResizingAllowed e) eqn:Hallowed; cbn [negb];
    [|apply release_fits; exact Hfit].
  destruct Hfit as (Hn & Hcols & Hsession).
  destruct (Hsession Hactive) as (d & Hd & Hleft & Hright & cols & Hc).
  rewrite Hd.
  destruct (jeq (dragOffset d x) (Num 0));
    [exists e; split; [reflexivity|]; split; [exact Hn|]; split; assumption|].
  pose proof (Hcols cols Hc) as Hlen.
  unfold resizeView, setColumnStyle. rewrite Hc.
  destruct (Nat.ltb_spec (viewLeftColumn d) (length cols)) as [_|]; [|lia].
  destruct (isRightEdge d) eqn:Hedge.
  - eexists. split; [reflexivity|]. unfold sessionFits. cbn.
    split; [exact Hn|]. split.
    + intros cols' Hcols'. injection Hcols' as <-. rewrite length_insert. exact Hlen.
    + intros _. exists d. rewrite Hedge.
      split; [reflexivity|]. split; [exact Hleft|]. split; [discriminate|].
      eexists. reflexivity.
  - destruct (Hright eq_refl) as (j & Hj & Hjn). rewrite Hj.
    cbn [colgroup]. rewrite length_insert.
    destruct (Nat.ltb_spec j (length cols)) as [_|]; [|lia].
    eexists. split; [reflexivity|]. unfold sessionFits. cbn.
    split; [exact Hn|]. split.
    + intros cols' Hcols'. injection Hcols' as <-. rewrite !length_insert. exact Hlen.
    + intros _. exists d. rewrite Hedge.
      split; [reflexivity|]. split; [exact Hleft|].
      split; [intros _; exists j; split; assumption|].
      eexists. reflexivity.
Qed.

Lemma press_fits (n : nat) (ev : mouseDown) (e : editor) :
  sessionFits n e ->
  (targetIsResizer ev = true -> leftColumnIndex ev < n) ->
  sessionFits n (onMouseDownHandler ev e).
Proof.
  intros Hfit Hcolumn. unfold onMouseDownHandler.
  destruct (targetIsResizer ev) eqn:Htarget; cbn [negb]; [|exact Hfit].
  destruct (isResizingAllowed e) eqn:Hallowed; cbn [negb]; [|exact Hfit].
  destruct Hfit as (Hn & Hcols & _).
  pose proof (calculateDomColumnWidths_length (modelTable e) (columnIndexMap e)
                (getDomCellOuterWidth ev)) as (Hpx & _).
  destruct (calculateDomColumnWidths (modelTable e) (columnIndexMap e)
              (getDomCellOuterWidth ev)) as [px m].
  cbn [fst] in Hpx. specialize (Hcolumn eq_refl).
  unfold sessionFits. cbn.
  split; [exact Hn|]. split.
  - intros cols.
    destruct (colgroup (viewTable e)) as [cols0|] eqn:Hc; cbn.
    + intros Hcols0. rewrite Hc in Hcols0. apply Hcols. exact Hcols0.
    + intros Hcols0. injection Hcols0 as <-. unfold insertColgroupElement.
      rewrite length_imap. lia.
  - intros _. eexists. split; [reflexivity|]. cbn. rewrite Hn.
    split; [exact Hcolumn|]. split.
    + destruct (Nat.eqb_spec (leftColumnIndex ev + 1) n) as [|Hne]; [discriminate|].
      intros _. eexists. split; [reflexivity|]. lia.
    + destruct (colgroup (viewTable e)) eqn:Hc; cbn;
        [rewrite Hc|]; eexists; reflexivity.
Qed.

Lemma listener_fits (n : nat) (evt : event) (p : plugin) :
  sessionFits n (resizing p) ->
  pressesColumn n evt ->
  exists p', listener evt p = Some p' /\ sessionFits n (resizing p').
Proof.
  intros Hfit Hcolumn. destruct evt as [ev|x| |buttons| | | |value]; cbn [listener].
  - eexists. split; [reflexivity|]. apply press_fits; assumption.
  - destruct (move_fits n x _ Hfit) as (e' & -> & Hfit').
    eexists. split; [reflexivity|exact Hfit'].
  - destruct (release_fits n _ Hfit) as (e' & -> & Hfit').
    eexists. split; [reflexivity|exact Hfit'].
  - unfold onDragLeaveHandler. destruct (buttons =? 0).
    + destruct (release_fits n _ Hfit) as (e' & -> & Hfit').
      eexists. split; [reflexivity|exact Hfit'].
    + eexists. split; [reflexivity|exact Hfit].
  - eexists. split; [reflexivity|exact Hfit].
  - eexists. split; [reflexivity|exact Hfit].
  - destruct (draggingState p); eexists; (split; [reflexivity|exact Hfit]).
  - eexists. split; [reflexivity|exact Hfit].
Qed.

Lemma fire_fits (n : nat) (evts : list event) (p : plugin) :
  sessionFits n (resizing p) ->
  Forall (pressesColumn n) evts ->
  exists p', fire evts p = Some p' /\ sessionFits n (resizing p').
Proof.
  revert p. induction evts as [|evt evts IH]; intros p Hfit Hall; cbn [fire].
  - exists p. split; [reflexivity|exact Hfit].
  - apply Forall_cons in Hall as [Hevt Hall].
    destruct (listener_fits n evt p Hfit Hevt) as (p1 & -> & Hfit1).
    apply IH; assumption.
Qed.

(** The handlers do not fail while the presses are on columns of the
    table.  Start with no session open and a [<colgroup>], if the table
    has one, that has a [<col>] for each column; let the column index of
    every press on a handle, which is read from the column index map, be a
    column of the table.  Then, whatever events follow one another, no
    listener raises a [TypeError]: an open session always has its data, and
    the [<col>]s it writes are there.  The number of columns of the table
    never changes.  The condition on the presses is needed, see
    [stale_column_index_makes_the_move_fail]. *)
Theorem listeners_do_not_fail_on_columns_of_the_table (evts : list event)
    (p : plugin) :
  isResizingActive (resizing p) = false ->
  (forall cols, colgroup (viewTable (resizing p)) = Some cols ->
                getColumns (modelTable (resizing p)) <= length cols) ->
  Forall (pressesColumn (getColumns (modelTable (resizing p)))) evts ->
  exists p',
    fire evts p = Some p'
    /\ getColumns (modelTable (resizing p')) = getColumns (modelTable (resizing p))
    /\ (isResizingActive (resizing p') = true ->
        exists d, session (resizing p') = Some d).
Proof.
  intros Hidle Hcols Hall.
  assert (Hfit : sessionFits (getColumns (modelTable (resizing p))) (resizing p)).
  { split; [reflexivity|]. split; [exact Hcols|]. rewrite Hidle. discriminate. }
  destruct (fire_fits _ evts p Hfit Hall) as (p' & Hfire & Hn & _ & Hsession).
  exists p'. split; [exact Hfire|]. split; [exact Hn|].
  intros Hactive. destruct (Hsession Hactive) as (d & Hd & _). exists d. exact Hd.
Qed.

(** A stale column index makes the move fail.  The press takes the column
    of the handle from the column index map and does not check it against
    the [<colgroup>].  When the index is not the position of a [<col>], the
    press still opens a session, and the first move whose offset is not
    zero fails with a [TypeError]: the [<col>] whose width it sets is
    [undefined]. *)
Theorem stale_column_index_makes_the_move_fail (ev : mouseDown) (e : editor)
    (s : dragging) (x : number) (cols : list (option token)) :
  targetIsResizer ev = true ->
  isResizingAllowed e = true ->
  colgroup (viewTable e) = Some cols ->
  length cols <= leftColumnIndex ev ->
  exists d,
    session (onMouseDownHandler ev e) = Some d
    /\ isResizingActive (onMouseDownHandler ev e) = true
    /\ (jeq (dragOffset d x) (Num 0) = false ->
        onMouseMoveHandler x (onMouseDownHandler ev e) = None
        /\ fire [mousedown ev; mousemove x] (Plugin e s) = None).
Proof.
  intros Htarget Hallowed Hcols Hstale.
  assert (Hmove : exists d,
             session (onMouseDownHandler ev e) = Some d
             /\ isResizingActive (onMouseDownHandler ev e) = true
             /\ (jeq (dragOffset d x) (Num 0) = false ->
                 onMouseMoveHandler x (onMouseDownHandler ev e) = None)).
  { unfold onMouseDownHandler. rewrite Htarget, Hallowed. cbn [negb].
    destruct (calculateDomColumnWidths _ _ _) as [px m].
    eexists. split; [reflexivity|]. split; [reflexivity|].
    intros Hdx. unfold onMouseMoveHandler.
    cbn [isResizingActive isResizingAllowed session negb viewTable].
    rewrite Hdx.
    unfold resizeView, setColumnStyle, applyResizingAttributesToTable.
    rewrite Hcols. cbn [colgroup getResizingData viewLeftColumn].
    rewrite Hcols.
    destruct (Nat.ltb_spec (leftColumnIndex ev) (length cols)) as [|_]; [lia|].
    reflexivity. }
  destruct Hmove as (d & Hd & Hactive & Hfail).
  exists d. split; [exact Hd|]. split; [exact Hactive|].
  intros Hdx. split; [exact (Hfail Hdx)|].
  cbn [fire listener resizing withEditor]. rewrite (Hfail Hdx). reflexivity.
Qed.

(** ** What changes the model *)

Lemma release_frame (e e' : editor) :
  onMouseUpHandler e = Some e' ->
  (modelTable e' = modelTable e /\ executed e' = executed e)
  \/ (isResizingActive e = true /\ isResizingAllowed e = true
      /\ isResizingActive e' = false
      /\ exists c, executed e' = c :: executed e
                   /\ (c = resizeColumnWidths (colgroupWidths (viewTable e))
                       \/ c = resizeTableWidth
                                (Pct (toPrecision (parseFloat (figureWidth (viewTable e)))))
                                (colgroupWidths (viewTable e)))).
Proof.
  unfold onMouseUpHandler.
  destruct (isResizingActive e) eqn:Hactive; cbn [negb].
  2: { intros He'. injection He' as <-. left. split; reflexivity. }
  destruct (session e) as [d|]; [|discriminate].
  destruct (negb (same_opt_text _ _) || negb (same_opt_token _ _)).
  - destruct (isResizingAllowed e) eqn:Hallowed.
    + intros He'. injection He' as <-. right. cbn.
      repeat split. eexists. split; [reflexivity|].
      destruct (negb (same_opt_token _ _)); [right|left]; reflexivity.
    + intros He'. injection He' as <-. left. split; reflexivity.
  - intros He'. injection He' as <-. left. split; reflexivity.
Qed.

(** Only a release executes a command.  A listener executes a command
    only when it is the [mouseup] listener, or the [dragleave] listener
    with no button held, a session is open and resizing is allowed; it then
    executes exactly one command, which carries the text the [<colgroup>]
    shows as [columnWidths], and closes the session.  Every other call, as
    a press, a move, a render or a release while resizing is not allowed,
    executes nothing and leaves the model table as it is. *)
Theorem only_an_allowed_release_executes_a_command (evt : event) (p p' : plugin) :
  listener evt p = Some p' ->
  (modelTable (resizing p') = modelTable (resizing p)
   /\ executed (resizing p') = executed (resizing p))
  \/ ((evt = mouseup \/ evt = dragleave 0)
      /\ isResizingActive (resizing p) = true
      /\ isResizingAllowed (resizing p) = true
      /\ isResizingActive (resizing p') = false
      /\ exists c,
           executed (resizing p') = c :: executed (resizing p)
           /\ (c = resizeColumnWidths (colgroupWidths (viewTable (resizing p)))
               \/ c = resizeTableWidth
                        (Pct (toPrecision
                                (parseFloat (figureWidth (viewTable (resizing p))))))
                        (colgroupWidths (viewTable (resizing p))))).
Proof.
  destruct evt as [ev|x| |buttons| | | |value]; cbn [listener].
  - intros Hp'. injection Hp' as <-. left. cbn [resizing].
    unfold onMouseDownHandler.
    destruct (targetIsResizer ev); cbn [negb]; [|split; reflexivity].
    destruct (isResizingAllowed (resizing p)); cbn [negb]; [|split; reflexivity].
    destruct (calculateDomColumnWidths _ _ _). split; reflexivity.
  - destruct (onMouseMoveHandler x (resizing p)) as [e'|] eqn:Hmove; [|discriminate].
    intros Hp'. injection Hp' as <-. left. cbn [resizing].
    unfold onMouseMoveHandler in Hmove.
    destruct (isResizingActive (resizing p)) eqn:Hactive; cbn [negb] in Hmove;
      [|injection Hmove as <-; split; reflexivity].
    destruct (isResizingAllowed (resizing p)) eqn:Hallowed; cbn [negb] in Hmove.
    + destruct (session (resizing p)) as [d|]; [|discriminate].
      destruct (jeq (dragOffset d x) (Num 0));
        [injection Hmove as <-; split; reflexivity|].
      destruct (resizeView d (dragOffset d x) (viewTable (resizing p)));
        [|discriminate].
      injection Hmove as <-. split; reflexivity.
    + destruct (release_frame _ _ Hmove) as [Hsame|(_ & Habs & _)];
        [exact Hsame|congruence].
  - destruct (onMouseUpHandler (resizing p)) as [e'|] eqn:Hup; [|discriminate].
    intros Hp'. injection Hp' as <-. cbn [resizing].
    destruct (release_frame _ _ Hup) as [Hsame|(Ha & Hl & Ha' & Hc)];
      [left; exact Hsame|right].
    split; [left; reflexivity|]. repeat split; assumption.
  - unfold onDragLeaveHandler.
    destruct (Nat.eqb_spec buttons 0) as [->|Hne].
    + destruct (onMouseUpHandler (resizing p)) as [e'|] eqn:Hup; [|discriminate].
      intros Hp'. injection Hp' as <-. cbn [resizing].
      destruct (release_frame _ _ Hup) as [Hsame|(Ha & Hl & Ha' & Hc)];
        [left; exact Hsame|right].
      split; [right; reflexivity|]. repeat split; assumption.
    + intros Hp'. injection Hp' as <-. left. split; reflexivity.
  - intros Hp'. injection Hp' as <-. left. split; reflexivity.
  - intros Hp'. injection Hp' as <-. left. split; reflexivity.
  - destruct (draggingState p); intros Hp'; injection Hp' as <-; left;
      split; reflexivity.
  - intros Hp'. injection Hp' as <-. left. split; reflexivity.
Qed.

(** ** The dragging state *)

Lemma pointer_keeps_draggingState (evt : event) (p p' : plugin) :
  isPointerEvent evt = true ->
  listener evt p = Some p' ->
  draggingState p' = draggingState p.
Proof.
  destruct evt as [ev|x| |buttons| | | |value]; cbn [listener isPointerEvent];
    try discriminate; intros _.
  - intros Hp'. injection Hp' as <-. reflexivity.
  - destruct (onMouseMoveHandler x (resizing p)); [|discriminate].
    intros Hp'. injection Hp' as <-. reflexivity.
  - destruct (onMouseUpHandler (resizing p)); [|discriminate].
    intros Hp'. injection Hp' as <-. reflexivity.
  - destruct (onDragLeaveHandler buttons (resizing p)); [|discriminate].
    intros Hp'. injection Hp' as <-. reflexivity.
  - intros Hp'. injection Hp' as <-. reflexivity.
Qed.

Lemma pointers_keep_draggingState (evts : list event) (p p' : plugin) :
  forallb isPointerEvent evts = true ->
  fire evts p = Some p' ->
  draggingState p' = draggingState p.
Proof.
  revert p. induction evts as [|evt evts IH]; intros p Hall Hfire; cbn [fire] in Hfire.
  - injection Hfire as <-. reflexivity.
  - cbn [forallb] in Hall. apply andb_prop in Hall as [Hevt Hall].
    destruct (listener evt p) as [p1|] eqn:Hstep; [|discriminate].
    rewrite (IH p1 Hall Hfire). apply (pointer_keeps_draggingState evt); assumption.
Qed.

Lemma fire_app (evts1 evts2 : list event) (p : plugin) :
  fire (evts1 ++ evts2) p
  = match fire evts1 p with Some p1 => fire evts2 p1 | None => None end.
Proof.
  revert p. induction evts1 as [|evt evts1 IH]; intros p; cbn [app fire];
    [reflexivity|].
  destruct (listener evt p); [apply IH|reflexivity].
Qed.

(** Resizing is allowed again at the render after a drop.  A [drop] sets
    the dragging state, which only the listeners of [drop], [dragstart]
    and [render] touch; whatever pointer events and changes of the flag
    follow, the next [render] sets [_isResizingAllowed] and puts the state
    back to [notdragging].  A [render] in any other state leaves the plugin
    as it is. *)
Theorem render_after_drop_allows_resizing (evts : list event) (p p' : plugin) :
  forallb isPointerEvent evts = true ->
  fire (drop :: evts ++ [render]) p = Some p' ->
  isResizingAllowed (resizing p') = true
  /\ draggingState p' = notdragging
  /\ listener render p' = Some p'.
Proof.
  intros Hall Hfire. cbn [fire listener] in Hfire.
  rewrite fire_app in Hfire.
  destruct (fire evts (Plugin (resizing p) afterdragging)) as [p1|] eqn:H1;
    [|discriminate].
  apply (pointers_keep_draggingState evts _ _ Hall) in H1. cbn in H1.
  cbn [fire listener] in Hfire. rewrite H1 in Hfire. injection Hfire as <-.
  cbn. repeat split.
Qed.

End ListenerFacts.

(** * The anchors of a document *)

Section AnchorFacts.
Import Anchors.
Context {value : Type} (String : value -> String.string).

Lemma visitRoot_elements (range : list (@item value)) (ret : list AnchorItem) :
  map element (visitRoot String ret range)
  = map element ret ++ List.filter hasAnchor range.
Proof.
  revert ret. unfold visitRoot.
  induction range as [|it range IH]; intros ret; cbn [fold_left List.filter].
  - rewrite app_nil_r. reflexivity.
  - rewrite IH. unfold visitItem, hasAnchor.
    destruct (anchorName it) as [v|]; [|reflexivity].
    rewrite map_app, <- app_assoc. reflexivity.
Qed.

Lemma visitRoot_keyed (range : list (@item value)) (ret : list AnchorItem) :
  Forall (keyed String) ret -> Forall (keyed String) (visitRoot String ret range).
Proof.
  revert ret. unfold visitRoot.
  induction range as [|it range IH]; intros ret Hret; cbn [fold_left];
    [exact Hret|].
  apply IH. unfold visitItem.
  destruct (anchorName it) as [v|] eqn:Hv; [|exact Hret].
  apply Forall_app. split; [exact Hret|].
  apply Forall_cons. split; [|constructor].
  exists v. split; [exact Hv|reflexivity].
Qed.

Lemma visitRoots_elements (roots : list (list (@item value))) (ret : list AnchorItem) :
  map element (fold_left (visitRoot String) roots ret)
  = map element ret ++ List.filter hasAnchor (concat roots).
Proof.
  revert ret. induction roots as [|range roots IH]; intros ret;
    cbn [fold_left concat].
  - rewrite app_nil_r. reflexivity.
  - rewrite IH, visitRoot_elements, List.filter_app, <- app_assoc. reflexivity.
Qed.

Lemma visitRoots_keyed (roots : list (list (@item value))) (ret : list AnchorItem) :
  Forall (keyed String) ret -> Forall (keyed String) (fold_left (visitRoot String) roots ret).
Proof.
  revert ret. induction roots as [|range roots IH]; intros ret Hret;
    cbn [fold_left]; [exact Hret|].
  apply IH, visitRoot_keyed, Hret.
Qed.

(** [getAnchors] returns the items that have an [anchorName], root after
    root in the order the ranges yield them: no item with an anchor is
    left out, none without one is returned, and an item is returned as
    often as the ranges yield it, also when another item has the same
    name.  The key of each entry is the string of the item's anchor
    name. *)
Theorem getAnchors_lists_the_anchored_items (roots : list (list (@item value))) :
  map element (getAnchors String roots) = List.filter hasAnchor (concat roots)
  /\ Forall (fun a => exists v, anchorName (element a) = Some v /\ key a = String v)
            (getAnchors String roots)
  /\ length (getAnchors String roots)
     = length (List.filter hasAnchor (concat roots)).
Proof.
  unfold getAnchors.
  pose proof (visitRoots_elements roots []) as Helements. cbn [map app] in Helements.
  split; [exact Helements|]. split.
  - apply (visitRoots_keyed roots []). constructor.
  - rewrite <- Helements, length_map. reflexivity.
Qed.

End AnchorFacts.

(** * The controller on the worked tables, continued *)

Section ControllerMoreExamples.
Import Controller Gesture Listeners Examples MoreGestures.
Local Existing Instance SpecUtils.utils.

(** After a move to 320, a move to 340 gives what it gives right after
    the press, and a move back to 300, the press position, is skipped. *)
Lemma last_move_decides_witness :
  exists e1 d,
    drag [Num 320] pressedEditor = Some e1
    /\ session pressedEditor = Some d
    /\ (jeq (dragOffset d (Num 340)) (Num 0) = false ->
        onMouseMoveHandler (Num 340) e1 = onMouseMoveHandler (Num 340) pressedEditor)
    /\ (jeq (dragOffset d (Num 340)) (Num 0) = true ->
        onMouseMoveHandler (Num 340) e1 = Some e1).
Proof.
  eexists _, _.
  split; [vm_compute; reflexivity|].
  split; [reflexivity|].
  apply (last_move_decides [Num 320] (Num 340) pressedEditor).
  - reflexivity.
  - reflexivity.
  - reflexivity.
  - vm_compute. reflexivity.
Defined.

(** A left column of 30 pixels, below the minimum of 40: a pointer 50
    pixels left of the press position gives the offset 0. *)
Lemma offset_respects_violated_bounds_witness :
  dragOffset narrowSession (Num 250) = Num 0
  /\ ((30 <= 40)%Q -> (0 <= 0)%Q)
  /\ (isRightEdge narrowSession = true ->
      forall tw pw, tableWidthInPixels narrowSession = Num tw ->
                    viewFigureParentWidth narrowSession = Num pw ->
                    (pw <= tw)%Q -> (0 <= 0)%Q)
  /\ (isRightEdge narrowSession = false ->
      forall r, rightColumnWidth narrowSession = Num r -> (r <= 40)%Q -> (0 <= 0)%Q).
Proof.
  split; [vm_compute; reflexivity|].
  apply (offset_respects_violated_bounds narrowSession (Num 250) 0 30 40).
  - reflexivity.
  - reflexivity.
  - vm_compute. reflexivity.
Defined.

(** A press on the handle between the columns of the table 50%,50%, a
    move 20 pixels to the right, a release: the one command is
    [resizeColumnWidths] with the widths 55%,45% the view shows. *)
Lemma allowed_gesture_commits_view_widths_witness :
  exists e3 e2,
    pressDragRelease pressInner [Num 320] idleEditor = Some e3
    /\ drag [Num 320] (onMouseDownHandler pressInner idleEditor) = Some e2
    /\ isResizingActive e3 = false
    /\ session e3 = None
    /\ ((same_opt_text (columnWidths (modelTable idleEditor))
                       (Some (colgroupWidths (viewTable e2))) = true
         /\ same_opt_token (tableWidth (modelTable idleEditor))
                           (figureWidth (viewTable e2)) = true
         /\ executed e3 = executed idleEditor
         /\ modelTable e3 = modelTable idleEditor)
        \/ (same_opt_token (tableWidth (modelTable idleEditor))
                           (figureWidth (viewTable e2)) = false
            /\ executed e3
               = resizeTableWidth
                   (Pct (toPrecision (parseFloat (figureWidth (viewTable e2)))))
                   (colgroupWidths (viewTable e2))
                 :: executed idleEditor)
        \/ (same_opt_token (tableWidth (modelTable idleEditor))
                           (figureWidth (viewTable e2)) = true
            /\ same_opt_text (columnWidths (modelTable idleEditor))
                             (Some (colgroupWidths (viewTable e2))) = false
            /\ executed e3
               = resizeColumnWidths (colgroupWidths (viewTable e2))
                 :: executed idleEditor)).
Proof.
  assert (Hgesture : exists e3, pressDragRelease pressInner [Num 320] idleEditor = Some e3)
    by (eexists; vm_compute; reflexivity).
  destruct Hgesture as (e3 & Hgesture). exists e3.
  destruct (allowed_gesture_commits_view_widths pressInner [Num 320] idleEditor e3
              eq_refl eq_refl Hgesture) as (e2 & Hdrag & Hrest).
  exists e2. split; [exact Hgesture|]. split; [exact Hdrag|exact Hrest].
Defined.

(** A click beside the table with no session open, and a press beside the
    table while the session on the handle between the columns is open,
    followed by a move. *)
Lemma press_outside_a_handle_witness :
  (onMouseDownHandler pressOutside idleEditor = setResizingAllowed false idleEditor
   /\ isResizingAllowed (onMouseDownHandler pressOutside idleEditor) = false
   /\ onMouseUpHandler (onMouseDownHandler pressOutside idleEditor)
      = Some (setResizingAllowed true idleEditor))
  /\ (isResizingAllowed (onMouseDownHandler pressOutside pressedEditor) = false
      /\ exists e3,
           onMouseMoveHandler (Num 320) (onMouseDownHandler pressOutside pressedEditor)
           = Some e3
           /\ onMouseUpHandler (setResizingAllowed false pressedEditor) = Some e3
           /\ isResizingActive e3 = false
           /\ isResizingAllowed e3 = false
           /\ session e3 = None
           /\ modelTable e3 = modelTable pressedEditor
           /\ executed e3 = executed pressedEditor).
Proof.
  split.
  - destruct (press_outside_a_handle pressOutside idleEditor eq_refl)
      as (Hpress & Hflag & _ & Hidle & _).
    split; [exact Hpress|]. split; [exact Hflag|]. apply Hidle. reflexivity.
  - destruct (press_outside_a_handle pressOutside pressedEditor eq_refl)
      as (_ & Hflag & _ & _ & Hsession).
    split; [exact Hflag|].
    eapply (Hsession (Num 320)); [reflexivity|vm_compute; reflexivity].
Defined.

(** A press on a handle, a move, a release, a drop and a render, on the
    table 50%,50%. *)
Lemma listeners_do_not_fail_on_columns_of_the_table_witness :
  exists p',
    fire [mousedown pressInner; mousemove (Num 320); mouseup; drop; render] idlePlugin
    = Some p'
    /\ getColumns (modelTable (resizing p')) = getColumns (modelTable (resizing idlePlugin))
    /\ (isResizingActive (resizing p') = true ->
        exists d, session (resizing p') = Some d).
Proof.
  apply (listeners_do_not_fail_on_columns_of_the_table
           [mousedown pressInner; mousemove (Num 320); mouseup; drop; render]
           idlePlugin).
  - reflexivity.
  - intros cols Hcols. injection Hcols as <-. simpl. lia.
  - repeat (apply Forall_cons; split; [simpl; try exact I; intros _; lia|]).
    constructor.
Defined.

(** The release after a press and a move of 20 pixels executes a
    command. *)
Lemma only_an_allowed_release_executes_a_command_witness :
  exists e2 p',
    drag [Num 320] pressedEditor = Some e2
    /\ listener mouseup (Plugin e2 notdragging) = Some p'
    /\ ((modelTable (resizing p') = modelTable e2 /\ executed (resizing p') = executed e2)
        \/ ((mouseup = mouseup \/ mouseup = dragleave 0)
            /\ isResizingActive e2 = true
            /\ isResizingAllowed e2 = true
            /\ isResizingActive (resizing p') = false
            /\ exists c,
                 executed (resizing p') = c :: executed e2
                 /\ (c = resizeColumnWidths (colgroupWidths (viewTable e2))
                     \/ c = resizeTableWidth
                              (Pct (toPrecision (parseFloat (figureWidth (viewTable e2)))))
                              (colgroupWidths (viewTable e2))))).
Proof.
  eexists _, _.
  split; [vm_compute; reflexivity|].
  split; [vm_compute; reflexivity|].
  apply (only_an_allowed_release_executes_a_command mouseup (Plugin _ notdragging)).
  vm_compute. reflexivity.
Defined.

(** The press with the column index 5 on the table of two columns, then a
    move of 20 pixels. *)
Lemma stale_column_index_makes_the_move_fail_witness :
  exists d,
    session (onMouseDownHandler pressStale idleEditor) = Some d
    /\ isResizingActive (onMouseDownHandler pressStale idleEditor) = true
    /\ jeq (dragOffset d (Num 320)) (Num 0) = false
    /\ onMouseMoveHandler (Num 320) (onMouseDownHandler pressStale idleEditor) = None
    /\ fire [mousedown pressStale; mousemove (Num 320)] idlePlugin = None.
Proof.
  destruct (stale_column_index_makes_the_move_fail pressStale idleEditor notdragging
              (Num 320) [Some (percent 50); Some (percent 50)]
              eq_refl eq_refl eq_refl)
    as (d & Hd & Hactive & Hfail).
  { simpl. lia. }
  exists d. split; [exact Hd|]. split; [exact Hactive|].
  assert (Hdx : jeq (dragOffset d (Num 320)) (Num 0) = false).
  { vm_compute in Hd. injection Hd as <-. vm_compute. reflexivity. }
  split; [exact Hdx|]. exact (Hfail Hdx).
Defined.

(** A press beside the table disables resizing; after a drop, the render
    allows it again. *)
Lemma render_after_drop_allows_resizing_witness :
  exists p',
    fire (drop :: [mousedown pressOutside] ++ [render]) idlePlugin = Some p'
    /\ isResizingAllowed (resizing p') = true
    /\ draggingState p' = notdragging
    /\ listener render p' = Some p'.
Proof.
  eexists. split; [vm_compute; reflexivity|].
  apply (render_after_drop_allows_resizing [mousedown pressOutside] idlePlugin).
  - reflexivity.
  - vm_compute. reflexivity.
Defined.

End ControllerMoreExamples.

(** * The marks of a gesture *)

Section HandleMarks.
Import Controller Gesture Drag.
Context `{Utils}.

Lemma press_marks (ev : mouseDown) (e : editor) :
  targetIsResizer ev = true ->
  isResizingAllowed e = true ->
  activeResizers (viewTable (onMouseDownHandler ev e))
  = {[ target ev ]} ∪ activeResizers (viewTable e)
  /\ tableResized (viewTable (onMouseDownHandler ev e)) = true
  /\ exists d, session (onMouseDownHandler ev e) = Some d /\ viewResizer d = target ev.
Proof.
  intros Htarget Hallowed. unfold onMouseDownHandler.
  rewrite Htarget, Hallowed. cbn [negb].
  destruct (calculateDomColumnWidths _ _ _) as [px m]. cbn.
  split; [destruct (colgroup (viewTable e)); reflexivity|].
  split; [reflexivity|]. eexists. split; reflexivity.
Qed.

(** What a gesture leaves of the marks the press set. *)
Lemma gesture_marks (ev : mouseDown) (xs : list number) (e e3 : editor) :
  targetIsResizer ev = true ->
  isResizingAllowed e = true ->
  pressDragRelease ev xs e = Some e3 ->
  activeResizers (viewTable e3) = activeResizers (viewTable e) ∖ {[ target ev ]}
  /\ tableResized (viewTable e3) = true
  /\ isResizingActive e3 = false.
Proof.
  intros Htarget Hallowed Hgesture. unfold pressDragRelease in Hgesture.
  destruct (drag xs (onMouseDownHandler ev e)) as [e2|] eqn:Hdrag; [|discriminate].
  destruct (press_opens_session ev e Htarget Hallowed)
    as (Ha1 & Hl1 & _ & _ & _ & _ & _ & _).
  destruct (press_marks ev e Htarget Hallowed) as (Hmarks & Hresized & d & Hd & Hhandle).
  destruct (drag_frame xs _ e2 d _ Ha1 Hl1 Hd (differInDraggedStyles_refl d _) Hdrag)
    as (He2 & Hres2 & Hact2 & _).
  assert (Hfields : isResizingActive e2 = true /\ isResizingAllowed e2 = true
                    /\ session e2 = Some d).
  { rewrite He2. cbn. repeat split; assumption. }
  destruct Hfields as (Ha2 & Hl2 & Hs2).
  unfold onMouseUpHandler in Hgesture. rewrite Ha2, Hs2, Hl2 in Hgesture.
  cbn [negb] in Hgesture.
  assert (Hsets : activeResizers (viewTable e2) ∖ {[ viewResizer d ]}
                  = activeResizers (viewTable e) ∖ {[ target ev ]}).
  { rewrite Hact2, Hmarks, Hhandle. apply set_eq. intros h.
    rewrite !elem_of_difference, elem_of_union, elem_of_singleton. tauto. }
  destruct (negb (same_opt_text _ _) || negb (same_opt_token _ _));
    injection Hgesture as <-; cbn; rewrite Hres2, Hresized;
    repeat split; exact Hsets.
Qed.

(** The mark of the dragged handle.  A press on a handle, moves and a
    release, all while resizing is allowed, leave no active mark on the
    handle; the marks of the other handles are as they were, and the table
    keeps the class [ck-table-resized] the press gave it. *)
Theorem gesture_unmarks_the_handle (ev : mouseDown) (xs : list number)
    (e e3 : editor) :
  targetIsResizer ev = true ->
  isResizingAllowed e = true ->
  pressDragRelease ev xs e = Some e3 ->
  activeResizers (viewTable e3) = activeResizers (viewTable e) ∖ {[ target ev ]}
  /\ tableResized (viewTable e3) = true.
Proof.
  intros Htarget Hallowed Hgesture.
  destruct (gesture_marks ev xs e e3 Htarget Hallowed Hgesture) as (Hmarks & Hres & _).
  split; assumption.
Qed.

(** A second press while a session is open starts a session of its own;
    the release then unmarks the handle of the second press only: the
    handle of the first press keeps its active mark although no session is
    open. *)
Theorem second_press_leaves_the_first_handle_marked (ev1 ev2 : mouseDown)
    (xs : list number) (e e3 : editor) :
  targetIsResizer ev1 = true ->
  targetIsResizer ev2 = true ->
  isResizingAllowed e = true ->
  target ev1 <> target ev2 ->
  pressDragRelease ev2 xs (onMouseDownHandler ev1 e) = Some e3 ->
  isResizingActive e3 = false
  /\ target ev1 ∈ activeResizers (viewTable e3).
Proof.
  intros Htarget1 Htarget2 Hallowed Hne Hgesture.
  destruct (press_opens_session ev1 e Htarget1 Hallowed) as (_ & Hl1 & _).
  destruct (press_marks ev1 e Htarget1 Hallowed) as (Hmarks1 & _).
  destruct (gesture_marks ev2 xs _ e3 Htarget2 Hl1 Hgesture) as (Hmarks & _ & Hidle).
  split; [exact Hidle|].
  rewrite Hmarks, Hmarks1.
  rewrite elem_of_difference, elem_of_union, !elem_of_singleton.
  split; [left; reflexivity|exact Hne].
Qed.

End HandleMarks.

(** * The last worked examples *)

Section LastExamples.
Import PostFixer Controller Gesture Listeners Examples MoreExamples MoreGestures.
Local Existing Instance SpecUtils.utils.

(** The table with the inserted column and a table with cells of its own
    in one pass. *)
Lemma tables_are_fixed_one_by_one_witness :
  exists ts m' ch,
    postFixer grownMap [grownTable; otherTable] = Some (ts, m', ch)
    /\ Forall2 (fun t t' => exists m1 ch1, postFixer grownMap [t] = Some ([t'], m1, ch1))
               [grownTable; otherTable] ts.
Proof.
  eexists _, _, _. split; [vm_compute; reflexivity|].
  eapply (tables_are_fixed_one_by_one grownMap [grownTable; otherTable]).
  - split; [|split; [constructor|exact I]].
    apply Forall_cons. split; [|constructor].
    intros c Hc Hc'. vm_compute in Hc, Hc'.
    apply elem_of_cons in Hc' as [->|Hc'];
      [|apply elem_of_cons in Hc' as [->|Hc']; [|apply elem_of_nil in Hc'; exact Hc']].
    + apply elem_of_cons in Hc as [Hc|Hc]; [discriminate|].
      apply elem_of_cons in Hc as [Hc|Hc]; [discriminate|].
      apply elem_of_nil in Hc. exact Hc.
    + apply elem_of_cons in Hc as [Hc|Hc]; [discriminate|].
      apply elem_of_cons in Hc as [Hc|Hc]; [discriminate|].
      apply elem_of_nil in Hc. exact Hc.
  - vm_compute. reflexivity.
Defined.

(** The gesture on the handle 7 between the columns of the table
    50%,50%. *)
Lemma gesture_unmarks_the_handle_witness :
  exists e3,
    pressDragRelease pressInner [Num 320] idleEditor = Some e3
    /\ activeResizers (viewTable e3)
       = activeResizers (viewTable idleEditor) ∖ {[ target pressInner ]}
    /\ tableResized (viewTable e3) = true.
Proof.
  eexists. split; [vm_compute; reflexivity|].
  apply (gesture_unmarks_the_handle pressInner [Num 320] idleEditor).
  - reflexivity.
  - reflexivity.
  - vm_compute. reflexivity.
Defined.

(** A press on the handle 7, then a press on the handle 8 and a release:
    the handle 7 stays marked. *)
Lemma second_press_leaves_the_first_handle_marked_witness :
  exists e3,
    pressDragRelease pressEdge [] (onMouseDownHandler pressInner idleEditor) = Some e3
    /\ isResizingActive e3 = false
    /\ target pressInner ∈ activeResizers (viewTable e3).
Proof.
  eexists. split; [vm_compute; reflexivity|].
  apply (second_press_leaves_the_first_handle_marked pressInner pressEdge []
           idleEditor).
  - reflexivity.
  - reflexivity.
  - reflexivity.
  - discriminate.
  - vm_compute. reflexivity.
Defined.

End LastExamples.
